(** * usd-parquet: the read-only Parquet layer data of [parquetLayerData.cpp]

    A shallow embedding of [ParquetLayerData] (the [SdfAbstractData]
    implementation that exposes a Parquet file as a USD layer) and of the
    part of [ParquetFileFormat::Read] that installs it.

    The external collaborators are modelled by small executable
    definitions, each documented where it is introduced:
    - [pxr::TfToken] and [pxr::SdfPath] (tokens as strings; paths as a prim
      part and an optional property part),
    - [pxr::VtValue] (a tagged union of the payloads this file stores),
    - the parquet-cpp reader (a file is a schema and a list of row groups;
      a batch read returns the leading values of a column chunk, and is
      recorded in a log so that reads can be counted). *)

From Stdlib Require Import List String Ascii Bool Arith Lia ZArith.
From Stdlib Require Import Sorted.
Import ListNotations.
Local Open Scope string_scope.
Local Open Scope list_scope.

Set Implicit Arguments.

(* ================================================================== *)
(** * Tokens *)

(** [pxr::TfToken]: an interned string; equality and order are those of
    the underlying string. *)
Abbreviation TfToken := string (only parsing).

Definition TfToken_eqb (a b : TfToken) : bool := String.eqb a b.

(** Field keys of the Sdf schema used by the source
    ([SdfFieldKeys], [SdfChildrenKeys]). *)
Module SdfFieldKeys.
Definition Default : TfToken := "default".
Definition TypeName : TfToken := "typeName".
Definition Variability : TfToken := "variability".
Definition Custom : TfToken := "custom".
Definition Specifier : TfToken := "specifier".
End SdfFieldKeys.

Module SdfChildrenKeys.
Definition PrimChildren : TfToken := "primChildren".
Definition PropertyChildren : TfToken := "properties".
End SdfChildrenKeys.

(* ================================================================== *)
(** * Three-way comparisons

    [std::map] and [std::set] are ordered containers; their iteration
    order is the key order.  Keys are compared with three-way comparison
    functions: [String.compare] on tokens, the dictionary order
    [list_compare] on element lists. *)

Definition option_compare (A : Type) (cmp : A -> A -> comparison)
    (o1 o2 : option A) : comparison :=
  match o1, o2 with
  | None, None => Eq
  | None, Some _ => Lt
  | Some _, None => Gt
  | Some x, Some y => cmp x y
  end.

(* ================================================================== *)
(** * Paths

    [pxr::SdfPath], restricted to the paths that plain prim paths and prim
    property paths denote: the empty path (also the result of parsing an
    ill-formed string), and paths made of an absolute or relative root,
    a chain of prim elements and at most one property element.  Variant
    selections, relationship targets, relational attributes, mappers and
    expressions are outside the modelled fragment: [pxr::SdfPath] has
    paths for them, this type has none.

    The prim part is kept leaf-most element first, as the parent chain of
    [Sdf_PathNode] is. *)

Inductive SdfPath : Type :=
| EmptyPath
| MkPath (isAbsolute : bool) (primPart : list TfToken) (propPart : option TfToken).

Module SdfPathTokens.
Definition absoluteIndicator : TfToken := "/".
Definition relativeRoot : TfToken := ".".
Definition parentPathElement : TfToken := "..".
Definition empty : TfToken := "".
End SdfPathTokens.

(** [SdfPath::AbsoluteRootPath()], the path [/]. *)
Definition AbsoluteRootPath : SdfPath := MkPath true [] None.

(** [SdfPath::ReflexiveRelativePath()], the path [.]. *)
Definition ReflexiveRelativePath : SdfPath := MkPath false [] None.

Definition IsEmpty (p : SdfPath) : bool :=
  match p with EmptyPath => true | _ => false end.

Definition IsAbsolutePath (p : SdfPath) : bool :=
  match p with
  | EmptyPath => false
  | MkPath a _ _ => a
  end.

Definition IsPropertyPath (p : SdfPath) : bool :=
  match p with
  | MkPath _ _ (Some _) => true
  | _ => false
  end.

(** [SdfPath::GetPrimPath]: strips the property part. *)
Definition GetPrimPath (p : SdfPath) : SdfPath :=
  match p with
  | EmptyPath => EmptyPath
  | MkPath a prims _ => MkPath a prims None
  end.

(** [SdfPath::GetNameToken]: the name of the leaf-most element; the root
    nodes are named by their indicator tokens. *)
Definition GetNameToken (p : SdfPath) : TfToken :=
  match p with
  | EmptyPath => SdfPathTokens.empty
  | MkPath _ _ (Some prop) => prop
  | MkPath _ (name :: _) None => name
  | MkPath true [] None => SdfPathTokens.absoluteIndicator
  | MkPath false [] None => SdfPathTokens.relativeRoot
  end.

(** [SdfPath::GetParentPath]: a property path loses its property; an
    absolute prim path loses its last element (the parent of [/] is the
    empty path); a relative path that is [.] or ends in [..] gains one
    more [..]. *)
Definition GetParentPath (p : SdfPath) : SdfPath :=
  match p with
  | EmptyPath => EmptyPath
  | MkPath a prims (Some _) => MkPath a prims None
  | MkPath true [] None => EmptyPath
  | MkPath true (_ :: rest) None => MkPath true rest None
  | MkPath false [] None => MkPath false [SdfPathTokens.parentPathElement] None
  | MkPath false (name :: rest) None =>
      if String.eqb name SdfPathTokens.parentPathElement
      then MkPath false (SdfPathTokens.parentPathElement :: name :: rest) None
      else MkPath false rest None
  end.

(** [SdfPath::GetPathElementCount]. *)
Definition GetPathElementCount (p : SdfPath) : nat :=
  match p with
  | EmptyPath => 0
  | MkPath _ prims None => List.length prims
  | MkPath _ prims (Some _) => S (List.length prims)
  end.

(** [SdfPath::operator<], as a three-way comparison: the empty path comes
    first, absolute paths come before relative ones, prim parts are
    compared in dictionary order from the root down, and the property
    part decides last. *)
Definition SdfPath_compare (p q : SdfPath) : comparison :=
  match p, q with
  | EmptyPath, EmptyPath => Eq
  | EmptyPath, MkPath _ _ _ => Lt
  | MkPath _ _ _, EmptyPath => Gt
  | MkPath a1 prims1 prop1, MkPath a2 prims2 prop2 =>
      match a1, a2 with
      | true, false => Lt
      | false, true => Gt
      | _, _ =>
          match list_compare String.compare (rev prims1) (rev prims2) with
          | Eq => option_compare String.compare prop1 prop2
          | c => c
          end
      end
  end.

Definition SdfPath_eqb (p q : SdfPath) : bool :=
  match SdfPath_compare p q with Eq => true | _ => false end.

(** ** Parsing path strings: [SdfPath(const std::string&)] *)

Definition is_alpha (c : ascii) : bool :=
  let n := nat_of_ascii c in
  (((65 <=? n) && (n <=? 90)) || ((97 <=? n) && (n <=? 122)) || (n =? 95))%nat.

Definition is_alnum (c : ascii) : bool :=
  let n := nat_of_ascii c in
  is_alpha c || ((48 <=? n) && (n <=? 57))%nat.

(** [SdfPath::IsValidIdentifier]: a letter or underscore followed by
    letters, digits and underscores. *)
Definition IsValidIdentifier (s : string) : bool :=
  match s with
  | EmptyString => false
  | String c rest => is_alpha c && forallb is_alnum (list_ascii_of_string rest)
  end.

(** Splits [s] at every occurrence of [sep]; [acc] holds the current
    piece, reversed. *)
Fixpoint split_on_aux (sep : ascii) (s : string) (acc : list ascii) : list string :=
  match s with
  | EmptyString => [string_of_list_ascii (rev acc)]
  | String c rest =>
      if Ascii.eqb c sep
      then string_of_list_ascii (rev acc) :: split_on_aux sep rest []
      else split_on_aux sep rest (c :: acc)
  end.

Definition split_on (sep : ascii) (s : string) : list string :=
  split_on_aux sep s [].

(** [SdfPath::IsValidNamespacedIdentifier]: identifiers joined by [:]. *)
Definition IsValidNamespacedIdentifier (s : string) : bool :=
  forallb IsValidIdentifier (split_on ":" s).

(** Splits an element at its first [.]: the prim name and, if a dot is
    present, the property name after it. *)
Fixpoint split_property_aux (s : string) (acc : list ascii) : string * option string :=
  match s with
  | EmptyString => (string_of_list_ascii (rev acc), None)
  | String c rest =>
      if Ascii.eqb c "."
      then (string_of_list_ascii (rev acc), Some rest)
      else split_property_aux rest (c :: acc)
  end.

Definition split_property (s : string) : string * option string :=
  split_property_aux s [].

Definition valid_property (o : option string) : bool :=
  match o with
  | None => true
  | Some prop => IsValidNamespacedIdentifier prop
  end.

(** The elements after the leading run of [..] must be identifiers. *)
Fixpoint drop_parents (segs : list string) : list string :=
  match segs with
  | s :: rest =>
      if String.eqb s SdfPathTokens.parentPathElement then drop_parents rest else segs
  | [] => []
  end.

(** Parses the part of a path string after the optional leading [/]. *)
Definition parse_elements (isAbs : bool) (body : string) : SdfPath :=
  match rev (split_on "/" body) with
  | [] => EmptyPath
  | last :: before =>
      let '(lastPrim, prop) :=
        if String.eqb last SdfPathTokens.parentPathElement
        then (last, None) else split_property last in
      let prims := rev (lastPrim :: before) in
      let named := if isAbs then prims else drop_parents prims in
      if forallb IsValidIdentifier named && valid_property prop
      then MkPath isAbs (lastPrim :: before) prop
      else EmptyPath
  end.

(** [SdfPath::SdfPath(const std::string&)] on the strings of the
    modelled fragment: an ill-formed string gives the empty path.  A
    string that holds a variant selection, a relationship target, a
    relational attribute, a mapper or an expression denotes a path that
    the type above does not have, and is taken here as the empty path as
    well, although [pxr::SdfPath] accepts it.  What is proved of the
    paths that [Open] indexes therefore concerns the rows whose strings
    are in the fragment; the properties that would fail on a row outside
    it are stated for path columns that hold [prim_path_text] only. *)
Definition SdfPath_of_string (s : string) : SdfPath :=
  match s with
  | EmptyString => EmptyPath
  | String c rest =>
      if Ascii.eqb c "/"
      then match rest with
           | EmptyString => AbsoluteRootPath
           | _ => parse_elements true rest
           end
      else if String.eqb s "." then ReflexiveRelativePath
      else if Ascii.eqb c "."
           then match split_property s with
                | (EmptyString, Some prop) =>
                    if String.eqb s SdfPathTokens.parentPathElement
                       || String.prefix "../" s
                    then parse_elements false s
                    else if IsValidNamespacedIdentifier prop
                         then MkPath false [] (Some prop) else EmptyPath
                | _ => EmptyPath
                end
           else parse_elements false s
  end.

(* ================================================================== *)
(** * Ordered containers: [std::map] and [std::set]

    An ordered map is the list of its entries in ascending key order;
    iterating the container walks that list. *)

(** [std::map<K, V>]. *)
Abbreviation std_map K V := (list (K * V)) (only parsing).

Section StdMap.
Variables K V : Type.
Variable cmp : K -> K -> comparison.

(** [std::map::find]. *)
Fixpoint map_find (k : K) (m : std_map K V) : option V :=
  match m with
  | [] => None
  | (k', v) :: m' =>
      match cmp k k' with
      | Eq => Some v
      | _ => map_find k m'
      end
  end.

(** [std::map::count]. *)
Definition map_count (k : K) (m : std_map K V) : bool :=
  match map_find k m with Some _ => true | None => false end.

(** [m[k] = v]: replaces the value of an existing key, or inserts the
    entry at its place in the key order. *)
Fixpoint map_assign (k : K) (v : V) (m : std_map K V) : std_map K V :=
  match m with
  | [] => [(k, v)]
  | (k', v') :: m' =>
      match cmp k k' with
      | Eq => (k', v) :: m'
      | Lt => (k, v) :: (k', v') :: m'
      | Gt => (k', v') :: map_assign k v m'
      end
  end.

(** [m[k]] used as an lvalue or rvalue: a missing key is first inserted
    with the default-constructed value [dflt]. *)
Definition map_subscript (dflt : V) (k : K) (m : std_map K V) : V * std_map K V :=
  match map_find k m with
  | Some v => (v, m)
  | None => (dflt, map_assign k dflt m)
  end.

Definition map_keys (m : std_map K V) : list K := map fst m.
End StdMap.

(** [std::set<K>] is an ordered map without values. *)
Abbreviation std_set K := (std_map K unit) (only parsing).

Definition set_insert (K : Type) (cmp : K -> K -> comparison) (k : K)
    (s : std_set K) : std_set K :=
  match map_find cmp k s with
  | Some _ => s
  | None => map_assign cmp k tt s
  end.

Definition set_count (K : Type) (cmp : K -> K -> comparison) (k : K)
    (s : std_set K) : bool := map_count cmp k s.

Definition set_elements (K : Type) (s : std_set K) : list K := map_keys s.

(* ================================================================== *)
(** * Values

    The scalar C++ types are carried without interpretation: [float] and
    [double] by their IEEE bit patterns, [int] and [int64_t] by their
    integer value; no arithmetic is performed on them by the source. *)

Definition c_float : Type := Z.
Definition c_double : Type := Z.
Definition c_int : Type := Z.
Definition c_int64 : Type := Z.

Inductive SdfSpecifier := SdfSpecifierDef | SdfSpecifierOver | SdfSpecifierClass.
Inductive SdfVariability := SdfVariabilityVarying | SdfVariabilityUniform.
Inductive SdfSpecType :=
| SdfSpecTypeUnknown | SdfSpecTypeAttribute | SdfSpecTypePrim | SdfSpecTypePseudoRoot.

(** The members of [SdfValueTypeNames] the source refers to. *)
Inductive SdfValueTypeName :=
| TypeFloat | TypeDouble | TypeInt | TypeInt64 | TypeBool | TypeString.

(** [SdfValueTypeName::GetAsToken]. *)
Definition GetAsToken (n : SdfValueTypeName) : TfToken :=
  match n with
  | TypeFloat => "float"
  | TypeDouble => "double"
  | TypeInt => "int"
  | TypeInt64 => "int64"
  | TypeBool => "bool"
  | TypeString => "string"
  end.

(** [pxr::VtValue]: empty, or holding one of the types stored by the
    source. *)
Inductive VtValue : Type :=
| VtEmpty
| VtFloat (x : c_float)
| VtDouble (x : c_double)
| VtInt (x : c_int)
| VtInt64 (x : c_int64)
| VtBool (b : bool)
| VtString (s : string)
| VtFloatArray (a : list c_float)
| VtDoubleArray (a : list c_double)
| VtIntArray (a : list c_int)
| VtInt64Array (a : list c_int64)
| VtBoolArray (a : list bool)
| VtStringArray (a : list string)
| VtTokenArray (a : list TfToken)
| VtToken (t : TfToken)
| VtTypeName (n : SdfValueTypeName)
| VtSpecifier (s : SdfSpecifier)
| VtVariability (v : SdfVariability).

Definition VtValue_IsEmpty (v : VtValue) : bool :=
  match v with VtEmpty => true | _ => false end.

(* ================================================================== *)
(** * The Parquet file and its reader *)

(** [parquet::Type::type], the physical types. *)
Inductive ParquetType :=
| BOOLEAN | INT32 | INT64 | INT96 | FLOAT | DOUBLE | BYTE_ARRAY | FIXED_LEN_BYTE_ARRAY.

(** One column of one row group: its decoded values, or a chunk of the
    given type whose decoding raises an exception. *)
Inductive ColumnChunk :=
| BooleanChunk (vals : list bool)
| Int32Chunk (vals : list c_int)
| Int64Chunk (vals : list c_int64)
| Int96Chunk (vals : list Z)
| FloatChunk (vals : list c_float)
| DoubleChunk (vals : list c_double)
| ByteArrayChunk (vals : list string)
| FixedLenByteArrayChunk (vals : list string)
| CorruptChunk (t : ParquetType).

(** [ColumnReader::type]. *)
Definition chunk_type (c : ColumnChunk) : ParquetType :=
  match c with
  | BooleanChunk _ => BOOLEAN
  | Int32Chunk _ => INT32
  | Int64Chunk _ => INT64
  | Int96Chunk _ => INT96
  | FloatChunk _ => FLOAT
  | DoubleChunk _ => DOUBLE
  | ByteArrayChunk _ => BYTE_ARRAY
  | FixedLenByteArrayChunk _ => FIXED_LEN_BYTE_ARRAY
  | CorruptChunk t => t
  end.

(** The physical types [_LoadBlock] decodes. *)
Definition supported_type (t : ParquetType) : bool :=
  match t with
  | FLOAT | DOUBLE | INT32 | INT64 | BOOLEAN | BYTE_ARRAY => true
  | INT96 | FIXED_LEN_BYTE_ARRAY => false
  end.

Definition ParquetType_eqb (a b : ParquetType) : bool :=
  match a, b with
  | BOOLEAN, BOOLEAN | INT32, INT32 | INT64, INT64 | INT96, INT96
  | FLOAT, FLOAT | DOUBLE, DOUBLE | BYTE_ARRAY, BYTE_ARRAY
  | FIXED_LEN_BYTE_ARRAY, FIXED_LEN_BYTE_ARRAY => true
  | _, _ => false
  end.

Record RowGroup := {
  num_rows : nat;
  columns : list ColumnChunk
}.

Record ParquetFile := {
  schema : list string;          (* column names, in schema order *)
  row_groups : list RowGroup
}.

(** [ParquetFileReader]: the open file and, for counting, the log of the
    batch reads issued so far as (column index, row group) pairs, most
    recent first. *)
Record ParquetFileReader := {
  reader_file : ParquetFile;
  batch_reads : list (nat * nat)
}.

(** The files reachable by name. *)
Definition FileSystem : Type := string -> option ParquetFile.

(** The typed views [static_pointer_cast<...Reader>] of a chunk. *)
Definition as_floats (c : ColumnChunk) : option (list c_float) :=
  match c with FloatChunk v => Some v | _ => None end.
Definition as_doubles (c : ColumnChunk) : option (list c_double) :=
  match c with DoubleChunk v => Some v | _ => None end.
Definition as_int32s (c : ColumnChunk) : option (list c_int) :=
  match c with Int32Chunk v => Some v | _ => None end.
Definition as_int64s (c : ColumnChunk) : option (list c_int64) :=
  match c with Int64Chunk v => Some v | _ => None end.
Definition as_bools (c : ColumnChunk) : option (list bool) :=
  match c with BooleanChunk v => Some v | _ => None end.
Definition as_byte_arrays (c : ColumnChunk) : option (list string) :=
  match c with ByteArrayChunk v => Some v | _ => None end.

(** [VtArray<T> data(n)] filled with the values read: the array has [n]
    value-initialised elements of which the leading ones are overwritten. *)
Definition filled_array (T : Type) (zero : T) (n : nat) (read : list T) : list T :=
  read ++ repeat zero (n - List.length read).

(* ================================================================== *)
(** * Outcomes of a method call

    A call returns a value, raises a C++ exception, has undefined
    behaviour (an invalid cast, an index out of range, a null reader), or
    does not terminate.  The object state survives a return and a throw. *)

Inductive Outcome (S A : Type) : Type :=
| Returns (a : A) (s : S)
| Throws (s : S)
| Undefined
| Diverges.

Arguments Returns {S A} a s.
Arguments Throws {S A} s.
Arguments Undefined {S A}.
Arguments Diverges {S A}.

Definition M (S A : Type) : Type := S -> Outcome S A.

Definition ret {S A} (a : A) : M S A := fun s => Returns a s.

Definition bind {S A B} (m : M S A) (k : A -> M S B) : M S B :=
  fun s =>
    match m s with
    | Returns a s' => k a s'
    | Throws s' => Throws s'
    | Undefined => Undefined
    | Diverges => Diverges
    end.

Definition throw {S A} : M S A := fun s => Throws s.
Definition undefined {S A} : M S A := fun _ => Undefined.
Definition diverge {S A} : M S A := fun _ => Diverges.
Definition get_state {S} : M S S := fun s => Returns s s.
Definition put_state {S} (s : S) : M S unit := fun _ => Returns tt s.
Definition modify {S} (f : S -> S) : M S unit := fun s => Returns tt (f s).

(** [try { body } catch (const std::exception&) { handler }]. *)
Definition try_catch {S A} (body handler : M S A) : M S A :=
  fun s =>
    match body s with
    | Throws s' => handler s'
    | r => r
    end.

Declare Scope monad_scope.
Delimit Scope monad_scope with monad.
Notation "x <- m ;; k" := (bind m (fun x => k))
  (at level 61, m at next level, right associativity) : monad_scope.
Notation "m ;;; k" := (bind m (fun _ => k))
  (at level 61, right associativity) : monad_scope.
Local Open Scope monad_scope.

(** Runs [body] once for each element of [l], in order. *)
Fixpoint for_each {S A} (l : list A) (body : A -> M S unit) : M S unit :=
  match l with
  | [] => ret tt
  | x :: rest => body x ;;; for_each rest body
  end.

(* ================================================================== *)
(** * [ParquetLayerData]: the object state *)

Record ParquetLocation := {
  rowGroup : nat;
  rowOffset : nat
}.

Abbreviation PathMap V := (std_map SdfPath V) (only parsing).
Abbreviation PathSet := (std_set SdfPath) (only parsing).
Abbreviation BlockCache := (std_map TfToken (std_map nat VtValue)) (only parsing).

Record ParquetLayerData := mkLayerData {
  _pathIndex : PathMap ParquetLocation;
  _allPaths : PathSet;
  _childrenMap : PathMap (list TfToken);
  _propertyNames : list TfToken;
  _blockCache : BlockCache;
  _reader : option ParquetFileReader   (* with its metadata *)
}.

(** [ParquetLayerData::ParquetLayerData()]. *)
Definition ParquetLayerData_new : ParquetLayerData :=
  mkLayerData [] [] [] [] [] None.

Definition with_pathIndex (x : PathMap ParquetLocation) (st : ParquetLayerData) :=
  mkLayerData x (_allPaths st) (_childrenMap st) (_propertyNames st)
    (_blockCache st) (_reader st).
Definition with_hierarchy (a : PathSet) (c : PathMap (list TfToken))
    (st : ParquetLayerData) :=
  mkLayerData (_pathIndex st) a c (_propertyNames st) (_blockCache st) (_reader st).
Definition with_propertyNames (x : list TfToken) (st : ParquetLayerData) :=
  mkLayerData (_pathIndex st) (_allPaths st) (_childrenMap st) x
    (_blockCache st) (_reader st).
Definition with_blockCache (x : BlockCache) (st : ParquetLayerData) :=
  mkLayerData (_pathIndex st) (_allPaths st) (_childrenMap st) (_propertyNames st)
    x (_reader st).
Definition with_reader (x : option ParquetFileReader) (st : ParquetLayerData) :=
  mkLayerData (_pathIndex st) (_allPaths st) (_childrenMap st) (_propertyNames st)
    (_blockCache st) x.

Definition Method (A : Type) : Type := M ParquetLayerData A.

(** ** The reader calls *)

(** [ParquetFileReader::OpenFile]: raises when the file cannot be opened. *)
Definition OpenFile (fs : FileSystem) (filePath : string) : Method ParquetFileReader :=
  match fs filePath with
  | Some f => ret {| reader_file := f; batch_reads := [] |}
  | None => throw
  end.

(** [*_reader]: dereferencing a null reader is undefined. *)
Definition the_reader : Method ParquetFileReader :=
  st <- get_state ;;
  match _reader st with
  | Some rd => ret rd
  | None => undefined
  end.

(** [_reader->RowGroup(i)]: raises when [i] is not a row group. *)
Definition reader_RowGroup (i : nat) : Method RowGroup :=
  rd <- the_reader ;;
  match nth_error (row_groups (reader_file rd)) i with
  | Some g => ret g
  | None => throw
  end.

(** [rowGroupReader->Column(i)]: raises when [i] is not a column. *)
Definition RowGroup_Column (g : RowGroup) (i : nat) : Method ColumnChunk :=
  match nth_error (columns g) i with
  | Some c => ret c
  | None => throw
  end.

Definition log_read (col rg : nat) : Method unit :=
  rd <- the_reader ;;
  modify (with_reader
            (Some {| reader_file := reader_file rd;
                     batch_reads := (col, rg) :: batch_reads rd |})).

(** [std::static_pointer_cast<parquet::TypedColumnReader<...>>(colReader)]
    to the reader of the physical type [ty].  The cast is not checked:
    taking the reader of a column of another physical type for a reader
    of [ty] is undefined, whatever the chunk holds. *)
Definition static_pointer_cast (ty : ParquetType) (colReader : ColumnChunk)
    : Method ColumnChunk :=
  if ParquetType_eqb (chunk_type colReader) ty then ret colReader else undefined.

(** [typedReader->ReadBatch(batch_size, ..., values, &valuesRead)] on the
    chunk of column [col] in row group [rg], through a typed reader
    obtained by the cast above and seen through the typed view [view]:
    the read is logged; a corrupt chunk raises; otherwise at most
    [batch_size] leading values are delivered.  (After a valid cast the
    view of a chunk that decodes is always defined.) *)
Definition ReadBatch (T : Type) (view : ColumnChunk -> option (list T))
    (col rg : nat) (chunk : ColumnChunk) (batch_size : nat) : Method (list T) :=
  log_read col rg ;;;
  match chunk with
  | CorruptChunk _ => throw
  | _ => match view chunk with
         | Some vals => ret (firstn batch_size vals)
         | None => undefined
         end
  end.

(** ** [_BuildPathHierarchy] *)

(** The body of the [while] loop that registers [childName] under
    [parent]: [auto& children = _childrenMap[parent]] followed by the
    guarded [push_back]. *)
Definition register_child (parent : SdfPath) (childName : TfToken)
    (cm : PathMap (list TfToken)) : PathMap (list TfToken) :=
  let '(children, cm1) := map_subscript SdfPath_compare [] parent cm in
  if existsb (TfToken_eqb childName) children then cm1
  else map_assign SdfPath_compare parent (children ++ [childName]) cm1.

(** The [while (current != AbsoluteRootPath)] loop; [None] when the root
    is not reached within [fuel] iterations. *)
Fixpoint walk_up (fuel : nat) (current : SdfPath) (allPaths : PathSet)
    (cm : PathMap (list TfToken)) : option (PathSet * PathMap (list TfToken)) :=
  if SdfPath_eqb current AbsoluteRootPath then Some (allPaths, cm)
  else
    match fuel with
    | 0 => None
    | S fuel' =>
        let parent := GetParentPath current in
        let childName := GetNameToken current in
        let cm' := register_child parent childName cm in
        let allPaths' :=
          if SdfPath_eqb parent AbsoluteRootPath then allPaths
          else set_insert SdfPath_compare parent allPaths in
        walk_up fuel' parent allPaths' cm'
    end.

(** The [for (pair : _pathIndex)] loop.  The walk from a path is given as
    many iterations as the path has elements, which is what an absolute
    path needs to reach the root; from any other path the root is never
    reached. *)
Fixpoint build_hierarchy (entries : list (SdfPath * ParquetLocation))
    (allPaths : PathSet) (cm : PathMap (list TfToken))
    : option (PathSet * PathMap (list TfToken)) :=
  match entries with
  | [] => Some (allPaths, cm)
  | (path, _) :: rest =>
      match walk_up (GetPathElementCount path) path
              (set_insert SdfPath_compare path allPaths) cm with
      | Some (allPaths', cm') => build_hierarchy rest allPaths' cm'
      | None => None
      end
  end.

Definition _BuildPathHierarchy : Method unit :=
  st <- get_state ;;
  match build_hierarchy (_pathIndex st) [] [] with
  | Some (allPaths, cm) => put_state (with_hierarchy allPaths cm st)
  | None => diverge
  end.

(** ** [Open] *)

(** Step 1 of [Open]: the index of the (last) column named [path] and the
    names of the other columns, in schema order. *)
Fixpoint scan_columns (names : list string) (i : nat) (pathColIdx : option nat)
    (props : list TfToken) : option nat * list TfToken :=
  match names with
  | [] => (pathColIdx, props)
  | name :: rest =>
      if String.eqb name "path"
      then scan_columns rest (S i) (Some i) props
      else scan_columns rest (S i) pathColIdx (props ++ [name])
  end.

(** The inner loop of step 2 over the values read from row group [rg],
    starting at row [i]. *)
Fixpoint index_rows (rg i : nat) (values : list string)
    (idx : PathMap ParquetLocation) : PathMap ParquetLocation :=
  match values with
  | [] => idx
  | pathStr :: rest =>
      let path := SdfPath_of_string pathStr in
      index_rows rg (S i) rest
        (if IsAbsolutePath path
         then map_assign SdfPath_compare path {| rowGroup := rg; rowOffset := i |} idx
         else idx)
  end.

(** One iteration of the outer loop of step 2. *)
Definition index_row_group (pathColIdx rg : nat) : Method unit :=
  rowGroupReader <- reader_RowGroup rg ;;
  column <- RowGroup_Column rowGroupReader pathColIdx ;;
  colReader <- static_pointer_cast BYTE_ARRAY column ;;
  let rowsInGroup := num_rows rowGroupReader in
  values <- ReadBatch as_byte_arrays pathColIdx rg colReader rowsInGroup ;;
  modify (fun st => with_pathIndex (index_rows rg 0 values (_pathIndex st)) st).

Definition Open (fs : FileSystem) (filePath : string) : Method bool :=
  try_catch
    (rd <- OpenFile fs filePath ;;
     modify (with_reader (Some rd)) ;;;
     let names := schema (reader_file rd) in
     let '(pathColIdx, props) := scan_columns names 0 None [] in
     modify (with_propertyNames props) ;;;
     match pathColIdx with
     | None => ret false
     | Some pathColIdx =>
         let numRowGroups := List.length (row_groups (reader_file rd)) in
         for_each (seq 0 numRowGroups) (index_row_group pathColIdx) ;;;
         _BuildPathHierarchy ;;;
         ret true
     end)
    (ret false).

(** ** The block cache and [_LoadBlock] *)

(** [_blockCache[field].count(rowGroup)]; the subscript inserts an empty
    inner map for a field seen for the first time. *)
Definition cache_count (field : TfToken) (rg : nat) (c : BlockCache) : bool * BlockCache :=
  let '(inner, c1) := map_subscript String.compare [] field c in
  (map_count Nat.compare rg inner, c1).

(** [_blockCache[field][rowGroup] = v]. *)
Definition cache_assign (field : TfToken) (rg : nat) (v : VtValue) (c : BlockCache)
    : BlockCache :=
  let '(inner, c1) := map_subscript String.compare [] field c in
  map_assign String.compare field (map_assign Nat.compare rg v inner) c1.

(** [_blockCache[field][rowGroup]] read: both subscripts insert a
    default-constructed entry when the key is missing. *)
Definition cache_subscript (field : TfToken) (rg : nat) (c : BlockCache)
    : VtValue * BlockCache :=
  let '(inner, c1) := map_subscript String.compare [] field c in
  let '(v, inner') := map_subscript Nat.compare VtEmpty rg inner in
  (v, map_assign String.compare field inner' c1).

(** A lookup that leaves the cache alone, for stating properties. *)
Definition cache_lookup (field : TfToken) (rg : nat) (c : BlockCache) : option VtValue :=
  match map_find String.compare field c with
  | Some inner => map_find Nat.compare rg inner
  | None => None
  end.

(** The first column of the schema named [field], searched from index [i]. *)
Fixpoint find_column (names : list string) (i : nat) (field : string) : option nat :=
  match names with
  | [] => None
  | name :: rest =>
      if String.eqb name field then Some i else find_column rest (S i) field
  end.

Definition store_block (field : TfToken) (rg : nat) (v : VtValue) : Method unit :=
  modify (fun st => with_blockCache (cache_assign field rg v (_blockCache st)) st).

Definition _LoadBlock (field : TfToken) (rowGroup : nat) : Method unit :=
  st <- get_state ;;
  let '(cached, c1) := cache_count field rowGroup (_blockCache st) in
  put_state (with_blockCache c1 st) ;;;
  if cached then ret tt
  else
    rowGroupReader <- reader_RowGroup rowGroup ;;
    rd <- the_reader ;;
    match find_column (schema (reader_file rd)) 0 field with
    | None => ret tt
    | Some colIdx =>
        colReader <- RowGroup_Column rowGroupReader colIdx ;;
        let rowsInGroup := num_rows rowGroupReader in
        match chunk_type colReader with
        | FLOAT =>
            floatReader <- static_pointer_cast FLOAT colReader ;;
            vals <- ReadBatch as_floats colIdx rowGroup floatReader rowsInGroup ;;
            store_block field rowGroup
              (VtFloatArray (filled_array 0%Z rowsInGroup vals))
        | DOUBLE =>
            doubleReader <- static_pointer_cast DOUBLE colReader ;;
            vals <- ReadBatch as_doubles colIdx rowGroup doubleReader rowsInGroup ;;
            store_block field rowGroup
              (VtDoubleArray (filled_array 0%Z rowsInGroup vals))
        | INT32 =>
            intReader <- static_pointer_cast INT32 colReader ;;
            vals <- ReadBatch as_int32s colIdx rowGroup intReader rowsInGroup ;;
            store_block field rowGroup
              (VtIntArray (filled_array 0%Z rowsInGroup vals))
        | INT64 =>
            int64Reader <- static_pointer_cast INT64 colReader ;;
            vals <- ReadBatch as_int64s colIdx rowGroup int64Reader rowsInGroup ;;
            store_block field rowGroup
              (VtInt64Array (filled_array 0%Z rowsInGroup vals))
        | BOOLEAN =>
            boolReader <- static_pointer_cast BOOLEAN colReader ;;
            vals <- ReadBatch as_bools colIdx rowGroup boolReader rowsInGroup ;;
            store_block field rowGroup
              (VtBoolArray (filled_array false rowsInGroup vals))
        | BYTE_ARRAY =>
            stringReader <- static_pointer_cast BYTE_ARRAY colReader ;;
            rawData <- ReadBatch as_byte_arrays colIdx rowGroup stringReader rowsInGroup ;;
            store_block field rowGroup (VtStringArray rawData)
        | INT96 | FIXED_LEN_BYTE_ARRAY => ret tt
        end
    end.

(** [_LoadBlock(field, rg); const VtValue& block = _blockCache[field][rg];] *)
Definition load_and_fetch (field : TfToken) (rg : nat) : Method VtValue :=
  _LoadBlock field rg ;;;
  st <- get_state ;;
  let '(block, c) := cache_subscript field rg (_blockCache st) in
  put_state (with_blockCache c st) ;;;
  ret block.

(** ** The queries *)

(** The [for (prop : _propertyNames) if (prop == propName)] search. *)
Definition has_property (st : ParquetLayerData) (propName : TfToken) : bool :=
  existsb (fun prop => TfToken_eqb prop propName) (_propertyNames st).

Definition HasSpec (st : ParquetLayerData) (path : SdfPath) : bool :=
  if SdfPath_eqb path AbsoluteRootPath then true
  else if IsPropertyPath path then
    let primPath := GetPrimPath path in
    let propName := GetNameToken path in
    if map_count SdfPath_compare primPath (_pathIndex st)
    then has_property st propName
    else false
  else set_count SdfPath_compare path (_allPaths st).

Definition GetSpecType (st : ParquetLayerData) (path : SdfPath) : SdfSpecType :=
  if SdfPath_eqb path AbsoluteRootPath then SdfSpecTypePseudoRoot
  else if IsPropertyPath path then
    let primPath := GetPrimPath path in
    let propName := GetNameToken path in
    if map_count SdfPath_compare primPath (_pathIndex st)
       && has_property st propName
    then SdfSpecTypeAttribute
    else SdfSpecTypeUnknown
  else if set_count SdfPath_compare path (_allPaths st) then SdfSpecTypePrim
  else SdfSpecTypeUnknown.

(** [array[rowOffset]]: an index outside the array is undefined. *)
Definition element (T : Type) (wrap : T -> VtValue) (a : list T) (i : nat)
    : Method VtValue :=
  match nth_error a i with
  | Some x => ret (wrap x)
  | None => undefined
  end.

(** The element of a cached block at [i], wrapped as a scalar; an empty
    value when the block holds none of the six array types. *)
Definition block_element (block : VtValue) (i : nat) : Method VtValue :=
  match block with
  | VtFloatArray a => element VtFloat a i
  | VtDoubleArray a => element VtDouble a i
  | VtIntArray a => element VtInt a i
  | VtInt64Array a => element VtInt64 a i
  | VtBoolArray a => element VtBool a i
  | VtStringArray a => element VtString a i
  | _ => ret VtEmpty
  end.

(** The value type name of a cached block, if it holds one of the six
    array types. *)
Definition block_type (block : VtValue) : option SdfValueTypeName :=
  match block with
  | VtFloatArray _ => Some TypeFloat
  | VtDoubleArray _ => Some TypeDouble
  | VtIntArray _ => Some TypeInt
  | VtInt64Array _ => Some TypeInt64
  | VtBoolArray _ => Some TypeBool
  | VtStringArray _ => Some TypeString
  | _ => None
  end.

Definition Get (path : SdfPath) (field : TfToken) : Method VtValue :=
  st <- get_state ;;
  if TfToken_eqb field SdfChildrenKeys.PrimChildren then
    match map_find SdfPath_compare path (_childrenMap st) with
    | Some children => ret (VtTokenArray children)
    | None => ret (VtTokenArray [])
    end
  else if TfToken_eqb field SdfChildrenKeys.PropertyChildren
          && map_count SdfPath_compare path (_pathIndex st) then
    ret (VtTokenArray (_propertyNames st))
  else if TfToken_eqb field SdfFieldKeys.Specifier
          && set_count SdfPath_compare path (_allPaths st) then
    ret (VtSpecifier SdfSpecifierOver)
  else if IsPropertyPath path then
    let primPath := GetPrimPath path in
    let propName := GetNameToken path in
    match map_find SdfPath_compare primPath (_pathIndex st) with
    | Some loc =>
        if has_property st propName then
          if TfToken_eqb field SdfFieldKeys.Default then
            block <- load_and_fetch propName (rowGroup loc) ;;
            block_element block (rowOffset loc)
          else if TfToken_eqb field SdfFieldKeys.TypeName then
            block <- load_and_fetch propName (rowGroup loc) ;;
            match block_type block with
            | Some n => ret (VtToken (GetAsToken n))
            | None => ret VtEmpty
            end
          else if TfToken_eqb field SdfFieldKeys.Variability then
            ret (VtVariability SdfVariabilityVarying)
          else if TfToken_eqb field SdfFieldKeys.Custom then
            ret (VtBool false)
          else ret VtEmpty
        else ret VtEmpty
    | None => ret VtEmpty
    end
  else ret VtEmpty.

(** [Has(path, field, VtValue* value)].  [value] tells whether the
    pointer is non-null; the result is the returned flag and the value
    written through the pointer, if any. *)
Definition Has (path : SdfPath) (field : TfToken) (value : bool)
    : Method (bool * option VtValue) :=
  let out (v : VtValue) : option VtValue := if value then Some v else None in
  st <- get_state ;;
  if IsPropertyPath path then
    let primPath := GetPrimPath path in
    let propName := GetNameToken path in
    match map_find SdfPath_compare primPath (_pathIndex st) with
    | Some loc =>
        if has_property st propName then
          if TfToken_eqb field SdfFieldKeys.Default then
            val <- Get path field ;;
            let hasVal := negb (VtValue_IsEmpty val) in
            ret (hasVal, if hasVal then out val else None)
          else if TfToken_eqb field SdfFieldKeys.TypeName then
            block <- load_and_fetch propName (rowGroup loc) ;;
            match block_type block with
            | Some n => ret (true, out (VtTypeName n))
            | None => ret (true, None)
            end
          else if TfToken_eqb field SdfFieldKeys.Variability then
            ret (true, out (VtVariability SdfVariabilityVarying))
          else if TfToken_eqb field SdfFieldKeys.Custom then
            ret (true, out (VtBool false))
          else ret (false, None)
        else ret (false, None)
    | None => ret (false, None)
    end
  else if TfToken_eqb field SdfChildrenKeys.PrimChildren
          && (map_count SdfPath_compare path (_childrenMap st)
              || SdfPath_eqb path AbsoluteRootPath) then
    if value then v <- Get path field ;; ret (true, Some v)
    else ret (true, None)
  else if TfToken_eqb field SdfChildrenKeys.PropertyChildren
          && map_count SdfPath_compare path (_pathIndex st) then
    ret (true, out (VtTokenArray (_propertyNames st)))
  else if TfToken_eqb field SdfFieldKeys.Specifier
          && set_count SdfPath_compare path (_allPaths st) then
    ret (true, out (VtSpecifier SdfSpecifierOver))
  else ret (false, None).

(** [Has(path, field, SdfAbstractDataValue* value)]: asks the overload
    above with a local [VtValue] and stores what it received. *)
Definition Has_abstract (path : SdfPath) (field : TfToken) (value : bool)
    : Method (bool * option VtValue) :=
  r <- Has path field true ;;
  match r with
  | (true, written) =>
      ret (true, if value
                 then Some (match written with Some v => v | None => VtEmpty end)
                 else None)
  | (false, _) => ret (false, None)
  end.

Definition List_ (st : ParquetLayerData) (path : SdfPath) : list TfToken :=
  if IsPropertyPath path then
    [SdfFieldKeys.Default; SdfFieldKeys.TypeName;
     SdfFieldKeys.Variability; SdfFieldKeys.Custom]
  else
    (if map_count SdfPath_compare path (_childrenMap st)
        || SdfPath_eqb path AbsoluteRootPath
     then [SdfChildrenKeys.PrimChildren] else [])
    ++ (if set_count SdfPath_compare path (_allPaths st)
        then [SdfFieldKeys.Specifier] else [])
    ++ (if map_count SdfPath_compare path (_pathIndex st)
           && negb (match _propertyNames st with [] => true | _ => false end)
        then [SdfChildrenKeys.PropertyChildren] else []).

(** ** The mutators: every body is empty *)

Definition CreateSpec (path : SdfPath) (specType : SdfSpecType) : Method unit := ret tt.
Definition Set_ (path : SdfPath) (field : TfToken) (value : VtValue) : Method unit := ret tt.
Definition Set_abstract (path : SdfPath) (field : TfToken) (value : VtValue)
  : Method unit := ret tt.
Definition Erase (path : SdfPath) (field : TfToken) : Method unit := ret tt.
Definition EraseSpec (path : SdfPath) : Method unit := ret tt.
Definition MoveSpec (oldPath newPath : SdfPath) : Method unit := ret tt.
Definition SetTimeSample (path : SdfPath) (time : Z) (value : VtValue)
  : Method unit := ret tt.
Definition EraseTimeSample (path : SdfPath) (time : Z) : Method unit := ret tt.

(** A call of one of the mutators. *)
Inductive Mutation :=
| CallCreateSpec (path : SdfPath) (specType : SdfSpecType)
| CallSet (path : SdfPath) (field : TfToken) (value : VtValue)
| CallSetAbstract (path : SdfPath) (field : TfToken) (value : VtValue)
| CallErase (path : SdfPath) (field : TfToken)
| CallEraseSpec (path : SdfPath)
| CallMoveSpec (oldPath newPath : SdfPath)
| CallSetTimeSample (path : SdfPath) (time : Z) (value : VtValue)
| CallEraseTimeSample (path : SdfPath) (time : Z).

Definition call (m : Mutation) : Method unit :=
  match m with
  | CallCreateSpec p t => CreateSpec p t
  | CallSet p f v => Set_ p f v
  | CallSetAbstract p f v => Set_abstract p f v
  | CallErase p f => Erase p f
  | CallEraseSpec p => EraseSpec p
  | CallMoveSpec p q => MoveSpec p q
  | CallSetTimeSample p t v => SetTimeSample p t v
  | CallEraseTimeSample p t => EraseTimeSample p t
  end.

(** ** [ParquetFileFormat::Read] *)

Record SdfLayer := {
  layer_data : option ParquetLayerData;
  permissionToSave : bool;
  permissionToEdit : bool
}.

(** Creates the data object, opens the file into it and, only when that
    succeeded, installs it in the layer and revokes the permissions. *)
Definition Read (fs : FileSystem) (resolvedPath : string) : M SdfLayer bool :=
  fun layer =>
    match Open fs resolvedPath ParquetLayerData_new with
    | Returns true data =>
        Returns true {| layer_data := Some data;
                        permissionToSave := false;
                        permissionToEdit := false |}
    | Returns false _ => Returns false layer
    | Throws _ => Throws layer
    | Undefined => Undefined
    | Diverges => Diverges
    end.

(* ================================================================== *)
(** * The vocabulary of the specification *)

(** The Indexed Node Set: the keys of the path index. *)
Definition Indexed (st : ParquetLayerData) (p : SdfPath) : Prop :=
  map_count SdfPath_compare p (_pathIndex st) = true.

(** The All-Nodes set. *)
Definition InAllNodes (st : ParquetLayerData) (p : SdfPath) : Prop :=
  set_count SdfPath_compare p (_allPaths st) = true.

(** The Field Catalog. *)
Definition InFieldCatalog (st : ParquetLayerData) (f : TfToken) : Prop :=
  In f (_propertyNames st).

(** A well-formed field path whose container is indexed and whose field
    name is in the catalog. *)
Definition ValidFieldPath (st : ParquetLayerData) (p : SdfPath) : Prop :=
  IsPropertyPath p = true
  /\ Indexed st (GetPrimPath p)
  /\ InFieldCatalog st (GetNameToken p).

(** The existence rule as the specification words it: the root, any
    member of All-Nodes, or a valid field path. *)
Definition has_node_rule (st : ParquetLayerData) (p : SdfPath) : Prop :=
  p = AbsoluteRootPath \/ InAllNodes st p \/ ValidFieldPath st p.

(** The kind rule as the specification words it: the root is the
    pseudo-root; any other member of All-Nodes is a prim; any other valid
    field path is an attribute. *)
Definition kind_rule (st : ParquetLayerData) (p : SdfPath) : Prop :=
  (p = AbsoluteRootPath -> GetSpecType st p = SdfSpecTypePseudoRoot)
  /\ (p <> AbsoluteRootPath -> InAllNodes st p ->
      GetSpecType st p = SdfSpecTypePrim)
  /\ (p <> AbsoluteRootPath -> ~ InAllNodes st p -> ValidFieldPath st p ->
      GetSpecType st p = SdfSpecTypeAttribute).

(** [a] is a strict ancestor of [p]: it is reached from [p] by one or
    more [GetParentPath] steps, none of them taken from the root. *)
Inductive StrictAncestor : SdfPath -> SdfPath -> Prop :=
| ancestor_parent (p : SdfPath) :
    p <> AbsoluteRootPath -> StrictAncestor (GetParentPath p) p
| ancestor_step (a p : SdfPath) :
    p <> AbsoluteRootPath -> StrictAncestor a (GetParentPath p) ->
    StrictAncestor a p.

(** Runs a sequence of mutator calls. *)
Definition run_mutations (ms : list Mutation) : Method unit := for_each ms call.

(** ** The path column as [Open] scans it *)

(** The column [Open] takes as the path column, and the Field Catalog it
    collects. *)
Definition path_column (f : ParquetFile) : option nat :=
  fst (scan_columns (schema f) 0 None []).

Definition field_catalog (f : ParquetFile) : list TfToken :=
  snd (scan_columns (schema f) 0 None []).

(** What the batch read of the path column of one row group gives: the
    strings read, an exception (the row group lacks the column, or its
    chunk is of byte-array type and fails to decode), or undefined
    behaviour (the chunk is not of byte-array type, whether or not it
    decodes: the cast comes before the read). *)
Inductive PathRead :=
| PathValues (values : list string)
| PathRaises
| PathUndefined.

Definition read_path_chunk (pathColIdx : nat) (g : RowGroup) : PathRead :=
  match nth_error (columns g) pathColIdx with
  | None => PathRaises
  | Some (ByteArrayChunk vals) => PathValues (firstn (num_rows g) vals)
  | Some (CorruptChunk BYTE_ARRAY) => PathRaises
  | Some _ => PathUndefined
  end.

(** How the scan of the path column over the row groups, in order, ends. *)
Inductive ScanOutcome := ScanCompletes | ScanRaises | ScanUndefined.

Fixpoint scan_outcome (pathColIdx : nat) (groups : list RowGroup) : ScanOutcome :=
  match groups with
  | [] => ScanCompletes
  | g :: rest =>
      match read_path_chunk pathColIdx g with
      | PathValues _ => scan_outcome pathColIdx rest
      | PathRaises => ScanRaises
      | PathUndefined => ScanUndefined
      end
  end.

(** The rows of the path column with their storage locations, in scan
    order: row groups in file order, rows in row order. *)
Fixpoint number_rows (rg i : nat) (values : list string)
    : list (string * ParquetLocation) :=
  match values with
  | [] => []
  | s :: rest => (s, {| rowGroup := rg; rowOffset := i |}) :: number_rows rg (S i) rest
  end.

Fixpoint path_rows (pathColIdx rg : nat) (groups : list RowGroup)
    : list (string * ParquetLocation) :=
  match groups with
  | [] => []
  | g :: rest =>
      match read_path_chunk pathColIdx g with
      | PathValues vals => number_rows rg 0 vals
      | _ => []
      end ++ path_rows pathColIdx (S rg) rest
  end.

(** Last-write-wins: the location of the last row, in scan order, whose
    string is a well-formed absolute path equal to [p]. *)
Fixpoint last_location (p : SdfPath) (rows : list (string * ParquetLocation))
    : option ParquetLocation :=
  match rows with
  | [] => None
  | (s, loc) :: rest =>
      match last_location p rest with
      | Some l => Some l
      | None =>
          if IsAbsolutePath (SdfPath_of_string s)
             && SdfPath_eqb (SdfPath_of_string s) p
          then Some loc else None
      end
  end.

(** The index after the row groups [groups], numbered from [rg], have
    been scanned. *)
Fixpoint index_groups (pathColIdx rg : nat) (groups : list RowGroup)
    (idx : PathMap ParquetLocation) : PathMap ParquetLocation :=
  match groups with
  | [] => idx
  | g :: rest =>
      match read_path_chunk pathColIdx g with
      | PathValues vals =>
          index_groups pathColIdx (S rg) rest (index_rows rg 0 vals idx)
      | _ => idx
      end
  end.

(** The file open in a store, if any. *)
Definition open_file (st : ParquetLayerData) : option ParquetFile :=
  option_map reader_file (_reader st).

(** The batch reads issued so far, most recent first. *)
Definition reads (st : ParquetLayerData) : list (nat * nat) :=
  match _reader st with
  | Some rd => batch_reads rd
  | None => []
  end.

(** ** Hierarchy synthesis in the words of the specification *)

(** The guarded [push_back]: a name already listed is not added again. *)
Definition push_child (children : list TfToken) (childName : TfToken) : list TfToken :=
  if existsb (TfToken_eqb childName) children then children
  else children ++ [childName].

(** The (parent, child name) pairs met on the walk from [current] up to
    the root, in the order they are met. *)
Fixpoint registrations (fuel : nat) (current : SdfPath) : list (SdfPath * TfToken) :=
  if SdfPath_eqb current AbsoluteRootPath then []
  else
    match fuel with
    | 0 => []
    | S fuel' =>
        (GetParentPath current, GetNameToken current)
          :: registrations fuel' (GetParentPath current)
    end.

(** The pairs discovered when the walks are made from [paths], in that
    order. *)
Definition discovery_sequence (paths : list SdfPath) : list (SdfPath * TfToken) :=
  flat_map (fun p => registrations (GetPathElementCount p) p) paths.

(** The child names discovered under [parent], in discovery order, with
    repetitions. *)
Definition names_under (parent : SdfPath) (regs : list (SdfPath * TfToken))
    : list TfToken :=
  map snd (filter (fun r => SdfPath_eqb parent (fst r)) regs).

(** Keeps the first occurrence of every name, in order. *)
Fixpoint keep_first (names : list TfToken) : list TfToken :=
  match names with
  | [] => []
  | n :: rest => n :: filter (fun m => negb (TfToken_eqb m n)) (keep_first rest)
  end.

(** First-discovery order of the children of [parent] when the walks are
    made from [paths] in that order; duplicates suppressed. *)
Definition first_discovery_order (paths : list SdfPath) (parent : SdfPath)
    : list TfToken :=
  keep_first (names_under parent (discovery_sequence paths)).

(** The entry of the Children Map for [parent]; no entry reads as the
    empty sequence. *)
Definition children_of (st : ParquetLayerData) (parent : SdfPath) : list TfToken :=
  match map_find SdfPath_compare parent (_childrenMap st) with
  | Some children => children
  | None => []
  end.

(** The well-formed absolute paths of the path column, in the order the
    rows are scanned (block order, then row order). *)
Definition scanned_paths (f : ParquetFile) (pathColIdx : nat) : list SdfPath :=
  filter IsAbsolutePath
    (map (fun r => SdfPath_of_string (fst r)) (path_rows pathColIdx 0 (row_groups f))).

(** The effect of one registration on the entry of [q]. *)
Definition apply_registration (q : SdfPath) (entry : option (list TfToken))
    (r : SdfPath * TfToken) : option (list TfToken) :=
  if SdfPath_eqb q (fst r)
  then Some (push_child (match entry with Some l => l | None => [] end) (snd r))
  else entry.

(** What a successful [Open] of the file [f], with path column
    [pathColIdx], establishes in the fresh object. *)
Definition Opened (f : ParquetFile) (pathColIdx : nat) (st : ParquetLayerData) : Prop :=
  path_column f = Some pathColIdx
  /\ scan_outcome pathColIdx (row_groups f) = ScanCompletes
  /\ _pathIndex st = index_groups pathColIdx 0 (row_groups f) []
  /\ build_hierarchy (_pathIndex st) [] [] = Some (_allPaths st, _childrenMap st)
  /\ _propertyNames st = field_catalog f
  /\ _blockCache st = []
  /\ open_file st = Some f.

(** The object left by a call. *)
Definition store_of (A : Type) (o : Outcome ParquetLayerData A) : ParquetLayerData :=
  match o with
  | Returns _ s => s
  | Throws s => s
  | _ => ParquetLayerData_new
  end.

(** The children order as the specification words it: first discovery
    when the paths are taken in the order the rows were scanned. *)
Definition children_in_scan_order (f : ParquetFile) (pathColIdx : nat)
    (st : ParquetLayerData) : Prop :=
  forall parent,
    children_of st parent = first_discovery_order (scanned_paths f pathColIdx) parent.

(** ** Blocks in the words of the specification *)

(** The array [_LoadBlock] stores for a chunk of a row group with
    [rowsInGroup] rows; none for an unsupported physical type or a chunk
    that does not decode. *)
Definition decode_chunk (rowsInGroup : nat) (c : ColumnChunk) : option VtValue :=
  match c with
  | FloatChunk v =>
      Some (VtFloatArray (filled_array 0%Z rowsInGroup (firstn rowsInGroup v)))
  | DoubleChunk v =>
      Some (VtDoubleArray (filled_array 0%Z rowsInGroup (firstn rowsInGroup v)))
  | Int32Chunk v =>
      Some (VtIntArray (filled_array 0%Z rowsInGroup (firstn rowsInGroup v)))
  | Int64Chunk v =>
      Some (VtInt64Array (filled_array 0%Z rowsInGroup (firstn rowsInGroup v)))
  | BooleanChunk v =>
      Some (VtBoolArray (filled_array false rowsInGroup (firstn rowsInGroup v)))
  | ByteArrayChunk v => Some (VtStringArray (firstn rowsInGroup v))
  | Int96Chunk _ | FixedLenByteArrayChunk _ | CorruptChunk _ => None
  end.

(** The column index, row group and chunk that [field] resolves to in
    row group [rg] of the file. *)
Definition field_chunk (f : ParquetFile) (field : TfToken) (rg : nat)
    : option (nat * RowGroup * ColumnChunk) :=
  match nth_error (row_groups f) rg, find_column (schema f) 0 field with
  | Some g, Some colIdx =>
      match nth_error (columns g) colIdx with
      | Some chunk => Some (colIdx, g, chunk)
      | None => None
      end
  | _, _ => None
  end.

(** What the cache holds for ([field], [rg]) once the pair has an entry:
    the decoded array, or the empty value left by a subscript when
    nothing could be stored. *)
Definition expected_block (f : ParquetFile) (field : TfToken) (rg : nat) : VtValue :=
  match field_chunk f field rg with
  | Some (_, g, chunk) =>
      match decode_chunk (num_rows g) chunk with
      | Some v => v
      | None => VtEmpty
      end
  | None => VtEmpty
  end.

Definition cache_consistent (f : ParquetFile) (c : BlockCache) : Prop :=
  forall field rg v, cache_lookup field rg c = Some v -> v = expected_block f field rg.

(** The value a chunk holds at row [i] of its block, as a typed scalar. *)
Definition chunk_value (rowsInGroup : nat) (c : ColumnChunk) (i : nat) : option VtValue :=
  match c with
  | FloatChunk v => option_map VtFloat (nth_error (firstn rowsInGroup v) i)
  | DoubleChunk v => option_map VtDouble (nth_error (firstn rowsInGroup v) i)
  | Int32Chunk v => option_map VtInt (nth_error (firstn rowsInGroup v) i)
  | Int64Chunk v => option_map VtInt64 (nth_error (firstn rowsInGroup v) i)
  | BooleanChunk v => option_map VtBool (nth_error (firstn rowsInGroup v) i)
  | ByteArrayChunk v => option_map VtString (nth_error (firstn rowsInGroup v) i)
  | Int96Chunk _ | FixedLenByteArrayChunk _ | CorruptChunk _ => None
  end.

(** The value type name of a supported physical type. *)
Definition type_name_of (t : ParquetType) : option SdfValueTypeName :=
  match t with
  | FLOAT => Some TypeFloat
  | DOUBLE => Some TypeDouble
  | INT32 => Some TypeInt
  | INT64 => Some TypeInt64
  | BOOLEAN => Some TypeBool
  | BYTE_ARRAY => Some TypeString
  | INT96 | FIXED_LEN_BYTE_ARRAY => None
  end.


(** The parts of the object that only [Open] writes. *)
Definition same_structure (st st' : ParquetLayerData) : Prop :=
  _pathIndex st' = _pathIndex st
  /\ _allPaths st' = _allPaths st
  /\ _childrenMap st' = _childrenMap st
  /\ _propertyNames st' = _propertyNames st
  /\ open_file st' = open_file st.

(** [n] consecutive calls of [_LoadBlock] for the same pair. *)
Fixpoint load_repeatedly (n : nat) (field : TfToken) (rg : nat) : Method unit :=
  match n with
  | 0 => ret tt
  | S n' => _LoadBlock field rg ;;; load_repeatedly n' field rg
  end.

(** The states an opened store can be in: the one [Open] leaves, and
    those reached from it by any calls of the queries and mutators,
    whether a call returns or raises (the object outlives an exception
    that escapes a query). *)
Inductive Reachable (fs : FileSystem) (filePath : string) : ParquetLayerData -> Prop :=
| reach_Open (st : ParquetLayerData) :
    Open fs filePath ParquetLayerData_new = Returns true st ->
    Reachable fs filePath st
| reach_Get (st st' : ParquetLayerData) (path : SdfPath) (field : TfToken)
    (v : VtValue) :
    Reachable fs filePath st ->
    Get path field st = Returns v st' ->
    Reachable fs filePath st'
| reach_Has (st st' : ParquetLayerData) (path : SdfPath) (field : TfToken)
    (value : bool) (r : bool * option VtValue) :
    Reachable fs filePath st ->
    Has path field value st = Returns r st' ->
    Reachable fs filePath st'
| reach_Has_abstract (st st' : ParquetLayerData) (path : SdfPath) (field : TfToken)
    (value : bool) (r : bool * option VtValue) :
    Reachable fs filePath st ->
    Has_abstract path field value st = Returns r st' ->
    Reachable fs filePath st'
| reach_call (st st' : ParquetLayerData) (m : Mutation) :
    Reachable fs filePath st ->
    call m st = Returns tt st' ->
    Reachable fs filePath st'
| reach_Get_raises (st st' : ParquetLayerData) (path : SdfPath) (field : TfToken) :
    Reachable fs filePath st ->
    Get path field st = Throws st' ->
    Reachable fs filePath st'
| reach_Has_raises (st st' : ParquetLayerData) (path : SdfPath) (field : TfToken)
    (value : bool) :
    Reachable fs filePath st ->
    Has path field value st = Throws st' ->
    Reachable fs filePath st'
| reach_Has_abstract_raises (st st' : ParquetLayerData) (path : SdfPath)
    (field : TfToken) (value : bool) :
    Reachable fs filePath st ->
    Has_abstract path field value st = Throws st' ->
    Reachable fs filePath st'.

(* ================================================================== *)
(** * Example files

    Small files and the stores [Open] builds from them, used to run the
    definitions on concrete inputs. *)

(** A file with a malformed and a relative row, and a repeated path. *)
Definition rows_file : ParquetFile :=
  {| schema := ["path"; "temp"];
     row_groups :=
       [ {| num_rows := 3;
            columns := [ByteArrayChunk ["/A/B"; ""; "/A/C"];
                        DoubleChunk [15%Z; 0%Z; 25%Z]] |};
         {| num_rows := 2;
            columns := [ByteArrayChunk ["rel/path"; "/A/B"];
                        DoubleChunk [35%Z; 45%Z]] |} ] |}.

Definition rows_fs : FileSystem :=
  fun name => if String.eqb name "rows.parquet" then Some rows_file else None.

Definition rows_store : ParquetLayerData :=
  store_of (Open rows_fs "rows.parquet" ParquetLayerData_new).

(** A file whose second row group fails to decode. *)
Definition corrupt_file : ParquetFile :=
  {| schema := ["path"; "temp"];
     row_groups :=
       [ {| num_rows := 1;
            columns := [ByteArrayChunk ["/A"]; DoubleChunk [15%Z]] |};
         {| num_rows := 1;
            columns := [CorruptChunk BYTE_ARRAY; DoubleChunk [25%Z]] |} ] |}.

Definition corrupt_fs : FileSystem :=
  fun name => if String.eqb name "corrupt.parquet" then Some corrupt_file else None.

(** A file whose rows are not in ascending path order. *)
Definition order_file : ParquetFile :=
  {| schema := ["path"; "temp"];
     row_groups :=
       [ {| num_rows := 2;
            columns := [ByteArrayChunk ["/A/C"; "/A/B"];
                        DoubleChunk [25%Z; 15%Z]] |} ] |}.

Definition order_fs : FileSystem :=
  fun name => if String.eqb name "order.parquet" then Some order_file else None.

Definition order_store : ParquetLayerData :=
  store_of (Open order_fs "order.parquet" ParquetLayerData_new).

(** A file whose only row names a property. *)
Definition property_row_file : ParquetFile :=
  {| schema := ["path"; "temp"];
     row_groups :=
       [ {| num_rows := 1;
            columns := [ByteArrayChunk ["/A.b"]; DoubleChunk [15%Z]] |} ] |}.

Definition property_row_fs : FileSystem :=
  fun name => if String.eqb name "prop.parquet" then Some property_row_file else None.

Definition property_row_store : ParquetLayerData :=
  store_of (Open property_row_fs "prop.parquet" ParquetLayerData_new).

(** A file with a column of an unsupported physical type. *)
Definition unsupported_file : ParquetFile :=
  {| schema := ["path"; "temp"; "ts"];
     row_groups :=
       [ {| num_rows := 1;
            columns := [ByteArrayChunk ["/A"]; DoubleChunk [15%Z]; Int96Chunk [7%Z]] |} ] |}.

Definition unsupported_fs : FileSystem :=
  fun name => if String.eqb name "ts.parquet" then Some unsupported_file else None.

Definition unsupported_store : ParquetLayerData :=
  store_of (Open unsupported_fs "ts.parquet" ParquetLayerData_new).

(* ================================================================== *)
(** * Traversal: [_VisitSpecs] *)

(** [SdfPath::AppendProperty]: a property can be appended to a prim path
    or to the relative root, and its name must be a namespaced
    identifier; anything else gives the empty path. *)
Definition AppendProperty (p : SdfPath) (propName : TfToken) : SdfPath :=
  match p with
  | MkPath a prims None =>
      if IsValidNamespacedIdentifier propName
         && negb (SdfPath_eqb p AbsoluteRootPath)
      then MkPath a prims (Some propName)
      else EmptyPath
  | _ => EmptyPath
  end.

Section Visit.
(** The visitor: [VisitSpec data path] with the visitor's state, which
    also stands for whatever the visitor makes of the constant reference
    to the data it is handed; it answers whether to go on. *)
Variable S : Type.
Variable VisitSpec : ParquetLayerData -> SdfPath -> S -> bool * S.

(** The inner [for (prop : _propertyNames)] loop; the flag tells whether
    the traversal goes on. *)
Fixpoint visit_properties (st : ParquetLayerData) (path : SdfPath)
    (props : list TfToken) (s : S) : bool * S :=
  match props with
  | [] => (true, s)
  | prop :: rest =>
      let propPath := AppendProperty path prop in
      let '(go, s') := VisitSpec st propPath s in
      if go then visit_properties st path rest s' else (false, s')
  end.

(** The [for (path : _allPaths)] loop. *)
Fixpoint visit_paths (st : ParquetLayerData) (paths : list SdfPath) (s : S)
    : bool * S :=
  match paths with
  | [] => (true, s)
  | path :: rest =>
      let '(go, s1) := VisitSpec st path s in
      if go then
        let '(go', s2) :=
          if map_count SdfPath_compare path (_pathIndex st)
          then visit_properties st path (_propertyNames st) s1
          else (true, s1) in
        if go' then visit_paths st rest s2 else (false, s2)
      else (false, s1)
  end.

Definition _VisitSpecs (st : ParquetLayerData) (s : S) : S :=
  let '(go, s1) := VisitSpec st AbsoluteRootPath s in
  if go then snd (visit_paths st (set_elements (_allPaths st)) s1) else s1.

(** Calls the visitor on the paths in order and stops after the first
    call that declines. *)
Fixpoint visit_until_declined (st : ParquetLayerData) (paths : list SdfPath) (s : S)
    : bool * S :=
  match paths with
  | [] => (true, s)
  | p :: rest =>
      let '(go, s') := VisitSpec st p s in
      if go then visit_until_declined st rest s' else (false, s')
  end.
End Visit.

(** The paths of one All-Nodes member in a traversal: the path, then, for
    a data prim, its property paths in Field Catalog order. *)
Definition visit_order_of (st : ParquetLayerData) (path : SdfPath) : list SdfPath :=
  path :: (if map_count SdfPath_compare path (_pathIndex st)
           then map (AppendProperty path) (_propertyNames st)
           else []).

(** The order of an uninterrupted traversal. *)
Definition visit_order (st : ParquetLayerData) : list SdfPath :=
  AbsoluteRootPath :: flat_map (visit_order_of st) (set_elements (_allPaths st)).


(* ================================================================== *)
(** * Further vocabulary *)

(** The file opens, has a path column, and the scan of that column over
    the row groups, in order, ends with [o]. *)
Definition scan_ends_with (fs : FileSystem) (filePath : string) (o : ScanOutcome)
    : Prop :=
  exists f pc,
    fs filePath = Some f /\ path_column f = Some pc
    /\ scan_outcome pc (row_groups f) = o.

(** The value-initialised element of a block of the given type, for the
    types whose array [_LoadBlock] sizes by the rows of the row group; the
    array of strings is sized by the values read and has none. *)
Definition zero_value (T : SdfValueTypeName) : option VtValue :=
  match T with
  | TypeFloat => Some (VtFloat 0%Z)
  | TypeDouble => Some (VtDouble 0%Z)
  | TypeInt => Some (VtInt 0%Z)
  | TypeInt64 => Some (VtInt64 0%Z)
  | TypeBool => Some (VtBool false)
  | TypeString => None
  end.

(** A file whose value columns hold fewer values than the row group has
    rows. *)
Definition short_file : ParquetFile :=
  {| schema := ["path"; "temp"; "label"];
     row_groups :=
       [ {| num_rows := 2;
            columns := [ByteArrayChunk ["/A"; "/B"];
                        DoubleChunk [15%Z];
                        ByteArrayChunk ["first"]] |} ] |}.

Definition short_fs : FileSystem :=
  fun name => if String.eqb name "short.parquet" then Some short_file else None.

Definition short_store : ParquetLayerData :=
  store_of (Open short_fs "short.parquet" ParquetLayerData_new).

(** The batch reads of [Open]: the path column of every row group, the
    most recent first. *)
Definition open_reads (f : ParquetFile) (pathColIdx : nat) : list (nat * nat) :=
  rev (map (pair pathColIdx) (seq 0 (List.length (row_groups f)))).

(** The chunk of column [fst r] in row group [snd r] fails to decode. *)
Definition failing_chunk (f : ParquetFile) (r : nat * nat) : bool :=
  match nth_error (row_groups f) (snd r) with
  | Some g =>
      match nth_error (columns g) (fst r) with
      | Some (CorruptChunk _) => true
      | _ => false
      end
  | None => false
  end.

(** The read log of a store opened on [f]: the reads of [Open], and before
    them (most recent first) the reads [later], each of the column of a
    field other than the path; a pair whose chunk decodes occurs once and
    its block has an entry in the cache. *)
Definition reads_account (f : ParquetFile) (pathColIdx : nat)
    (st : ParquetLayerData) (later : list (nat * nat)) : Prop :=
  reads st = later ++ open_reads f pathColIdx
  /\ NoDup (filter (fun r => negb (failing_chunk f r)) later)
  /\ forall c rg,
       In (c, rg) later ->
       exists field,
         field <> "path"
         /\ find_column (schema f) 0 field = Some c
         /\ (failing_chunk f (c, rg) = true
             \/ cache_lookup field rg (_blockCache st) <> None).

(** A file whose value column fails to decode. *)
Definition bad_values_file : ParquetFile :=
  {| schema := ["path"; "temp"];
     row_groups :=
       [ {| num_rows := 1;
            columns := [ByteArrayChunk ["/A"]; CorruptChunk DOUBLE] |} ] |}.

Definition bad_values_fs : FileSystem :=
  fun name => if String.eqb name "bad.parquet" then Some bad_values_file else None.

Definition bad_values_store : ParquetLayerData :=
  store_of (Open bad_values_fs "bad.parquet" ParquetLayerData_new).

(** [SdfPath::AppendChild]: a child can be appended to the absolute root,
    to a prim path or to the relative root; the name [..] gives the
    parent path, any other name must be an identifier; anything else
    gives the empty path. *)
Definition AppendChild (p : SdfPath) (childName : TfToken) : SdfPath :=
  match p with
  | MkPath a prims None =>
      if String.eqb childName SdfPathTokens.parentPathElement then GetParentPath p
      else if IsValidIdentifier childName then MkPath a (childName :: prims) None
      else EmptyPath
  | _ => EmptyPath
  end.

(** Loading a pair twice as the specification words it: the two calls
    return, the first populates the cache entry of the pair, the second
    issues no read, and together they issue exactly one batch read. *)
Definition loads_twice_reads_once (field : TfToken) (rowGroup : nat)
    (st : ParquetLayerData) : Prop :=
  exists st1 st2,
    _LoadBlock field rowGroup st = Returns tt st1
    /\ _LoadBlock field rowGroup st1 = Returns tt st2
    /\ cache_lookup field rowGroup (_blockCache st1) <> None
    /\ reads st2 = reads st1
    /\ List.length (reads st2) = S (List.length (reads st)).

(** The strings that [Open] reads from the path column of the file at
    [filePath], in scan order. *)
Definition path_strings (fs : FileSystem) (filePath : string) : list string :=
  match fs filePath with
  | Some f =>
      match path_column f with
      | Some pc => map fst (path_rows pc 0 (row_groups f))
      | None => []
      end
  | None => []
  end.

(** The text of a prim path: letters, digits, underscores and [/] only.
    A string of this form holds no property, no variant selection, no
    relationship target, no mapper and no expression; as a path it is a
    prim path or ill-formed. *)
Definition prim_path_text (s : string) : bool :=
  forallb (fun c => is_alnum c || Ascii.eqb c "/") (list_ascii_of_string s).

(* ================================================================== *)
(** * Properties *)

(** ** Path strings *)

Example parse_prim : SdfPath_of_string "/World/Sphere1" = MkPath true ["Sphere1"; "World"] None.
Proof. reflexivity. Qed.
Example parse_prop : SdfPath_of_string "/A/B.temp" = MkPath true ["B"; "A"] (Some "temp").
Proof. reflexivity. Qed.
Example parse_root : SdfPath_of_string "/" = AbsoluteRootPath.
Proof. reflexivity. Qed.
Example parse_empty : SdfPath_of_string "" = EmptyPath.
Proof. reflexivity. Qed.
Example parse_rel : SdfPath_of_string "A/B" = MkPath false ["B"; "A"] None.
Proof. reflexivity. Qed.
Example parse_dotdot : SdfPath_of_string "../A" = MkPath false ["A"; ".."] None.
Proof. reflexivity. Qed.
Example parse_bad1 : SdfPath_of_string "/A//B" = EmptyPath.
Proof. reflexivity. Qed.
Example parse_bad2 : SdfPath_of_string "/A/B/" = EmptyPath.
Proof. reflexivity. Qed.
Example parse_bad3 : SdfPath_of_string "/1A" = EmptyPath.
Proof. reflexivity. Qed.
Example parse_bad4 : SdfPath_of_string "/A/../B" = EmptyPath.
Proof. reflexivity. Qed.
Example parse_relprop : SdfPath_of_string ".temp" = MkPath false [] (Some "temp").
Proof. reflexivity. Qed.
Example parse_ns : SdfPath_of_string "/A.primvars:temp" = MkPath true ["A"] (Some "primvars:temp").
Proof. reflexivity. Qed.

(** ** The key orders *)

Lemma String_compare_eq_iff (a b : string) : String.compare a b = Eq <-> a = b.
Proof.
  split.
  - apply String.compare_eq_iff.
  - intros ->. induction b as [|c b IH]; simpl; trivial.
    unfold Ascii.compare. now rewrite N.compare_refl.
Qed.

Lemma Nat_compare_eq_iff (a b : nat) : Nat.compare a b = Eq <-> a = b.
Proof. apply Nat.compare_eq_iff. Qed.

Lemma option_compare_eq_iff (o1 o2 : option string) :
  option_compare String.compare o1 o2 = Eq <-> o1 = o2.
Proof.
  destruct o1 as [a|], o2 as [b|]; simpl; split; intros H;
    try discriminate; try reflexivity.
  - apply String_compare_eq_iff in H. now subst.
  - injection H as ->. now apply String_compare_eq_iff.
Qed.

Lemma SdfPath_compare_eq_iff (p q : SdfPath) : SdfPath_compare p q = Eq <-> p = q.
Proof.
  destruct p as [|a1 l1 o1], q as [|a2 l2 o2]; simpl;
    try (split; [discriminate | intros H; discriminate H]);
    try (split; reflexivity).
  destruct (list_compare String.compare (rev l1) (rev l2)) eqn:Hl.
  - apply (list_compare_refl _ String_compare_eq_iff) in Hl.
    assert (l1 = l2) as ->.
    { rewrite <- (rev_involutive l1), Hl. apply rev_involutive. }
    destruct a1, a2; try (split; [discriminate | intros H; discriminate H]);
      rewrite option_compare_eq_iff; split; intros H;
      try (now subst); try (now injection H).
  - assert (l1 <> l2) as Hne.
    { intros ->.
      assert (list_compare String.compare (rev l2) (rev l2) = Eq) as E
        by now apply (list_compare_refl _ String_compare_eq_iff).
      congruence. }
    destruct a1, a2; split; try discriminate; intros H; injection H; intros;
      contradiction.
  - assert (l1 <> l2) as Hne.
    { intros ->.
      assert (list_compare String.compare (rev l2) (rev l2) = Eq) as E
        by now apply (list_compare_refl _ String_compare_eq_iff).
      congruence. }
    destruct a1, a2; split; try discriminate; intros H; injection H; intros;
      contradiction.
Qed.

Lemma SdfPath_eqb_eq (p q : SdfPath) : SdfPath_eqb p q = true <-> p = q.
Proof.
  unfold SdfPath_eqb. rewrite <- SdfPath_compare_eq_iff.
  destruct (SdfPath_compare p q); split; intros H; try reflexivity; discriminate.
Qed.

Lemma SdfPath_eqb_neq (p q : SdfPath) : SdfPath_eqb p q = false <-> p <> q.
Proof.
  rewrite <- SdfPath_eqb_eq. destruct (SdfPath_eqb p q); split; intros H;
    try reflexivity; try discriminate; try (intros H'; discriminate H').
  now contradiction H.
Qed.

Lemma SdfPath_eqb_refl (p : SdfPath) : SdfPath_eqb p p = true.
Proof. now apply SdfPath_eqb_eq. Qed.

Lemma SdfPath_eq_dec (p q : SdfPath) : {p = q} + {p <> q}.
Proof.
  destruct (SdfPath_eqb p q) eqn:E.
  - left. now apply SdfPath_eqb_eq.
  - right. now apply SdfPath_eqb_neq.
Qed.

Lemma TfToken_eqb_eq (a b : TfToken) : TfToken_eqb a b = true <-> a = b.
Proof. apply String.eqb_eq. Qed.

(** ** The ordered containers *)

Section StdMapFacts.
Variables K V : Type.
Variable cmp : K -> K -> comparison.
Hypothesis cmp_eq : forall a b, cmp a b = Eq <-> a = b.

Lemma cmp_refl (a : K) : cmp a a = Eq.
Proof. now apply cmp_eq. Qed.

Lemma map_find_assign_same (k : K) (v : V) (m : std_map K V) :
  map_find cmp k (map_assign cmp k v m) = Some v.
Proof.
  induction m as [|[k' v'] m IH]; simpl.
  - now rewrite cmp_refl.
  - destruct (cmp k k') eqn:E; simpl.
    + now rewrite E.
    + now rewrite cmp_refl.
    + now rewrite E.
Qed.

Lemma map_find_assign_other (k k' : K) (v : V) (m : std_map K V) :
  k <> k' -> map_find cmp k' (map_assign cmp k v m) = map_find cmp k' m.
Proof.
  intros Hne. induction m as [|[k1 v1] m IH]; simpl.
  - destruct (cmp k' k) eqn:E; trivial.
    apply cmp_eq in E. now subst.
  - destruct (cmp k k1) eqn:E; simpl.
    + apply cmp_eq in E. subst k1.
      destruct (cmp k' k) eqn:E'; trivial.
      apply cmp_eq in E'. now subst.
    + destruct (cmp k' k) eqn:E'; trivial.
      apply cmp_eq in E'. now subst.
    + now rewrite IH.
Qed.

Lemma map_find_assign (k k' : K) (v : V) (m : std_map K V) :
  map_find cmp k' (map_assign cmp k v m) =
  match cmp k' k with Eq => Some v | _ => map_find cmp k' m end.
Proof.
  destruct (cmp k' k) eqn:E.
  - apply cmp_eq in E. subst. apply map_find_assign_same.
  - apply map_find_assign_other. intros ->. now rewrite cmp_refl in E.
  - apply map_find_assign_other. intros ->. now rewrite cmp_refl in E.
Qed.

Lemma map_find_In (k : K) (v : V) (m : std_map K V) :
  map_find cmp k m = Some v -> In (k, v) m.
Proof.
  induction m as [|[k' v'] m IH]; simpl; [discriminate|].
  destruct (cmp k k') eqn:E; intros H; auto.
  apply cmp_eq in E. subst. injection H as ->. now left.
Qed.

Lemma map_count_keys (k : K) (m : std_map K V) :
  map_count cmp k m = true <-> In k (map_keys m).
Proof.
  unfold map_count, map_keys.
  induction m as [|[k' v'] m IH]; simpl.
  - split; [discriminate | tauto].
  - destruct (cmp k k') eqn:E.
    + apply cmp_eq in E. subst. split; auto.
    + rewrite IH. split; auto. intros [->|H]; trivial.
      now rewrite cmp_refl in E.
    + rewrite IH. split; auto. intros [->|H]; trivial.
      now rewrite cmp_refl in E.
Qed.

Lemma map_subscript_find (dflt : V) (k k' : K) (m : std_map K V) :
  map_find cmp k' (snd (map_subscript cmp dflt k m)) =
  match map_find cmp k' m with
  | Some v => Some v
  | None => match cmp k' k with Eq => Some dflt | _ => None end
  end.
Proof.
  unfold map_subscript. destruct (map_find cmp k m) eqn:F; simpl.
  - destruct (map_find cmp k' m) eqn:F'; trivial.
    destruct (cmp k' k) eqn:E; trivial.
    apply cmp_eq in E. subst. congruence.
  - rewrite map_find_assign.
    destruct (cmp k' k) eqn:E.
    + apply cmp_eq in E. subst. now rewrite F.
    + now destruct (map_find cmp k' m).
    + now destruct (map_find cmp k' m).
Qed.

Lemma map_subscript_value (dflt : V) (k : K) (m : std_map K V) :
  fst (map_subscript cmp dflt k m) =
  match map_find cmp k m with Some v => v | None => dflt end.
Proof. unfold map_subscript. now destruct (map_find cmp k m). Qed.
End StdMapFacts.

Section StdSetFacts.
Variable K : Type.
Variable cmp : K -> K -> comparison.
Hypothesis cmp_eq : forall a b, cmp a b = Eq <-> a = b.

Lemma set_count_insert (k k' : K) (s : std_set K) :
  set_count cmp k' (set_insert cmp k s) = true <->
  k' = k \/ set_count cmp k' s = true.
Proof.
  unfold set_count, set_insert, map_count.
  destruct (map_find cmp k s) eqn:F.
  - split; auto. intros [->|H]; trivial. now rewrite F.
  - rewrite (map_find_assign cmp cmp_eq).
    destruct (cmp k' k) eqn:E.
    + apply cmp_eq in E. split; auto.
    + split; auto. intros [->|H]; trivial. now rewrite (cmp_refl cmp cmp_eq) in E.
    + split; auto. intros [->|H]; trivial. now rewrite (cmp_refl cmp cmp_eq) in E.
Qed.

End StdSetFacts.

(** ** Existence and kind of a path *)

Lemma has_property_In (st : ParquetLayerData) (f : TfToken) :
  has_property st f = true <-> InFieldCatalog st f.
Proof.
  unfold has_property, InFieldCatalog. rewrite existsb_exists. split.
  - intros [x [Hin Heq]]. apply TfToken_eqb_eq in Heq. now subst.
  - intros Hin. exists f. split; trivial. now apply TfToken_eqb_eq.
Qed.


(** C1 (as amended).  [HasSpec] returns true exactly when the path is the
    absolute root, or is not a property path and is a member of All-Nodes,
    or is a property path whose prim path is in the path index and whose
    name is in the property-name list; it returns false for every other
    path. *)
Theorem HasSpec_characterisation (st : ParquetLayerData) (path : SdfPath) :
  HasSpec st path = true <->
  path = AbsoluteRootPath
  \/ (IsPropertyPath path = false /\ InAllNodes st path)
  \/ ValidFieldPath st path.
Proof.
  unfold HasSpec, ValidFieldPath, InAllNodes, Indexed.
  destruct (SdfPath_eqb path AbsoluteRootPath) eqn:Eroot.
  - apply SdfPath_eqb_eq in Eroot. tauto.
  - apply SdfPath_eqb_neq in Eroot.
    destruct (IsPropertyPath path) eqn:Eprop.
    + destruct (map_count SdfPath_compare (GetPrimPath path) (_pathIndex st)) eqn:Eidx.
      * rewrite has_property_In. split; [tauto|].
        intros [H|[[H _]|[_ [_ H]]]]; try contradiction; try discriminate; trivial.
      * split; [discriminate|].
        intros [H|[[H _]|[_ [H _]]]]; try contradiction; discriminate.
    + split; [tauto|].
      intros [H|[[_ H]|[H _]]]; try contradiction; try discriminate; trivial.
Qed.

(** C10 (as amended).  [HasSpec] and [GetSpecType] agree on every path:
    [HasSpec] is true exactly when the spec type is not Unknown.  The
    spec type is PseudoRoot exactly for the root, Attribute exactly for
    the valid field paths, and Prim exactly for the members of All-Nodes
    that are neither the root nor property paths; a property path in
    All-Nodes that is no valid field path has the spec type Unknown. *)
Theorem HasSpec_agrees_with_GetSpecType (st : ParquetLayerData) (path : SdfPath) :
  (HasSpec st path = true <-> GetSpecType st path <> SdfSpecTypeUnknown)
  /\ (GetSpecType st path = SdfSpecTypePseudoRoot <-> path = AbsoluteRootPath)
  /\ (GetSpecType st path = SdfSpecTypeAttribute <-> ValidFieldPath st path)
  /\ (GetSpecType st path = SdfSpecTypePrim <->
      path <> AbsoluteRootPath /\ IsPropertyPath path = false /\ InAllNodes st path).
Proof.
  unfold HasSpec, GetSpecType, ValidFieldPath, InAllNodes, Indexed.
  destruct (SdfPath_eqb path AbsoluteRootPath) eqn:Eroot.
  - apply SdfPath_eqb_eq in Eroot. subst path. simpl.
    repeat split; intros; try discriminate; try congruence; try tauto.
    + destruct H as [H _]. discriminate.
  - apply SdfPath_eqb_neq in Eroot.
    destruct (IsPropertyPath path) eqn:Eprop.
    + destruct (map_count SdfPath_compare (GetPrimPath path) (_pathIndex st)) eqn:Eidx;
        simpl.
      * destruct (has_property st (GetNameToken path)) eqn:Ehas.
        -- apply has_property_In in Ehas.
           repeat split; intros; try discriminate; try congruence; try tauto.
           destruct H as [_ [H _]]. discriminate.
        -- assert (~ InFieldCatalog st (GetNameToken path)) as Hno.
           { intros H. apply has_property_In in H. congruence. }
           repeat split; intros; try discriminate; try congruence; try tauto.
           destruct H as [_ [H _]]. discriminate.
      * repeat split; intros; try discriminate; try congruence; try tauto.
        -- destruct H as [_ [H _]]. discriminate.
        -- destruct H as [_ [H _]]. discriminate.
    + destruct (set_count SdfPath_compare path (_allPaths st)) eqn:Eall.
      * repeat split; intros; try discriminate; try congruence; try tauto.
        destruct H as [H _]. discriminate.
      * repeat split; intros; try discriminate; try congruence; try tauto.
        -- destruct H as [H _]. discriminate.
        -- destruct H as [_ [_ H]]. discriminate.
Qed.

(** ** The mutators *)

Lemma call_is_noop (m : Mutation) (st : ParquetLayerData) :
  call m st = Returns tt st.
Proof. destruct m; reflexivity. Qed.

Lemma run_mutations_is_noop (ms : list Mutation) (st : ParquetLayerData) :
  run_mutations ms st = Returns tt st.
Proof.
  unfold run_mutations. induction ms as [|m ms IH]; simpl; trivial.
  unfold bind. now rewrite call_is_noop.
Qed.

(** C7.  Every sequence of mutator calls ([CreateSpec], both [Set]
    overloads, [Erase], [EraseSpec], [MoveSpec], [SetTimeSample],
    [EraseTimeSample]) returns and leaves the object state as it was, so
    [HasSpec], [Has], [Get], [List] and [GetSpecType] answer afterwards
    as they did before, for every path and field. *)
Theorem mutations_change_nothing (ms : list Mutation) (st : ParquetLayerData) :
  exists st',
    run_mutations ms st = Returns tt st'
    /\ st' = st
    /\ (forall path, HasSpec st' path = HasSpec st path)
    /\ (forall path, GetSpecType st' path = GetSpecType st path)
    /\ (forall path, List_ st' path = List_ st path)
    /\ (forall path field value, Has path field value st' = Has path field value st)
    /\ (forall path field value,
          Has_abstract path field value st' = Has_abstract path field value st)
    /\ (forall path field, Get path field st' = Get path field st).
Proof.
  exists st. split; [apply run_mutations_is_noop|].
  repeat split; reflexivity.
Qed.

(** ** [Open]: the path column and the Field Catalog *)

Lemma scan_columns_path (names : list string) (i : nat) (pc : option nat)
    (props : list TfToken) :
  fst (scan_columns names i pc props) = None <-> pc = None /\ ~ In "path" names.
Proof.
  revert i pc props. induction names as [|name names IH]; intros i pc props; simpl.
  - tauto.
  - destruct (String.eqb name "path") eqn:E.
    + apply String.eqb_eq in E. subst name. rewrite IH.
      split; [intros [H _]; discriminate | intros [_ H]; exfalso; auto].
    + apply String.eqb_neq in E. rewrite IH. split.
      * intros [-> H]. split; trivial. intros [H'|H']; auto.
      * intros [-> H]. split; auto.
Qed.

Lemma path_column_None (f : ParquetFile) :
  path_column f = None <-> ~ In "path" (schema f).
Proof. unfold path_column. rewrite scan_columns_path. tauto. Qed.

Lemma scan_columns_props (names : list string) (i : nat) (pc : option nat)
    (props : list TfToken) :
  snd (scan_columns names i pc props) =
  props ++ filter (fun n => negb (String.eqb n "path")) names.
Proof.
  revert i pc props. induction names as [|name names IH]; intros i pc props; simpl.
  - now rewrite app_nil_r.
  - destruct (String.eqb name "path"); simpl.
    + apply IH.
    + rewrite IH, <- app_assoc. reflexivity.
Qed.

Lemma field_catalog_spec (f : ParquetFile) (name : TfToken) :
  In name (field_catalog f) <-> In name (schema f) /\ name <> "path".
Proof.
  unfold field_catalog. rewrite scan_columns_props. simpl.
  rewrite filter_In, negb_true_iff, String.eqb_neq. tauto.
Qed.

(** ** [Open]: the index built by the scan *)

Lemma last_location_app (p : SdfPath) (r1 r2 : list (string * ParquetLocation)) :
  last_location p (r1 ++ r2) =
  match last_location p r2 with
  | Some l => Some l
  | None => last_location p r1
  end.
Proof.
  induction r1 as [|[s loc] r1 IH]; simpl.
  - now destruct (last_location p r2).
  - rewrite IH. now destruct (last_location p r2).
Qed.

Lemma index_rows_find (p : SdfPath) (rg : nat) (values : list string) :
  forall (i : nat) (idx : PathMap ParquetLocation),
    map_find SdfPath_compare p (index_rows rg i values idx) =
    match last_location p (number_rows rg i values) with
    | Some l => Some l
    | None => map_find SdfPath_compare p idx
    end.
Proof.
  induction values as [|s values IH]; intros i idx; simpl; trivial.
  rewrite IH.
  destruct (last_location p (number_rows rg (S i) values)); trivial.
  destruct (IsAbsolutePath (SdfPath_of_string s)); simpl; trivial.
  rewrite (map_find_assign _ SdfPath_compare_eq_iff).
  unfold SdfPath_eqb.
  destruct (SdfPath_compare (SdfPath_of_string s) p) eqn:E.
  - apply SdfPath_compare_eq_iff in E. subst p.
    now rewrite (cmp_refl _ SdfPath_compare_eq_iff).
  - destruct (SdfPath_compare p (SdfPath_of_string s)) eqn:E'; trivial.
    apply SdfPath_compare_eq_iff in E'. subst p.
    now rewrite (cmp_refl _ SdfPath_compare_eq_iff) in E.
  - destruct (SdfPath_compare p (SdfPath_of_string s)) eqn:E'; trivial.
    apply SdfPath_compare_eq_iff in E'. subst p.
    now rewrite (cmp_refl _ SdfPath_compare_eq_iff) in E.
Qed.

Lemma index_groups_find (p : SdfPath) (pc : nat) (groups : list RowGroup) :
  forall (rg : nat) (idx : PathMap ParquetLocation),
    scan_outcome pc groups = ScanCompletes ->
    map_find SdfPath_compare p (index_groups pc rg groups idx) =
    match last_location p (path_rows pc rg groups) with
    | Some l => Some l
    | None => map_find SdfPath_compare p idx
    end.
Proof.
  induction groups as [|g groups IH]; intros rg idx Hscan; simpl in *; trivial.
  destruct (read_path_chunk pc g) as [vals| |]; try discriminate.
  rewrite IH by assumption. rewrite last_location_app.
  destruct (last_location p (path_rows pc (S rg) groups)); trivial.
  apply index_rows_find.
Qed.

(** ** [Open]: the scan loop *)

Lemma open_file_reader (st : ParquetLayerData) (f : ParquetFile) :
  open_file st = Some f ->
  exists log, _reader st = Some {| reader_file := f; batch_reads := log |}.
Proof.
  unfold open_file. destruct (_reader st) as [[f' log]|]; simpl; [|discriminate].
  intros H. injection H as ->. now exists log.
Qed.

Lemma index_row_group_step (st : ParquetLayerData) (f : ParquetFile)
    (pc rg : nat) (g : RowGroup) :
  open_file st = Some f ->
  nth_error (row_groups f) rg = Some g ->
  match read_path_chunk pc g with
  | PathValues vals =>
      exists st',
        index_row_group pc rg st = Returns tt st'
        /\ _pathIndex st' = index_rows rg 0 vals (_pathIndex st)
        /\ _propertyNames st' = _propertyNames st
        /\ _blockCache st' = _blockCache st
        /\ open_file st' = Some f
  | PathRaises => exists s, index_row_group pc rg st = Throws s
  | PathUndefined => index_row_group pc rg st = Undefined
  end.
Proof.
  intros Hf Hg. destruct (open_file_reader st Hf) as [log Hrd].
  destruct st as [idx all cm props cache rdo]. simpl in Hrd. subst rdo.
  unfold read_path_chunk, index_row_group, reader_RowGroup, RowGroup_Column,
    static_pointer_cast, ReadBatch, log_read, the_reader, bind, get_state, modify,
    ret, throw, undefined.
  simpl. rewrite Hg.
  destruct (nth_error (columns g) pc) as [chunk|]; [|eauto].
  destruct chunk as [v|v|v|v|v|v|v|v|t]; try destruct t; simpl; eauto.
  eexists. split; [reflexivity|]. simpl. repeat split; trivial.
Qed.

Lemma index_loop (f : ParquetFile) (pc : nat) (rest : list RowGroup) :
  forall (pre : list RowGroup) (st : ParquetLayerData),
    row_groups f = pre ++ rest ->
    open_file st = Some f ->
    match scan_outcome pc rest with
    | ScanCompletes =>
        exists st',
          for_each (seq (List.length pre) (List.length rest)) (index_row_group pc) st
          = Returns tt st'
          /\ _pathIndex st' = index_groups pc (List.length pre) rest (_pathIndex st)
          /\ _propertyNames st' = _propertyNames st
          /\ _blockCache st' = _blockCache st
          /\ open_file st' = Some f
    | ScanRaises =>
        exists s,
          for_each (seq (List.length pre) (List.length rest)) (index_row_group pc) st
          = Throws s
    | ScanUndefined =>
        for_each (seq (List.length pre) (List.length rest)) (index_row_group pc) st
        = Undefined
    end.
Proof.
  induction rest as [|g rest IH]; intros pre st Hsplit Hf; simpl.
  - exists st. repeat split; trivial.
  - assert (nth_error (row_groups f) (List.length pre) = Some g) as Hg.
    { rewrite Hsplit, nth_error_app2, Nat.sub_diag by lia. reflexivity. }
    pose proof (@index_row_group_step st f pc _ g Hf Hg) as Hstep.
    destruct (read_path_chunk pc g) as [vals| |].
    + destruct Hstep as [st1 [Hrun [Hidx [Hprops [Hcache Hf1]]]]].
      specialize (IH (pre ++ [g]) st1).
      rewrite <- app_assoc in IH. simpl in IH.
      specialize (IH Hsplit Hf1).
      rewrite length_app in IH. simpl in IH.
      replace (List.length pre + 1) with (S (List.length pre)) in IH by lia.
      destruct (scan_outcome pc rest).
      * destruct IH as [st' [Hrun' [Hidx' [Hprops' [Hcache' Hf']]]]].
        exists st'. unfold bind. rewrite Hrun.
        split; [exact Hrun'|]. repeat split; congruence.
      * destruct IH as [s Hrun']. exists s. unfold bind. rewrite Hrun. exact Hrun'.
      * unfold bind. rewrite Hrun. exact IH.
    + destruct Hstep as [s Hrun]. exists s. unfold bind. now rewrite Hrun.
    + unfold bind. now rewrite Hstep.
Qed.

(** ** The key orders are strict total orders *)

Lemma Ascii_compare_eq_iff (a b : ascii) : Ascii.compare a b = Eq <-> a = b.
Proof.
  split; [apply Ascii.compare_eq_iff|].
  intros ->. unfold Ascii.compare. apply N.compare_refl.
Qed.

Lemma Ascii_compare_trans (a b c : ascii) (r : comparison) :
  Ascii.compare a b = r -> Ascii.compare b c = r -> Ascii.compare a c = r.
Proof.
  unfold Ascii.compare. destruct r.
  - rewrite !N.compare_eq_iff. congruence.
  - rewrite !N.compare_lt_iff. apply N.lt_trans.
  - rewrite !N.compare_gt_iff. intros H1 H2. eapply N.lt_trans; eassumption.
Qed.

Lemma String_compare_as_list (s t : string) :
  String.compare s t =
  list_compare Ascii.compare (list_ascii_of_string s) (list_ascii_of_string t).
Proof.
  revert t. induction s as [|a s IH]; intros [|b t]; simpl; trivial.
  rewrite IH. reflexivity.
Qed.

Lemma String_compare_trans (x y z : string) (c : comparison) :
  String.compare x y = c -> String.compare y z = c -> String.compare x z = c.
Proof.
  rewrite !String_compare_as_list.
  apply (list_compare_trans _ Ascii_compare_eq_iff).
  - intros a b d r. apply Ascii_compare_trans.
  - intros a b. apply Ascii.compare_antisym.
Qed.

Lemma String_compare_antisym (x y : string) :
  String.compare y x = CompOpp (String.compare x y).
Proof. apply String.compare_antisym. Qed.

Lemma option_compare_trans (x y z : option string) (c : comparison) :
  option_compare String.compare x y = c ->
  option_compare String.compare y z = c ->
  option_compare String.compare x z = c.
Proof.
  destruct x, y, z; simpl; try congruence.
  apply String_compare_trans.
Qed.

Lemma option_compare_antisym (x y : option string) :
  option_compare String.compare y x = CompOpp (option_compare String.compare x y).
Proof. destruct x, y; simpl; trivial. apply String_compare_antisym. Qed.

Lemma lex_trans (x12 x23 x13 y12 y23 y13 c : comparison) :
  (x12 = Eq -> x13 = x23) ->
  (x23 = Eq -> x13 = x12) ->
  (x12 = x23 -> x13 = x12) ->
  (forall r, y12 = r -> y23 = r -> y13 = r) ->
  match x12 with Eq => y12 | Lt => Lt | Gt => Gt end = c ->
  match x23 with Eq => y23 | Lt => Lt | Gt => Gt end = c ->
  match x13 with Eq => y13 | Lt => Lt | Gt => Gt end = c.
Proof.
  intros H1 H2 H3 Hy.
  destruct x12, x23; intros E1 E2;
    try (rewrite (H1 eq_refl)); try (rewrite (H2 eq_refl));
    try (rewrite (H3 eq_refl)); try congruence.
  now apply Hy.
Qed.

Lemma SdfPath_compare_trans (p q r : SdfPath) (c : comparison) :
  SdfPath_compare p q = c -> SdfPath_compare q r = c -> SdfPath_compare p r = c.
Proof.
  destruct p as [|a1 l1 o1], q as [|a2 l2 o2], r as [|a3 l3 o3]; simpl;
    try congruence.
  assert (forall l l' : list TfToken,
             list_compare String.compare (rev l) (rev l') = Eq -> rev l = rev l') as Heq
    by (intros l l'; apply (list_compare_refl _ String_compare_eq_iff)).
  assert (forall (x y z : list TfToken) d,
             list_compare String.compare (rev x) (rev y) = d ->
             list_compare String.compare (rev y) (rev z) = d ->
             list_compare String.compare (rev x) (rev z) = d) as Htr.
  { intros x y z d. apply (list_compare_trans _ String_compare_eq_iff).
    - intros; eapply String_compare_trans; eassumption.
    - apply String_compare_antisym. }
  destruct a1, a2, a3; simpl; intros E1 E2; try congruence;
    revert E1 E2;
    (apply (@lex_trans
              (list_compare String.compare (rev l1) (rev l2))
              (list_compare String.compare (rev l2) (rev l3))
              (list_compare String.compare (rev l1) (rev l3))
              (option_compare String.compare o1 o2)
              (option_compare String.compare o2 o3)
              (option_compare String.compare o1 o3) c);
     [ intros E; apply Heq in E; now rewrite E
     | intros E; apply Heq in E; now rewrite E
     | intros E; eapply Htr; [reflexivity | now rewrite E]
     | intros d; apply option_compare_trans ]).
Qed.

Lemma SdfPath_compare_antisym (p q : SdfPath) :
  SdfPath_compare q p = CompOpp (SdfPath_compare p q).
Proof.
  destruct p as [|a1 l1 o1], q as [|a2 l2 o2]; simpl; trivial.
  rewrite (list_compare_antisym _ String_compare_eq_iff (rev l1) (rev l2)
             String_compare_antisym).
  rewrite (option_compare_antisym o1 o2).
  destruct a1, a2; simpl; trivial;
    destruct (list_compare String.compare (rev l1) (rev l2)); simpl; trivial.
Qed.

(** Ascending key order. *)
Section StdMapOrder.
Variables K V : Type.
Variable cmp : K -> K -> comparison.
Hypothesis cmp_eq : forall a b, cmp a b = Eq <-> a = b.
Hypothesis cmp_antisym : forall a b, cmp b a = CompOpp (cmp a b).
Hypothesis cmp_trans : forall a b c r, cmp a b = r -> cmp b c = r -> cmp a c = r.

Lemma map_assign_keys (k k' : K) (v : V) (m : std_map K V) :
  In k' (map_keys (map_assign cmp k v m)) <-> k' = k \/ In k' (map_keys m).
Proof.
  unfold map_keys. induction m as [|[k1 v1] m IH]; simpl.
  - split; intros [H|H]; auto.
  - destruct (cmp k k1) eqn:E; simpl.
    + apply cmp_eq in E. subst k1. split.
      * intros [H|H]; auto.
      * intros [H|[H|H]]; auto.
    + split.
      * intros [H|[H|H]]; auto.
      * intros [H|[H|H]]; auto.
    + rewrite IH. split.
      * intros [H|[H|H]]; auto.
      * intros [H|[H|H]]; auto.
Qed.

Lemma map_assign_sorted (k : K) (v : V) (m : std_map K V) :
  StronglySorted (fun a b => cmp a b = Lt) (map_keys m) ->
  StronglySorted (fun a b => cmp a b = Lt) (map_keys (map_assign cmp k v m)).
Proof.
  induction m as [|[k1 v1] m IH]; simpl; intros Hs.
  - repeat constructor.
  - apply StronglySorted_inv in Hs. destruct Hs as [Hs Hall].
    destruct (cmp k k1) eqn:E; simpl.
    + constructor; assumption.
    + constructor; [constructor; assumption|].
      constructor; trivial.
      rewrite Forall_forall in *. intros x Hx.
      eapply cmp_trans; [exact E|]. now apply Hall.
    + constructor; [now apply IH|].
      rewrite Forall_forall in *. intros x Hx.
      apply map_assign_keys in Hx. destruct Hx as [->|Hx].
      * rewrite cmp_antisym, E. reflexivity.
      * now apply Hall.
Qed.
End StdMapOrder.

(** ** [_BuildPathHierarchy]: the walk to the root *)

Lemma absolute_parent (p : SdfPath) :
  IsAbsolutePath p = true -> p <> AbsoluteRootPath ->
  IsAbsolutePath (GetParentPath p) = true
  /\ GetPathElementCount p = S (GetPathElementCount (GetParentPath p)).
Proof.
  destruct p as [|[] [|x rest] [prop|]]; simpl; try discriminate; intros _ Hne;
    try (split; reflexivity).
  now contradiction Hne.
Qed.

(** From an absolute path the root is reached within as many iterations
    as the path has elements. *)
Lemma walk_up_returns (n : nat) :
  forall (cur : SdfPath) (allPaths : PathSet) (cm : PathMap (list TfToken)),
    IsAbsolutePath cur = true ->
    GetPathElementCount cur <= n ->
    exists r, walk_up n cur allPaths cm = Some r.
Proof.
  induction n as [|n IH]; intros cur allPaths cm Habs Hcount; simpl.
  - destruct (SdfPath_eqb cur AbsoluteRootPath) eqn:E; [eauto|].
    apply SdfPath_eqb_neq in E.
    destruct (absolute_parent Habs E) as [_ H]. lia.
  - destruct (SdfPath_eqb cur AbsoluteRootPath) eqn:E; [eauto|].
    apply SdfPath_eqb_neq in E.
    destruct (absolute_parent Habs E) as [Habs' H].
    apply IH; trivial. lia.
Qed.

(** More iterations than needed change nothing. *)
Lemma walk_up_more_fuel (n : nat) :
  forall (m : nat) (cur : SdfPath) (allPaths : PathSet) (cm : PathMap (list TfToken)) r,
    walk_up n cur allPaths cm = Some r -> n <= m ->
    walk_up m cur allPaths cm = Some r.
Proof.
  induction n as [|n IH]; intros m cur allPaths cm r; simpl.
  - destruct (SdfPath_eqb cur AbsoluteRootPath) eqn:E; [|discriminate].
    intros H _. destruct m; simpl; now rewrite E.
  - destruct (SdfPath_eqb cur AbsoluteRootPath) eqn:E.
    + intros H _. destruct m; simpl; now rewrite E.
    + intros H Hle. destruct m as [|m]; [lia|]. simpl. rewrite E.
      apply IH; trivial. lia.
Qed.

Lemma StrictAncestor_root (q : SdfPath) : ~ StrictAncestor q AbsoluteRootPath.
Proof. intros H. inversion H; subst; congruence. Qed.

Lemma StrictAncestor_inv (q cur : SdfPath) :
  cur <> AbsoluteRootPath ->
  (StrictAncestor q cur <->
   q = GetParentPath cur \/ StrictAncestor q (GetParentPath cur)).
Proof.
  intros Hne. split.
  - intros H. inversion H; subst; auto.
  - intros [->|H]; [now apply ancestor_parent | now apply ancestor_step].
Qed.

Lemma StrictAncestor_trans (a p k : SdfPath) :
  StrictAncestor a p -> StrictAncestor p k -> StrictAncestor a k.
Proof.
  intros Hap Hpk. induction Hpk as [k Hne|p k Hne Hpk IH].
  - now apply ancestor_step.
  - apply ancestor_step; auto.
Qed.

Lemma find_register_child (q parent : SdfPath) (name : TfToken)
    (cm : PathMap (list TfToken)) :
  map_find SdfPath_compare q (register_child parent name cm) =
  apply_registration q (map_find SdfPath_compare q cm) (parent, name).
Proof.
  unfold register_child, apply_registration, push_child. simpl.
  pose proof (map_subscript_find _ SdfPath_compare_eq_iff [] parent q cm) as Hfind.
  pose proof (map_subscript_value SdfPath_compare [] parent cm) as Hval.
  destruct (map_subscript SdfPath_compare [] parent cm) as [children cm1].
  simpl in Hfind, Hval. subst children.
  unfold SdfPath_eqb.
  destruct (SdfPath_compare q parent) eqn:E.
  - apply SdfPath_compare_eq_iff in E. subst q.
    destruct (existsb (TfToken_eqb name)
                (match map_find SdfPath_compare parent cm with
                 | Some v => v | None => [] end)) eqn:Ex.
    + rewrite Hfind. destruct (map_find SdfPath_compare parent cm); trivial.
    + apply (map_find_assign_same _ SdfPath_compare_eq_iff).
  - assert (parent <> q) as Hne.
    { intros ->. now rewrite (cmp_refl _ SdfPath_compare_eq_iff) in E. }
    destruct (existsb _ _).
    + rewrite Hfind. now destruct (map_find SdfPath_compare q cm).
    + rewrite (map_find_assign_other _ SdfPath_compare_eq_iff) by assumption.
      rewrite Hfind. now destruct (map_find SdfPath_compare q cm).
  - assert (parent <> q) as Hne.
    { intros ->. now rewrite (cmp_refl _ SdfPath_compare_eq_iff) in E. }
    destruct (existsb _ _).
    + rewrite Hfind. now destruct (map_find SdfPath_compare q cm).
    + rewrite (map_find_assign_other _ SdfPath_compare_eq_iff) by assumption.
      rewrite Hfind. now destruct (map_find SdfPath_compare q cm).
Qed.

Lemma walk_up_spec (n : nat) :
  forall (cur : SdfPath) (allPaths : PathSet) (cm : PathMap (list TfToken))
         (allPaths' : PathSet) (cm' : PathMap (list TfToken)),
    walk_up n cur allPaths cm = Some (allPaths', cm') ->
    (forall q, set_count SdfPath_compare q allPaths' = true <->
               set_count SdfPath_compare q allPaths = true
               \/ (StrictAncestor q cur /\ q <> AbsoluteRootPath))
    /\ (forall q, map_find SdfPath_compare q cm' =
                  fold_left (apply_registration q) (registrations n cur)
                    (map_find SdfPath_compare q cm)).
Proof.
  induction n as [|n IH]; intros cur allPaths cm allPaths' cm'; simpl.
  - destruct (SdfPath_eqb cur AbsoluteRootPath) eqn:E; [|discriminate].
    apply SdfPath_eqb_eq in E. subst cur. intros H. injection H as <- <-.
    split; [|reflexivity].
    intros q. split; auto. intros [H|[H _]]; trivial.
    now apply StrictAncestor_root in H.
  - destruct (SdfPath_eqb cur AbsoluteRootPath) eqn:E.
    + apply SdfPath_eqb_eq in E. subst cur. intros H. injection H as <- <-.
      split; [|reflexivity].
      intros q. split; auto. intros [H|[H _]]; trivial.
      now apply StrictAncestor_root in H.
    + apply SdfPath_eqb_neq in E. intros H.
      apply IH in H. destruct H as [Hall Hcm]. split.
      * intros q. rewrite Hall, (StrictAncestor_inv q E).
        destruct (SdfPath_eqb (GetParentPath cur) AbsoluteRootPath) eqn:Ep.
        -- apply SdfPath_eqb_eq in Ep. split.
           ++ intros [H|[H Hq]]; auto.
           ++ intros [H|[[H|H] Hq]]; auto. congruence.
        -- rewrite (set_count_insert _ SdfPath_compare_eq_iff).
           apply SdfPath_eqb_neq in Ep. split.
           ++ intros [[H|H]|[H Hq]]; auto. subst q. auto.
           ++ intros [H|[[H|H] Hq]]; auto.
      * intros q. rewrite Hcm. simpl. now rewrite find_register_child.
Qed.

(** ** [_BuildPathHierarchy]: the loop over the index *)

Lemma build_hierarchy_returns (entries : list (SdfPath * ParquetLocation)) :
  forall (allPaths : PathSet) (cm : PathMap (list TfToken)),
    Forall (fun k => IsAbsolutePath k = true) (map_keys entries) ->
    exists r, build_hierarchy entries allPaths cm = Some r.
Proof.
  induction entries as [|[path loc] entries IH]; intros allPaths cm Habs; simpl.
  - eauto.
  - simpl in Habs. apply Forall_cons_iff in Habs. destruct Habs as [Hp Habs].
    destruct (@walk_up_returns _ path (set_insert SdfPath_compare path allPaths) cm
                Hp (Nat.le_refl _)) as [[a c] Hw].
    rewrite Hw. now apply IH.
Qed.

Lemma build_hierarchy_spec (entries : list (SdfPath * ParquetLocation)) :
  forall (allPaths : PathSet) (cm : PathMap (list TfToken))
         (allPaths' : PathSet) (cm' : PathMap (list TfToken)),
    build_hierarchy entries allPaths cm = Some (allPaths', cm') ->
    (forall q, set_count SdfPath_compare q allPaths' = true <->
               set_count SdfPath_compare q allPaths = true
               \/ exists k, In k (map_keys entries)
                            /\ (q = k \/ (StrictAncestor q k /\ q <> AbsoluteRootPath)))
    /\ (forall q, map_find SdfPath_compare q cm' =
                  fold_left (apply_registration q)
                    (discovery_sequence (map_keys entries))
                    (map_find SdfPath_compare q cm)).
Proof.
  induction entries as [|[path loc] entries IH]; intros allPaths cm allPaths' cm';
    simpl.
  - intros H. injection H as <- <-. split; [|reflexivity].
    intros q. split; auto. intros [H|[k [[] _]]]. exact H.
  - destruct (walk_up (GetPathElementCount path) path
                (set_insert SdfPath_compare path allPaths) cm) as [[a c]|] eqn:Hw;
      [|discriminate].
    intros H. apply IH in H. destruct H as [Hall Hcm].
    apply walk_up_spec in Hw. destruct Hw as [Hall1 Hcm1]. split.
    + intros q. rewrite Hall, Hall1, (set_count_insert _ SdfPath_compare_eq_iff).
      split.
      * intros [[[H|H]|H]|[k [Hk H]]]; eauto.
        -- right. exists path. auto.
        -- right. exists path. auto.
      * intros [H|[k [[Hk|Hk] H]]]; eauto.
        subst k. destruct H as [H|H]; auto.
    + intros q. rewrite Hcm, Hcm1. unfold discovery_sequence. simpl.
      now rewrite fold_left_app.
Qed.

(** ** First-discovery order *)

Lemma filter_swap (A : Type) (f g : A -> bool) (l : list A) :
  filter f (filter g l) = filter g (filter f l).
Proof.
  induction l as [|x l IH]; simpl; trivial.
  destruct (g x) eqn:Eg, (f x) eqn:Ef; simpl; rewrite ?Eg, ?Ef, IH; reflexivity.
Qed.

Lemma filter_twice (A : Type) (f g : A -> bool) (l : list A) :
  filter f (filter g l) = filter (fun x => g x && f x) l.
Proof.
  induction l as [|x l IH]; simpl; trivial.
  destruct (g x) eqn:Eg; simpl; [destruct (f x)|]; now rewrite IH.
Qed.

Lemma keep_first_filter (f : TfToken -> bool) (names : list TfToken) :
  keep_first (filter f names) = filter f (keep_first names).
Proof.
  induction names as [|x names IH]; simpl; trivial.
  destruct (f x) eqn:Ef; simpl.
  - rewrite ?Ef, IH. f_equal. apply filter_swap.
  - rewrite ?Ef, IH. rewrite filter_twice.
    apply filter_ext_in. intros y _.
    destruct (TfToken_eqb y x) eqn:E; simpl; trivial.
    apply TfToken_eqb_eq in E. subst y. now rewrite Ef.
Qed.

Lemma fold_push_child (names : list TfToken) :
  forall acc : list TfToken,
    fold_left push_child names acc =
    acc ++ keep_first (filter (fun y => negb (existsb (TfToken_eqb y) acc)) names).
Proof.
  induction names as [|x names IH]; intros acc; simpl.
  - now rewrite app_nil_r.
  - unfold push_child at 2.
    destruct (existsb (TfToken_eqb x) acc) eqn:Ex; simpl.
    + apply IH.
    + rewrite IH, <- app_assoc. simpl. do 2 f_equal.
      rewrite <- keep_first_filter, filter_twice. f_equal.
      apply filter_ext. intros y.
      rewrite existsb_app. simpl. rewrite orb_false_r, negb_orb. reflexivity.
Qed.

Lemma fold_push_child_nil (names : list TfToken) :
  fold_left push_child names [] = keep_first names.
Proof.
  rewrite fold_push_child. simpl. f_equal.
  induction names as [|x names IH]; simpl; now rewrite ?IH.
Qed.

Lemma fold_apply_registration (q : SdfPath) (regs : list (SdfPath * TfToken)) :
  forall entry : option (list TfToken),
    fold_left (apply_registration q) regs entry =
    match names_under q regs with
    | [] => entry
    | names =>
        Some (fold_left push_child names
                (match entry with Some l => l | None => [] end))
    end.
Proof.
  unfold names_under.
  induction regs as [|[parent name] regs IH]; intros entry; simpl; trivial.
  unfold apply_registration at 2. simpl.
  destruct (SdfPath_eqb q parent); simpl.
  - rewrite IH. now destruct (map snd (filter _ regs)).
  - apply IH.
Qed.

(** ** The keys of the index *)

Lemma index_rows_keys (rg : nat) (values : list string) :
  forall (i : nat) (idx : PathMap ParquetLocation),
    Forall (fun k => IsAbsolutePath k = true) (map_keys idx) ->
    StronglySorted (fun a b => SdfPath_compare a b = Lt) (map_keys idx) ->
    Forall (fun k => IsAbsolutePath k = true) (map_keys (index_rows rg i values idx))
    /\ StronglySorted (fun a b => SdfPath_compare a b = Lt)
         (map_keys (index_rows rg i values idx)).
Proof.
  induction values as [|s values IH]; intros i idx Habs Hsorted; simpl; auto.
  destruct (IsAbsolutePath (SdfPath_of_string s)) eqn:E; [|now apply IH].
  apply IH.
  - rewrite Forall_forall in *. intros k Hk.
    apply (map_assign_keys _ SdfPath_compare_eq_iff) in Hk.
    destruct Hk as [->|Hk]; auto.
  - apply map_assign_sorted; trivial.
    + apply SdfPath_compare_eq_iff.
    + apply SdfPath_compare_antisym.
    + apply SdfPath_compare_trans.
Qed.

Lemma index_groups_keys (pc : nat) (groups : list RowGroup) :
  forall (rg : nat) (idx : PathMap ParquetLocation),
    Forall (fun k => IsAbsolutePath k = true) (map_keys idx) ->
    StronglySorted (fun a b => SdfPath_compare a b = Lt) (map_keys idx) ->
    Forall (fun k => IsAbsolutePath k = true) (map_keys (index_groups pc rg groups idx))
    /\ StronglySorted (fun a b => SdfPath_compare a b = Lt)
         (map_keys (index_groups pc rg groups idx)).
Proof.
  induction groups as [|g groups IH]; intros rg idx Habs Hsorted; simpl; auto.
  destruct (read_path_chunk pc g) as [vals| |]; auto.
  destruct (@index_rows_keys rg vals 0 idx Habs Hsorted) as [Habs' Hsorted'].
  now apply IH.
Qed.

(** ** [Open]: every outcome *)

Lemma Open_unfold (fs : FileSystem) (filePath : string) (f : ParquetFile) :
  fs filePath = Some f ->
  Open fs filePath ParquetLayerData_new =
  let st1 := with_propertyNames (field_catalog f)
               (with_reader (Some {| reader_file := f; batch_reads := [] |})
                  ParquetLayerData_new) in
  match path_column f with
  | None => Returns false st1
  | Some pc =>
      match for_each (seq 0 (List.length (row_groups f))) (index_row_group pc) st1 with
      | Returns _ st2 =>
          match build_hierarchy (_pathIndex st2) [] [] with
          | Some (a, c) => Returns true (with_hierarchy a c st2)
          | None => Diverges
          end
      | Throws s => Returns false s
      | Undefined => Undefined
      | Diverges => Diverges
      end
  end.
Proof.
  intros Hfs.
  unfold Open, _BuildPathHierarchy, try_catch, OpenFile. rewrite Hfs.
  unfold bind, ret, modify, get_state, put_state, diverge, path_column, field_catalog.
  cbn [reader_file].
  destruct (scan_columns (schema f) 0 None []) as [[pc|] props]; simpl; trivial.
  destruct (for_each _ _ _) as [[] st2|s| |]; trivial.
  destruct (build_hierarchy (_pathIndex st2) [] []) as [[a c]|]; trivial.
Qed.

Lemma Open_outcome (fs : FileSystem) (filePath : string) :
  match fs filePath with
  | None => Open fs filePath ParquetLayerData_new = Returns false ParquetLayerData_new
  | Some f =>
      match path_column f with
      | None => exists st, Open fs filePath ParquetLayerData_new = Returns false st
      | Some pc =>
          match scan_outcome pc (row_groups f) with
          | ScanCompletes =>
              exists st,
                Open fs filePath ParquetLayerData_new = Returns true st
                /\ Opened f pc st
          | ScanRaises =>
              exists st, Open fs filePath ParquetLayerData_new = Returns false st
          | ScanUndefined => Open fs filePath ParquetLayerData_new = Undefined
          end
      end
  end.
Proof.
  destruct (fs filePath) as [f|] eqn:Hfs.
  2:{ unfold Open, try_catch, OpenFile, bind. now rewrite Hfs. }
  rewrite (Open_unfold _ _ Hfs). cbv zeta.
  set (st1 := with_propertyNames (field_catalog f)
                (with_reader (Some {| reader_file := f; batch_reads := [] |})
                   ParquetLayerData_new)).
  destruct (path_column f) as [pc|] eqn:Hpc; [|eexists; reflexivity].
  pose proof (@index_loop f pc (row_groups f) [] st1 eq_refl eq_refl) as Hloop.
  simpl in Hloop.
  destruct (scan_outcome pc (row_groups f)) eqn:Hout.
  - destruct Hloop as [st2 [Hrun [Hidx [Hprops [Hcache Hf]]]]].
    rewrite Hrun.
    assert (Forall (fun k => IsAbsolutePath k = true) (map_keys (_pathIndex st2)))
      as Habs.
    { rewrite Hidx. apply index_groups_keys; constructor. }
    destruct (build_hierarchy_returns (_pathIndex st2) [] [] Habs) as [[a c] Hb].
    rewrite Hb.
    eexists. split; [reflexivity|]. unfold Opened. simpl.
    repeat split; trivial.
  - destruct Hloop as [s Hrun]. rewrite Hrun. eexists. reflexivity.
  - rewrite Hloop. reflexivity.
Qed.

Lemma Open_true_inv (fs : FileSystem) (filePath : string) (st : ParquetLayerData) :
  Open fs filePath ParquetLayerData_new = Returns true st ->
  exists f pc, fs filePath = Some f /\ Opened f pc st.
Proof.
  intros Hopen. pose proof (Open_outcome fs filePath) as H.
  destruct (fs filePath) as [f|]; [|congruence].
  destruct (path_column f) as [pc|]; [|destruct H as [s H]; congruence].
  destruct (scan_outcome pc (row_groups f)) eqn:Hout.
  - destruct H as [s [H Hopened]]. exists f, pc. split; trivial.
    rewrite Hopen in H. injection H as <-. exact Hopened.
  - destruct H as [s H]. congruence.
  - congruence.
Qed.

(** ** [Open]: the index and the failures *)

Lemma last_location_Some (p : SdfPath) (rows : list (string * ParquetLocation)) :
  last_location p rows <> None <->
  exists s loc, In (s, loc) rows
                /\ IsAbsolutePath (SdfPath_of_string s) = true
                /\ SdfPath_of_string s = p.
Proof.
  induction rows as [|[s loc] rows IH]; simpl.
  - split; [congruence | intros [s [loc [[] _]]]].
  - destruct (last_location p rows) as [l|] eqn:El.
    + split; [|congruence]. intros _.
      destruct IH as [IH _]. destruct IH as [s' [loc' [Hin H]]]; [congruence|].
      exists s', loc'. auto.
    + destruct (IsAbsolutePath (SdfPath_of_string s)) eqn:Ea; simpl.
      * destruct (SdfPath_eqb (SdfPath_of_string s) p) eqn:Ee.
        -- apply SdfPath_eqb_eq in Ee. split; [|congruence].
           intros _. exists s, loc. auto.
        -- apply SdfPath_eqb_neq in Ee. split; [congruence|].
           intros [s' [loc' [[Hin|Hin] [Ha He]]]].
           ++ injection Hin as <- <-. contradiction.
           ++ apply IH. exists s', loc'. auto.
      * split; [congruence|].
        intros [s' [loc' [[Hin|Hin] [Ha He]]]].
        -- injection Hin as <- <-. congruence.
        -- apply IH. exists s', loc'. auto.
Qed.

(** C6.  When the file has a path column whose chunks all decode, [Open]
    succeeds whatever the strings in the column are, and the path index
    then maps a path exactly when some scanned row holds a well-formed
    absolute path string denoting it; rows with any other string are
    skipped.  The location recorded for a path is that of the last such
    row in scan order. *)
Theorem Open_indexes_absolute_paths (fs : FileSystem) (filePath : string)
    (f : ParquetFile) (pc : nat) :
  fs filePath = Some f ->
  path_column f = Some pc ->
  scan_outcome pc (row_groups f) = ScanCompletes ->
  exists st,
    Open fs filePath ParquetLayerData_new = Returns true st
    /\ (forall p, map_find SdfPath_compare p (_pathIndex st) =
                  last_location p (path_rows pc 0 (row_groups f)))
    /\ (forall p, Indexed st p <->
                  exists s loc,
                    In (s, loc) (path_rows pc 0 (row_groups f))
                    /\ IsAbsolutePath (SdfPath_of_string s) = true
                    /\ SdfPath_of_string s = p).
Proof.
  intros Hfs Hpc Hscan. pose proof (Open_outcome fs filePath) as H.
  rewrite Hfs, Hpc, Hscan in H. destruct H as [st [Hopen Hopened]].
  exists st. split; trivial.
  destruct Hopened as [_ [_ [Hidx _]]].
  assert (forall p, map_find SdfPath_compare p (_pathIndex st) =
                    last_location p (path_rows pc 0 (row_groups f))) as Hfind.
  { intros p. rewrite Hidx, index_groups_find by assumption.
    now destruct (last_location p (path_rows pc 0 (row_groups f))). }
  split; trivial.
  intros p. rewrite <- last_location_Some, <- Hfind.
  unfold Indexed, map_count.
  destruct (map_find SdfPath_compare p (_pathIndex st)); split; congruence.
Qed.

Lemma Open_indexes_absolute_paths_witness :
  rows_fs "rows.parquet" = Some rows_file
  /\ path_column rows_file = Some 0
  /\ scan_outcome 0 (row_groups rows_file) = ScanCompletes
  /\ exists st,
       Open rows_fs "rows.parquet" ParquetLayerData_new = Returns true st
       /\ (forall p, map_find SdfPath_compare p (_pathIndex st) =
                     last_location p (path_rows 0 0 (row_groups rows_file)))
       /\ (forall p, Indexed st p <->
                     exists s loc,
                       In (s, loc) (path_rows 0 0 (row_groups rows_file))
                       /\ IsAbsolutePath (SdfPath_of_string s) = true
                       /\ SdfPath_of_string s = p).
Proof.
  split; [reflexivity|]. split; [reflexivity|]. split; [reflexivity|].
  apply (@Open_indexes_absolute_paths rows_fs "rows.parquet" rows_file 0);
    reflexivity.
Defined.

Example rows_store_index :
  Open rows_fs "rows.parquet" ParquetLayerData_new = Returns true rows_store
  /\ _pathIndex rows_store =
     [ (SdfPath_of_string "/A/B", {| rowGroup := 1; rowOffset := 1 |});
       (SdfPath_of_string "/A/C", {| rowGroup := 0; rowOffset := 2 |}) ].
Proof. split; reflexivity. Qed.

(** C8.  With the file opened by the reader, [Open] returns false in
    exactly two situations: the schema has no column named [path], or an
    exception is raised while the path column is read to build the index.
    The exception is caught: [Open] never raises.  When [Open] returns
    false, [Read] returns false and leaves the layer as it was, so no
    partially built store is installed. *)
Theorem Open_fails_exactly_when (fs : FileSystem) (filePath : string)
    (f : ParquetFile) :
  fs filePath = Some f ->
  ((exists st, Open fs filePath ParquetLayerData_new = Returns false st) <->
   ~ In "path" (schema f)
   \/ exists pc, path_column f = Some pc
                 /\ scan_outcome pc (row_groups f) = ScanRaises)
  /\ (forall st, Open fs filePath ParquetLayerData_new <> Throws st)
  /\ (forall layer,
        (exists st, Open fs filePath ParquetLayerData_new = Returns false st) ->
        Read fs filePath layer = Returns false layer).
Proof.
  intros Hfs. pose proof (Open_outcome fs filePath) as H. rewrite Hfs in H.
  rewrite <- path_column_None.
  split; [|split].
  - destruct (path_column f) as [pc|] eqn:Hpc.
    + destruct (scan_outcome pc (row_groups f)) eqn:Hout.
      * destruct H as [st [H _]]. split.
        -- intros [st' H']. congruence.
        -- intros [H'|[pc' [Hpc' H']]]; [congruence|].
           injection Hpc' as <-. congruence.
      * split; [|intros _; exact H].
        intros _. right. exists pc. auto.
      * split.
        -- intros [st' H']. congruence.
        -- intros [H'|[pc' [Hpc' H']]]; [congruence|].
           injection Hpc' as <-. congruence.
    + split; auto.
  - intros st Hthrow.
    destruct (path_column f) as [pc|]; [|destruct H as [s H]; congruence].
    destruct (scan_outcome pc (row_groups f));
      [destruct H as [s [H _]] | destruct H as [s H] |]; congruence.
  - intros layer [st Hfalse]. unfold Read. now rewrite Hfalse.
Qed.

Lemma Open_fails_exactly_when_witness :
  corrupt_fs "corrupt.parquet" = Some corrupt_file
  /\ ((exists st,
         Open corrupt_fs "corrupt.parquet" ParquetLayerData_new = Returns false st) <->
      ~ In "path" (schema corrupt_file)
      \/ exists pc, path_column corrupt_file = Some pc
                    /\ scan_outcome pc (row_groups corrupt_file) = ScanRaises)
  /\ (forall st,
        Open corrupt_fs "corrupt.parquet" ParquetLayerData_new <> Throws st)
  /\ (forall layer,
        (exists st,
           Open corrupt_fs "corrupt.parquet" ParquetLayerData_new = Returns false st) ->
        Read corrupt_fs "corrupt.parquet" layer = Returns false layer).
Proof.
  split; [reflexivity|].
  apply (@Open_fails_exactly_when corrupt_fs "corrupt.parquet" corrupt_file).
  reflexivity.
Defined.

Example corrupt_file_fails :
  scan_outcome 0 (row_groups corrupt_file) = ScanRaises
  /\ exists st,
       Open corrupt_fs "corrupt.parquet" ParquetLayerData_new = Returns false st.
Proof. split; [reflexivity|]. eexists. reflexivity. Qed.

(** A missing file is the third way to fail: the reader raises and the
    same handler returns false. *)
Lemma Open_missing_file (fs : FileSystem) (filePath : string) :
  fs filePath = None ->
  Open fs filePath ParquetLayerData_new = Returns false ParquetLayerData_new.
Proof.
  intros Hfs. pose proof (Open_outcome fs filePath) as H. now rewrite Hfs in H.
Qed.

(** ** The synthesized hierarchy *)

Lemma Opened_allPaths (f : ParquetFile) (pc : nat) (st : ParquetLayerData) :
  Opened f pc st ->
  forall q, InAllNodes st q <->
            exists k, Indexed st k
                      /\ (q = k \/ (StrictAncestor q k /\ q <> AbsoluteRootPath)).
Proof.
  intros [_ [_ [_ [Hbuild _]]]] q.
  apply build_hierarchy_spec in Hbuild. destruct Hbuild as [Hall _].
  unfold InAllNodes, Indexed. rewrite Hall. split.
  - intros [H|[k [Hk H]]]; [discriminate|].
    exists k. split; trivial. now apply (map_count_keys _ SdfPath_compare_eq_iff).
  - intros [k [Hk H]]. right. exists k. split; trivial.
    now apply (map_count_keys _ SdfPath_compare_eq_iff).
Qed.

(** C5.  After a successful open, All-Nodes contains every indexed path,
    and with every path it contains all of the path's strict ancestors
    other than the absolute root. *)
Theorem AllNodes_ancestrally_closed (fs : FileSystem) (filePath : string)
    (st : ParquetLayerData) :
  Open fs filePath ParquetLayerData_new = Returns true st ->
  (forall p, Indexed st p -> InAllNodes st p)
  /\ (forall p a,
        InAllNodes st p -> StrictAncestor a p -> a <> AbsoluteRootPath ->
        InAllNodes st a).
Proof.
  intros Hopen. apply Open_true_inv in Hopen.
  destruct Hopen as [f [pc [_ Hopened]]].
  pose proof (Opened_allPaths Hopened) as Hall. split.
  - intros p Hp. apply Hall. exists p. auto.
  - intros p a Hp Hanc Hne. apply Hall. apply Hall in Hp.
    destruct Hp as [k [Hk [->|[Hpk _]]]].
    + exists k. auto.
    + exists k. split; trivial. right. split; trivial.
      eapply StrictAncestor_trans; eassumption.
Qed.

Lemma AllNodes_ancestrally_closed_witness :
  Open rows_fs "rows.parquet" ParquetLayerData_new = Returns true rows_store
  /\ (forall p, Indexed rows_store p -> InAllNodes rows_store p)
  /\ (forall p a,
        InAllNodes rows_store p -> StrictAncestor a p -> a <> AbsoluteRootPath ->
        InAllNodes rows_store a).
Proof.
  split; [reflexivity|].
  apply (@AllNodes_ancestrally_closed rows_fs "rows.parquet" rows_store).
  reflexivity.
Defined.

Example rows_store_allPaths :
  set_elements (_allPaths rows_store) =
  [SdfPath_of_string "/A"; SdfPath_of_string "/A/B"; SdfPath_of_string "/A/C"].
Proof. reflexivity. Qed.

Lemma Opened_children (f : ParquetFile) (pc : nat) (st : ParquetLayerData) :
  Opened f pc st ->
  forall parent,
    map_find SdfPath_compare parent (_childrenMap st) =
    match first_discovery_order (map_keys (_pathIndex st)) parent with
    | [] => None
    | children => Some children
    end.
Proof.
  intros [_ [_ [_ [Hbuild _]]]] parent.
  apply build_hierarchy_spec in Hbuild. destruct Hbuild as [_ Hcm].
  rewrite Hcm. simpl. rewrite fold_apply_registration.
  unfold first_discovery_order.
  destruct (names_under parent (discovery_sequence (map_keys (_pathIndex st))))
    as [|n names] eqn:E; trivial.
  now rewrite fold_push_child_nil.
Qed.

(** C3 (as amended).  After a successful open, the child-name sequence of
    every parent lists the children in first-discovery order of the
    hierarchy synthesis, duplicates suppressed; the synthesis walks from
    the indexed paths in the iteration order of the path index, which is
    ascending path order. *)
Theorem children_in_first_discovery_order (fs : FileSystem) (filePath : string)
    (st : ParquetLayerData) :
  Open fs filePath ParquetLayerData_new = Returns true st ->
  StronglySorted (fun a b => SdfPath_compare a b = Lt) (map_keys (_pathIndex st))
  /\ forall parent,
       children_of st parent = first_discovery_order (map_keys (_pathIndex st)) parent
       /\ Get parent SdfChildrenKeys.PrimChildren st =
          Returns (VtTokenArray (first_discovery_order (map_keys (_pathIndex st)) parent))
            st.
Proof.
  intros Hopen. apply Open_true_inv in Hopen.
  destruct Hopen as [f [pc [_ Hopened]]].
  split.
  - destruct Hopened as [_ [_ [Hidx _]]]. rewrite Hidx.
    apply index_groups_keys; constructor.
  - intros parent. pose proof (Opened_children Hopened parent) as Hc.
    unfold children_of, Get, bind, get_state, ret. simpl. rewrite Hc.
    now destruct (first_discovery_order (map_keys (_pathIndex st)) parent).
Qed.

Lemma children_in_first_discovery_order_witness :
  Open order_fs "order.parquet" ParquetLayerData_new = Returns true order_store
  /\ StronglySorted (fun a b => SdfPath_compare a b = Lt)
       (map_keys (_pathIndex order_store))
  /\ forall parent,
       children_of order_store parent =
       first_discovery_order (map_keys (_pathIndex order_store)) parent
       /\ Get parent SdfChildrenKeys.PrimChildren order_store =
          Returns (VtTokenArray
                     (first_discovery_order (map_keys (_pathIndex order_store)) parent))
            order_store.
Proof.
  split; [reflexivity|].
  apply (@children_in_first_discovery_order order_fs "order.parquet" order_store).
  reflexivity.
Defined.

(** C3 as stated fails: with the rows [/A/C], [/A/B] scanned in this
    order, the children of [/A] are listed as [B], [C]. *)
Lemma children_not_in_scan_order :
  Open order_fs "order.parquet" ParquetLayerData_new = Returns true order_store
  /\ scanned_paths order_file 0 = [SdfPath_of_string "/A/C"; SdfPath_of_string "/A/B"]
  /\ children_of order_store (SdfPath_of_string "/A") = ["B"; "C"]
  /\ first_discovery_order (scanned_paths order_file 0) (SdfPath_of_string "/A")
     = ["C"; "B"]
  /\ ~ children_in_scan_order order_file 0 order_store.
Proof.
  repeat split; try reflexivity.
  intros H. specialize (H (SdfPath_of_string "/A")). vm_compute in H. discriminate H.
Qed.

(** C1 as stated fails: a row that names a property puts a property path
    into All-Nodes, for which [HasSpec] answers by the field-path rule. *)
Lemma HasSpec_false_on_indexed_property_path :
  Open property_row_fs "prop.parquet" ParquetLayerData_new
  = Returns true property_row_store
  /\ InAllNodes property_row_store (SdfPath_of_string "/A.b")
  /\ HasSpec property_row_store (SdfPath_of_string "/A.b") = false
  /\ ~ (HasSpec property_row_store (SdfPath_of_string "/A.b") = true <->
        has_node_rule property_row_store (SdfPath_of_string "/A.b")).
Proof.
  repeat split; try reflexivity.
  intros [_ H].
  assert (HasSpec property_row_store (SdfPath_of_string "/A.b") = true) as E.
  { apply H. right. left. reflexivity. }
  vm_compute in E. discriminate E.
Qed.

(** C10 as stated fails: the row [/A.b] puts the property path [/A.b]
    into All-Nodes, and [GetSpecType] answers Unknown for it, not Prim,
    because [/A] is not indexed.  [HasSpec] answers false, so the two
    queries still agree. *)
Lemma AllNodes_member_of_unknown_kind :
  Open property_row_fs "prop.parquet" ParquetLayerData_new
  = Returns true property_row_store
  /\ InAllNodes property_row_store (SdfPath_of_string "/A.b")
  /\ GetSpecType property_row_store (SdfPath_of_string "/A.b") = SdfSpecTypeUnknown
  /\ HasSpec property_row_store (SdfPath_of_string "/A.b") = false
  /\ ~ kind_rule property_row_store (SdfPath_of_string "/A.b").
Proof.
  repeat split; try reflexivity.
  intros [_ [H _]].
  assert (GetSpecType property_row_store (SdfPath_of_string "/A.b")
          = SdfSpecTypePrim) as E.
  { apply H; [discriminate|reflexivity]. }
  vm_compute in E. discriminate E.
Qed.

(** A synthesized ancestor carries no field values. *)
Example synthesized_ancestor_has_no_value :
  InAllNodes rows_store (SdfPath_of_string "/A")
  /\ ~ Indexed rows_store (SdfPath_of_string "/A")
  /\ Get (SdfPath_of_string "/A.temp") SdfFieldKeys.Default rows_store
     = Returns VtEmpty rows_store
  /\ Get (SdfPath_of_string "/A") SdfChildrenKeys.PrimChildren rows_store
     = Returns (VtTokenArray ["B"; "C"]) rows_store.
Proof.
  split; [reflexivity|]. split; [intros H; discriminate H|].
  split; reflexivity.
Qed.

Example HasSpec_unknown_path :
  HasSpec rows_store (SdfPath_of_string "/DoesNotExist") = false
  /\ GetSpecType rows_store (SdfPath_of_string "/DoesNotExist") = SdfSpecTypeUnknown.
Proof. split; reflexivity. Qed.

(** ** The block cache *)

Lemma cache_count_fst (field : TfToken) (rg : nat) (c : BlockCache) :
  fst (cache_count field rg c) =
  match cache_lookup field rg c with Some _ => true | None => false end.
Proof.
  unfold cache_count, cache_lookup, map_subscript, map_count.
  destruct (map_find String.compare field c) as [inner|]; simpl; trivial.
Qed.

Lemma cache_count_snd (field : TfToken) (rg : nat) (c : BlockCache)
    (field' : TfToken) (rg' : nat) :
  cache_lookup field' rg' (snd (cache_count field rg c)) = cache_lookup field' rg' c.
Proof.
  unfold cache_count, cache_lookup.
  pose proof (map_subscript_find _ String_compare_eq_iff [] field field' c) as H.
  destruct (map_subscript String.compare [] field c) as [inner c1]. simpl in *.
  rewrite H. destruct (map_find String.compare field' c); trivial.
  now destruct (String.compare field' field).
Qed.

Lemma cache_count_hit (field : TfToken) (rg : nat) (c : BlockCache) (v : VtValue) :
  cache_lookup field rg c = Some v -> cache_count field rg c = (true, c).
Proof.
  unfold cache_count, cache_lookup, map_subscript, map_count.
  destruct (map_find String.compare field c) as [inner|]; [|discriminate].
  intros ->. reflexivity.
Qed.

Lemma cache_lookup_assign (field : TfToken) (rg : nat) (v : VtValue) (c : BlockCache)
    (field' : TfToken) (rg' : nat) :
  cache_lookup field' rg' (cache_assign field rg v c) =
  if String.eqb field' field && Nat.eqb rg' rg then Some v
  else cache_lookup field' rg' c.
Proof.
  unfold cache_assign, cache_lookup.
  pose proof (map_subscript_find _ String_compare_eq_iff [] field field' c) as H.
  pose proof (map_subscript_value String.compare [] field c) as Hv.
  destruct (map_subscript String.compare [] field c) as [inner c1]. simpl in *.
  rewrite (map_find_assign _ String_compare_eq_iff).
  destruct (String.eqb field' field) eqn:Ef.
  - apply String.eqb_eq in Ef. subst field'.
    rewrite (cmp_refl _ String_compare_eq_iff).
    rewrite (map_find_assign _ Nat_compare_eq_iff). simpl.
    destruct (Nat.eqb rg' rg) eqn:Er.
    + apply Nat.eqb_eq in Er. subst. now rewrite Nat.compare_refl.
    + apply Nat.eqb_neq in Er. subst inner.
      destruct (Nat.compare rg' rg) eqn:Ec;
        try (apply Nat.compare_eq_iff in Ec; contradiction);
        now destruct (map_find String.compare field c).
  - apply String.eqb_neq in Ef. simpl. rewrite H.
    destruct (String.compare field' field) eqn:Ec.
    + apply String_compare_eq_iff in Ec. contradiction.
    + now destruct (map_find String.compare field' c).
    + now destruct (map_find String.compare field' c).
Qed.

Lemma cache_subscript_fst (field : TfToken) (rg : nat) (c : BlockCache) :
  fst (cache_subscript field rg c) =
  match cache_lookup field rg c with Some v => v | None => VtEmpty end.
Proof.
  unfold cache_subscript, cache_lookup.
  pose proof (map_subscript_value String.compare [] field c) as Hv.
  destruct (map_subscript String.compare [] field c) as [inner c1]. simpl in Hv.
  pose proof (map_subscript_value Nat.compare VtEmpty rg inner) as Hv'.
  destruct (map_subscript Nat.compare VtEmpty rg inner) as [v inner'].
  simpl in *. subst v inner.
  now destruct (map_find String.compare field c).
Qed.

Lemma cache_subscript_snd (field : TfToken) (rg : nat) (c : BlockCache)
    (field' : TfToken) (rg' : nat) :
  cache_lookup field' rg' (snd (cache_subscript field rg c)) =
  match cache_lookup field' rg' c with
  | Some v => Some v
  | None => if String.eqb field' field && Nat.eqb rg' rg then Some VtEmpty else None
  end.
Proof.
  unfold cache_subscript, cache_lookup.
  pose proof (map_subscript_find _ String_compare_eq_iff [] field field' c) as H.
  pose proof (map_subscript_value String.compare [] field c) as Hv.
  destruct (map_subscript String.compare [] field c) as [inner c1]. simpl in H, Hv.
  pose proof (map_subscript_find _ Nat_compare_eq_iff VtEmpty rg rg' inner) as H'.
  destruct (map_subscript Nat.compare VtEmpty rg inner) as [v inner'].
  simpl in *.
  rewrite (map_find_assign _ String_compare_eq_iff).
  destruct (String.eqb field' field) eqn:Ef.
  - apply String.eqb_eq in Ef. subst field'.
    rewrite (cmp_refl _ String_compare_eq_iff), H'. subst inner. simpl.
    destruct (map_find String.compare field c) as [inner0|]; simpl.
    + destruct (map_find Nat.compare rg' inner0); trivial.
      destruct (Nat.eqb rg' rg) eqn:Er.
      * apply Nat.eqb_eq in Er. subst. now rewrite Nat.compare_refl.
      * apply Nat.eqb_neq in Er.
        destruct (Nat.compare rg' rg) eqn:Ec; trivial.
        apply Nat.compare_eq_iff in Ec. contradiction.
    + destruct (Nat.eqb rg' rg) eqn:Er.
      * apply Nat.eqb_eq in Er. subst. now rewrite Nat.compare_refl.
      * apply Nat.eqb_neq in Er.
        destruct (Nat.compare rg' rg) eqn:Ec; trivial.
        apply Nat.compare_eq_iff in Ec. contradiction.
  - apply String.eqb_neq in Ef. simpl. rewrite H.
    destruct (String.compare field' field) eqn:Ec.
    + apply String_compare_eq_iff in Ec. contradiction.
    + destruct (map_find String.compare field' c) as [i|]; trivial.
      now destruct (map_find Nat.compare rg' i).
    + destruct (map_find String.compare field' c) as [i|]; trivial.
      now destruct (map_find Nat.compare rg' i).
Qed.

(** ** [_LoadBlock] *)

Lemma with_blockCache_same (st : ParquetLayerData) :
  with_blockCache (_blockCache st) st = st.
Proof. now destruct st. Qed.

(** A cached pair: nothing is read and nothing changes. *)
Lemma LoadBlock_hit (st : ParquetLayerData) (field : TfToken) (rg : nat) (v : VtValue) :
  cache_lookup field rg (_blockCache st) = Some v ->
  _LoadBlock field rg st = Returns tt st.
Proof.
  intros Hhit. unfold _LoadBlock, bind, get_state, put_state, ret.
  rewrite (cache_count_hit _ _ _ Hhit). now rewrite with_blockCache_same.
Qed.

(** A pair without an entry: every way the call can end. *)
Lemma LoadBlock_miss (st : ParquetLayerData) (f : ParquetFile) (log : list (nat * nat))
    (field : TfToken) (rg : nat) :
  _reader st = Some {| reader_file := f; batch_reads := log |} ->
  cache_lookup field rg (_blockCache st) = None ->
  let c1 := snd (cache_count field rg (_blockCache st)) in
  let st1 := with_blockCache c1 st in
  _LoadBlock field rg st =
  match nth_error (row_groups f) rg with
  | None => Throws st1
  | Some g =>
      match find_column (schema f) 0 field with
      | None => Returns tt st1
      | Some colIdx =>
          match nth_error (columns g) colIdx with
          | None => Throws st1
          | Some chunk =>
              let logged :=
                with_reader (Some {| reader_file := f;
                                     batch_reads := (colIdx, rg) :: log |}) st1 in
              match decode_chunk (num_rows g) chunk with
              | Some v =>
                  Returns tt (with_blockCache (cache_assign field rg v c1) logged)
              | None =>
                  if supported_type (chunk_type chunk) then Throws logged
                  else Returns tt st1
              end
          end
      end
  end.
Proof.
  intros Hrd Hmiss.
  pose proof (cache_count_fst field rg (_blockCache st)) as Hfst.
  rewrite Hmiss in Hfst.
  destruct st as [idx all cm props cache rdo]. simpl in *. subst rdo.
  unfold _LoadBlock, bind, get_state, put_state. cbn beta iota delta [_blockCache].
  destruct (cache_count field rg cache) as [cached c1]. simpl in *. subst cached.
  unfold reader_RowGroup, RowGroup_Column, the_reader, bind, get_state, ret, throw,
    with_blockCache.
  simpl.
  destruct (nth_error (row_groups f) rg) as [g|]; simpl; trivial.
  destruct (find_column (schema f) 0 field) as [colIdx|]; simpl; trivial.
  destruct (nth_error (columns g) colIdx) as [chunk|]; simpl; trivial.
  destruct chunk as [v|v|v|v|v|v|v|v|t]; try reflexivity.
  destruct t; reflexivity.
Qed.

Lemma field_chunk_Some (f : ParquetFile) (field : TfToken) (rg colIdx : nat)
    (g : RowGroup) (chunk : ColumnChunk) :
  field_chunk f field rg = Some (colIdx, g, chunk) <->
  nth_error (row_groups f) rg = Some g
  /\ find_column (schema f) 0 field = Some colIdx
  /\ nth_error (columns g) colIdx = Some chunk.
Proof.
  unfold field_chunk.
  destruct (nth_error (row_groups f) rg) as [g'|];
    [|split; [discriminate | intros [H _]; discriminate]].
  destruct (find_column (schema f) 0 field) as [c|];
    [|split; [discriminate | intros [_ [H _]]; discriminate]].
  destruct (nth_error (columns g') c) as [ch|] eqn:E.
  - split.
    + intros H. injection H as <- <- <-. auto.
    + intros [H1 [H2 H3]]. injection H1 as <-. injection H2 as <-.
      rewrite E in H3. now injection H3 as <-.
  - split; [discriminate|].
    intros [H1 [H2 H3]]. injection H1 as <-. injection H2 as <-. congruence.
Qed.

(** The first load of a decodable block issues one read and stores the
    decoded array. *)
Lemma LoadBlock_fresh (st : ParquetLayerData) (f : ParquetFile)
    (field : TfToken) (rg colIdx : nat) (g : RowGroup) (chunk : ColumnChunk)
    (arr : VtValue) :
  open_file st = Some f ->
  cache_lookup field rg (_blockCache st) = None ->
  field_chunk f field rg = Some (colIdx, g, chunk) ->
  decode_chunk (num_rows g) chunk = Some arr ->
  exists st',
    _LoadBlock field rg st = Returns tt st'
    /\ reads st' = (colIdx, rg) :: reads st
    /\ same_structure st st'
    /\ (forall field' rg',
          cache_lookup field' rg' (_blockCache st') =
          if String.eqb field' field && Nat.eqb rg' rg then Some arr
          else cache_lookup field' rg' (_blockCache st)).
Proof.
  intros Hf Hmiss Hchunk Hdec.
  destruct (open_file_reader st Hf) as [log Hrd].
  rewrite (LoadBlock_miss st field rg Hrd Hmiss).
  apply field_chunk_Some in Hchunk. destruct Hchunk as [Hg [Hcol Hch]].
  rewrite Hg, Hcol, Hch, Hdec.
  eexists. split; [reflexivity|].
  unfold reads, same_structure, open_file. simpl. rewrite Hrd. simpl.
  repeat split; trivial.
  intros field' rg'. rewrite cache_lookup_assign, cache_count_snd. reflexivity.
Qed.

Lemma expected_block_decoded (f : ParquetFile) (field : TfToken) (rg colIdx : nat)
    (g : RowGroup) (chunk : ColumnChunk) :
  field_chunk f field rg = Some (colIdx, g, chunk) ->
  expected_block f field rg =
  match decode_chunk (num_rows g) chunk with Some v => v | None => VtEmpty end.
Proof. unfold expected_block. now intros ->. Qed.

(** Whenever [_LoadBlock] returns, the cache stays consistent with the
    file, and the pair either holds its block or cannot be decoded. *)
Lemma LoadBlock_preserves (st st' : ParquetLayerData) (f : ParquetFile)
    (field : TfToken) (rg : nat) :
  open_file st = Some f ->
  cache_consistent f (_blockCache st) ->
  _LoadBlock field rg st = Returns tt st' ->
  same_structure st st'
  /\ cache_consistent f (_blockCache st')
  /\ (cache_lookup field rg (_blockCache st') = Some (expected_block f field rg)
      \/ (cache_lookup field rg (_blockCache st') = None
          /\ expected_block f field rg = VtEmpty)).
Proof.
  intros Hf Hcons Hrun.
  destruct (cache_lookup field rg (_blockCache st)) as [v|] eqn:Hlook.
  - rewrite (LoadBlock_hit st field rg Hlook) in Hrun. injection Hrun as <-.
    split; [repeat split|]. split; trivial.
    left. rewrite Hlook. f_equal. now apply Hcons.
  - destruct (open_file_reader st Hf) as [log Hrd].
    rewrite (LoadBlock_miss st field rg Hrd Hlook) in Hrun. cbv zeta in Hrun.
    assert (cache_consistent f (snd (cache_count field rg (_blockCache st)))) as Hc1.
    { intros fd r v. rewrite cache_count_snd. apply Hcons. }
    assert (cache_lookup field rg (snd (cache_count field rg (_blockCache st))) = None)
      as Hl1 by now rewrite cache_count_snd.
    assert (same_structure st
              (with_blockCache (snd (cache_count field rg (_blockCache st))) st)) as Hs1.
    { unfold same_structure, open_file. simpl. repeat split; trivial. }
    destruct (field_chunk f field rg) as [[[colIdx g] chunk]|] eqn:Hfc.
    + pose proof (expected_block_decoded _ _ _ Hfc) as Hexp.
      apply field_chunk_Some in Hfc. destruct Hfc as [Hg [Hcol Hch]].
      rewrite Hg, Hcol, Hch in Hrun.
      destruct (decode_chunk (num_rows g) chunk) as [v|] eqn:Hdec.
      * injection Hrun as <-. simpl. split; [|split].
        -- unfold same_structure, open_file. simpl. rewrite Hrd.
           repeat split; trivial.
        -- intros fd r w. rewrite cache_lookup_assign.
           destruct (String.eqb fd field && Nat.eqb r rg) eqn:E; [|apply Hc1].
           apply andb_true_iff in E. destruct E as [E1 E2].
           apply String.eqb_eq in E1. apply Nat.eqb_eq in E2. subst fd r.
           intros H. injection H as <-. now rewrite Hexp.
        -- left. rewrite cache_lookup_assign, String.eqb_refl, Nat.eqb_refl. simpl.
           now rewrite Hexp.
      * destruct (supported_type (chunk_type chunk)); [discriminate Hrun|].
        injection Hrun as <-. simpl. auto.
    + assert (expected_block f field rg = VtEmpty) as Hexp
        by (unfold expected_block; now rewrite Hfc).
      unfold field_chunk in Hfc.
      destruct (nth_error (row_groups f) rg) as [g|]; [|discriminate Hrun].
      destruct (find_column (schema f) 0 field) as [colIdx|].
      * destruct (nth_error (columns g) colIdx) as [chunk|];
          [discriminate Hfc | discriminate Hrun].
      * injection Hrun as <-. simpl. auto.
Qed.

(** ** Loading and fetching a block *)

Lemma same_structure_refl (st : ParquetLayerData) : same_structure st st.
Proof. repeat split. Qed.

Lemma same_structure_trans (s1 s2 s3 : ParquetLayerData) :
  same_structure s1 s2 -> same_structure s2 s3 -> same_structure s1 s3.
Proof.
  unfold same_structure. intros [A1 [A2 [A3 [A4 A5]]]] [B1 [B2 [B3 [B4 B5]]]].
  repeat split; congruence.
Qed.

Lemma load_and_fetch_after (st s1 : ParquetLayerData) (field : TfToken) (rg : nat) :
  _LoadBlock field rg st = Returns tt s1 ->
  load_and_fetch field rg st =
  Returns (fst (cache_subscript field rg (_blockCache s1)))
    (with_blockCache (snd (cache_subscript field rg (_blockCache s1))) s1).
Proof.
  intros Hload. unfold load_and_fetch, bind at 1. rewrite Hload.
  unfold bind, get_state, put_state, ret.
  now destruct (cache_subscript field rg (_blockCache s1)).
Qed.

Lemma load_and_fetch_returns (st st' : ParquetLayerData) (f : ParquetFile)
    (field : TfToken) (rg : nat) (block : VtValue) :
  open_file st = Some f ->
  cache_consistent f (_blockCache st) ->
  load_and_fetch field rg st = Returns block st' ->
  block = expected_block f field rg
  /\ same_structure st st'
  /\ cache_consistent f (_blockCache st').
Proof.
  intros Hf Hcons Hrun.
  destruct (_LoadBlock field rg st) as [[] s1|s1| |] eqn:Hload;
    try (unfold load_and_fetch, bind in Hrun; rewrite Hload in Hrun;
         discriminate Hrun).
  rewrite (@load_and_fetch_after st s1 field rg Hload) in Hrun. injection Hrun as <- <-.
  destruct (@LoadBlock_preserves st s1 f field rg Hf Hcons Hload) as [Hs [Hc Hl]].
  rewrite cache_subscript_fst. split; [|split].
  - destruct Hl as [Hl|[Hl He]]; rewrite Hl; congruence.
  - eapply same_structure_trans; [exact Hs|]. repeat split.
  - intros fd r w. simpl. rewrite cache_subscript_snd.
    destruct (cache_lookup fd r (_blockCache s1)) as [w'|] eqn:E.
    + intros H. injection H as <-. now apply Hc.
    + destruct (String.eqb fd field && Nat.eqb r rg) eqn:Eq; [|discriminate].
      apply andb_true_iff in Eq. destruct Eq as [E1 E2].
      apply String.eqb_eq in E1. apply Nat.eqb_eq in E2. subst fd r.
      intros H. injection H as <-.
      destruct Hl as [Hl|[Hl He]]; congruence.
Qed.

Lemma load_and_fetch_decoded (st : ParquetLayerData) (f : ParquetFile)
    (field : TfToken) (rg colIdx : nat) (g : RowGroup) (chunk : ColumnChunk)
    (arr : VtValue) :
  open_file st = Some f ->
  cache_consistent f (_blockCache st) ->
  field_chunk f field rg = Some (colIdx, g, chunk) ->
  decode_chunk (num_rows g) chunk = Some arr ->
  exists st',
    load_and_fetch field rg st = Returns arr st'
    /\ same_structure st st'
    /\ cache_consistent f (_blockCache st').
Proof.
  intros Hf Hcons Hfc Hdec.
  assert (exists s1, _LoadBlock field rg st = Returns tt s1) as [s1 Hload].
  { destruct (cache_lookup field rg (_blockCache st)) as [v|] eqn:Hlook.
    - exists st. eapply LoadBlock_hit; eassumption.
    - destruct (@LoadBlock_fresh st f field rg colIdx g chunk arr Hf Hlook Hfc Hdec)
        as [s1 [H _]].
      eauto. }
  pose proof (@load_and_fetch_after st s1 field rg Hload) as Hrun.
  destruct (@load_and_fetch_returns st _ f field rg _ Hf Hcons Hrun) as [Hb [Hs Hc]].
  rewrite (@expected_block_decoded f field rg colIdx g chunk Hfc), Hdec in Hb.
  rewrite Hb in Hrun. eauto.
Qed.

Lemma block_element_state (block : VtValue) (i : nat) (s s' : ParquetLayerData)
    (v : VtValue) :
  block_element block i s = Returns v s' -> s' = s.
Proof.
  unfold block_element, element, ret, undefined.
  destruct block; try (intros H; now injection H);
    destruct (nth_error a i); intros H; try discriminate H; now injection H.
Qed.

(** ** The queries keep the structure and the consistency of the cache *)

Lemma Get_preserves (st st' : ParquetLayerData) (f : ParquetFile)
    (path : SdfPath) (field : TfToken) (v : VtValue) :
  open_file st = Some f ->
  cache_consistent f (_blockCache st) ->
  Get path field st = Returns v st' ->
  same_structure st st' /\ cache_consistent f (_blockCache st').
Proof.
  intros Hf Hcons. unfold Get, bind at 1, get_state.
  assert (forall x, ret x st = Returns v st' ->
                    same_structure st st' /\ cache_consistent f (_blockCache st'))
    as Hret.
  { unfold ret. intros x H. injection H as _ <-. split; trivial.
    apply same_structure_refl. }
  destruct (TfToken_eqb field SdfChildrenKeys.PrimChildren).
  { destruct (map_find SdfPath_compare path (_childrenMap st)); apply Hret. }
  destruct (TfToken_eqb field SdfChildrenKeys.PropertyChildren
            && map_count SdfPath_compare path (_pathIndex st)); [apply Hret|].
  destruct (TfToken_eqb field SdfFieldKeys.Specifier
            && set_count SdfPath_compare path (_allPaths st)); [apply Hret|].
  destruct (IsPropertyPath path); [|apply Hret].
  destruct (map_find SdfPath_compare (GetPrimPath path) (_pathIndex st)) as [loc|];
    [|apply Hret].
  destruct (has_property st (GetNameToken path)); [|apply Hret].
  destruct (TfToken_eqb field SdfFieldKeys.Default).
  { unfold bind. intros H.
    destruct (load_and_fetch (GetNameToken path) (rowGroup loc) st)
      as [b s1|s1| |] eqn:Hl; try discriminate H.
    apply block_element_state in H. subst st'.
    destruct (@load_and_fetch_returns st s1 f _ _ b Hf Hcons Hl) as [_ [Hs Hc]]. auto. }
  destruct (TfToken_eqb field SdfFieldKeys.TypeName).
  { unfold bind. intros H.
    destruct (load_and_fetch (GetNameToken path) (rowGroup loc) st)
      as [b s1|s1| |] eqn:Hl; try discriminate H.
    destruct (@load_and_fetch_returns st s1 f _ _ b Hf Hcons Hl) as [_ [Hs Hc]].
    destruct (block_type b); unfold ret in H; injection H as _ <-; auto. }
  destruct (TfToken_eqb field SdfFieldKeys.Variability); [apply Hret|].
  destruct (TfToken_eqb field SdfFieldKeys.Custom); apply Hret.
Qed.

Lemma Has_preserves (st st' : ParquetLayerData) (f : ParquetFile)
    (path : SdfPath) (field : TfToken) (value : bool) (r : bool * option VtValue) :
  open_file st = Some f ->
  cache_consistent f (_blockCache st) ->
  Has path field value st = Returns r st' ->
  same_structure st st' /\ cache_consistent f (_blockCache st').
Proof.
  intros Hf Hcons. unfold Has, bind at 1, get_state.
  assert (forall x, ret x st = Returns r st' ->
                    same_structure st st' /\ cache_consistent f (_blockCache st'))
    as Hret.
  { unfold ret. intros x H. injection H as _ <-. split; trivial.
    apply same_structure_refl. }
  destruct (IsPropertyPath path).
  - destruct (map_find SdfPath_compare (GetPrimPath path) (_pathIndex st)) as [loc|];
      [|apply Hret].
    destruct (has_property st (GetNameToken path)); [|apply Hret].
    destruct (TfToken_eqb field SdfFieldKeys.Default).
    { unfold bind. intros H.
      destruct (Get path field st) as [val s1|s1| |] eqn:Hg; try discriminate H.
      unfold ret in H. injection H as _ <-.
      eapply Get_preserves; eassumption. }
    destruct (TfToken_eqb field SdfFieldKeys.TypeName).
    { unfold bind. intros H.
      destruct (load_and_fetch (GetNameToken path) (rowGroup loc) st)
        as [b s1|s1| |] eqn:Hl; try discriminate H.
      destruct (@load_and_fetch_returns st s1 f _ _ b Hf Hcons Hl) as [_ [Hs Hc]].
      destruct (block_type b); unfold ret in H; injection H as _ <-; auto. }
    destruct (TfToken_eqb field SdfFieldKeys.Variability); [apply Hret|].
    destruct (TfToken_eqb field SdfFieldKeys.Custom); apply Hret.
  - destruct (TfToken_eqb field SdfChildrenKeys.PrimChildren
              && (map_count SdfPath_compare path (_childrenMap st)
                  || SdfPath_eqb path AbsoluteRootPath)).
    { destruct value; [|apply Hret].
      unfold bind. intros H.
      destruct (Get path field st) as [val s1|s1| |] eqn:Hg; try discriminate H.
      unfold ret in H. injection H as _ <-.
      eapply Get_preserves; eassumption. }
    destruct (TfToken_eqb field SdfChildrenKeys.PropertyChildren
              && map_count SdfPath_compare path (_pathIndex st)); [apply Hret|].
    destruct (TfToken_eqb field SdfFieldKeys.Specifier
              && set_count SdfPath_compare path (_allPaths st)); apply Hret.
Qed.

Lemma Has_abstract_preserves (st st' : ParquetLayerData) (f : ParquetFile)
    (path : SdfPath) (field : TfToken) (value : bool) (r : bool * option VtValue) :
  open_file st = Some f ->
  cache_consistent f (_blockCache st) ->
  Has_abstract path field value st = Returns r st' ->
  same_structure st st' /\ cache_consistent f (_blockCache st').
Proof.
  intros Hf Hcons. unfold Has_abstract, bind. intros H.
  destruct (Has path field true st) as [[b w] s1|s1| |] eqn:Hh; try discriminate H.
  destruct b; unfold ret in H; injection H as _ <-;
    eapply Has_preserves; eassumption.
Qed.

(** A query that raises: the exception comes from the batch read or the
    reader calls of [_LoadBlock], for a pair without a cache entry; the
    cache keeps the entries it had. *)
Lemma LoadBlock_raises (st st' : ParquetLayerData) (f : ParquetFile)
    (field : TfToken) (rg : nat) :
  open_file st = Some f ->
  _LoadBlock field rg st = Throws st' ->
  cache_lookup field rg (_blockCache st) = None
  /\ same_structure st st'
  /\ (forall field' rg',
        cache_lookup field' rg' (_blockCache st')
        = cache_lookup field' rg' (_blockCache st))
  /\ (reads st' = reads st
      \/ exists colIdx g t,
           field_chunk f field rg = Some (colIdx, g, CorruptChunk t)
           /\ supported_type t = true
           /\ reads st' = (colIdx, rg) :: reads st).
Proof.
  intros Hf.
  destruct (cache_lookup field rg (_blockCache st)) as [v|] eqn:Hlook.
  { rewrite (LoadBlock_hit _ _ _ Hlook). discriminate. }
  destruct (open_file_reader st Hf) as [log Hrd].
  rewrite (LoadBlock_miss st field rg Hrd Hlook). cbv zeta.
  assert (forall c : BlockCache, reads (with_blockCache c st) = reads st) as Hreads
    by reflexivity.
  assert (forall s : ParquetLayerData,
            s = with_blockCache (snd (cache_count field rg (_blockCache st))) st ->
            same_structure st s
            /\ (forall field' rg',
                  cache_lookup field' rg' (_blockCache s)
                  = cache_lookup field' rg' (_blockCache st))
            /\ reads s = reads st) as Hst1.
  { intros s ->. split; [repeat split|]. split; trivial.
    intros fd r. simpl. apply cache_count_snd. }
  unfold field_chunk.
  destruct (nth_error (row_groups f) rg) as [g|].
  2:{ intros H. injection H as <-. destruct (Hst1 _ eq_refl) as [Hs [Hc Hr]]. auto. }
  destruct (find_column (schema f) 0 field) as [colIdx|]; [|discriminate].
  destruct (nth_error (columns g) colIdx) as [chunk|].
  2:{ intros H. injection H as <-. destruct (Hst1 _ eq_refl) as [Hs [Hc Hr]]. auto. }
  destruct (decode_chunk (num_rows g) chunk) as [v|] eqn:Hdec; [discriminate|].
  destruct (supported_type (chunk_type chunk)) eqn:Hsup; [|discriminate].
  intros H. injection H as <-. split; trivial.
  split; [repeat split; simpl; unfold open_file; simpl; now rewrite Hrd|].
  split; [intros fd r; simpl; apply cache_count_snd|].
  right. destruct chunk as [v|v|v|v|v|v|v|v|t]; simpl in Hsup;
    try discriminate Hdec; try discriminate Hsup.
  exists colIdx, g, t. split; trivial. split; trivial.
  unfold reads. simpl. now rewrite Hrd.
Qed.

Lemma load_and_fetch_raises (st st' : ParquetLayerData) (field : TfToken) (rg : nat) :
  load_and_fetch field rg st = Throws st' ->
  _LoadBlock field rg st = Throws st'.
Proof.
  unfold load_and_fetch, bind at 1.
  destruct (_LoadBlock field rg st) as [[] s1|s1| |]; try discriminate.
  - unfold bind, get_state, put_state, ret.
    destruct (cache_subscript field rg (_blockCache s1)). discriminate.
  - intros H. now injection H as <-.
Qed.

Lemma block_element_returns_or_undefined (block : VtValue) (i : nat)
    (s s' : ParquetLayerData) :
  block_element block i s <> Throws s'.
Proof.
  destruct block; simpl; unfold element, ret, undefined;
    try (destruct (nth_error a i)); discriminate.
Qed.

Lemma Get_raises (st st' : ParquetLayerData) (path : SdfPath) (field : TfToken) :
  Get path field st = Throws st' ->
  exists name rg,
    has_property st name = true /\ _LoadBlock name rg st = Throws st'.
Proof.
  unfold Get, bind at 1, get_state.
  destruct (TfToken_eqb field SdfChildrenKeys.PrimChildren).
  { destruct (map_find SdfPath_compare path (_childrenMap st)); discriminate. }
  destruct (TfToken_eqb field SdfChildrenKeys.PropertyChildren
            && map_count SdfPath_compare path (_pathIndex st)); [discriminate|].
  destruct (TfToken_eqb field SdfFieldKeys.Specifier
            && set_count SdfPath_compare path (_allPaths st)); [discriminate|].
  destruct (IsPropertyPath path); [|discriminate].
  destruct (map_find SdfPath_compare (GetPrimPath path) (_pathIndex st)) as [loc|];
    [|discriminate].
  destruct (has_property st (GetNameToken path)) eqn:Hprop; [|discriminate].
  destruct (TfToken_eqb field SdfFieldKeys.Default).
  { unfold bind. intros H.
    destruct (load_and_fetch (GetNameToken path) (rowGroup loc) st)
      as [b s1|s1| |] eqn:Hl; try discriminate H.
    - now apply block_element_returns_or_undefined in H.
    - injection H as <-. apply load_and_fetch_raises in Hl. eauto. }
  destruct (TfToken_eqb field SdfFieldKeys.TypeName).
  { unfold bind. intros H.
    destruct (load_and_fetch (GetNameToken path) (rowGroup loc) st)
      as [b s1|s1| |] eqn:Hl; try discriminate H.
    - destruct (block_type b); discriminate H.
    - injection H as <-. apply load_and_fetch_raises in Hl. eauto. }
  destruct (TfToken_eqb field SdfFieldKeys.Variability); [discriminate|].
  destruct (TfToken_eqb field SdfFieldKeys.Custom); discriminate.
Qed.

Lemma Has_raises (st st' : ParquetLayerData) (path : SdfPath) (field : TfToken)
    (value : bool) :
  Has path field value st = Throws st' ->
  exists name rg,
    has_property st name = true /\ _LoadBlock name rg st = Throws st'.
Proof.
  unfold Has, bind at 1, get_state.
  destruct (IsPropertyPath path).
  - destruct (map_find SdfPath_compare (GetPrimPath path) (_pathIndex st)) as [loc|];
      [|discriminate].
    destruct (has_property st (GetNameToken path)) eqn:Hprop; [|discriminate].
    destruct (TfToken_eqb field SdfFieldKeys.Default).
    { unfold bind. intros H.
      destruct (Get path field st) as [val s1|s1| |] eqn:Hg; try discriminate H.
      injection H as <-. eapply Get_raises. exact Hg. }
    destruct (TfToken_eqb field SdfFieldKeys.TypeName).
    { unfold bind. intros H.
      destruct (load_and_fetch (GetNameToken path) (rowGroup loc) st)
        as [b s1|s1| |] eqn:Hl; try discriminate H.
      - destruct (block_type b); discriminate H.
      - injection H as <-. apply load_and_fetch_raises in Hl. eauto. }
    destruct (TfToken_eqb field SdfFieldKeys.Variability); [discriminate|].
    destruct (TfToken_eqb field SdfFieldKeys.Custom); discriminate.
  - destruct (TfToken_eqb field SdfChildrenKeys.PrimChildren
              && (map_count SdfPath_compare path (_childrenMap st)
                  || SdfPath_eqb path AbsoluteRootPath)).
    { destruct value; [|discriminate].
      unfold bind. intros H.
      destruct (Get path field st) as [val s1|s1| |] eqn:Hg; try discriminate H.
      injection H as <-. eapply Get_raises. exact Hg. }
    destruct (TfToken_eqb field SdfChildrenKeys.PropertyChildren
              && map_count SdfPath_compare path (_pathIndex st)); [discriminate|].
    destruct (TfToken_eqb field SdfFieldKeys.Specifier
              && set_count SdfPath_compare path (_allPaths st)); discriminate.
Qed.

Lemma Has_abstract_raises (st st' : ParquetLayerData) (path : SdfPath)
    (field : TfToken) (value : bool) :
  Has_abstract path field value st = Throws st' ->
  exists name rg,
    has_property st name = true /\ _LoadBlock name rg st = Throws st'.
Proof.
  unfold Has_abstract, bind. intros H.
  destruct (Has path field true st) as [[b w] s1|s1| |] eqn:Hh; try discriminate H.
  - destruct b; discriminate H.
  - injection H as <-. eapply Has_raises. exact Hh.
Qed.

Lemma raise_preserves (st st' : ParquetLayerData) (f : ParquetFile)
    (name : TfToken) (rg : nat) :
  open_file st = Some f ->
  cache_consistent f (_blockCache st) ->
  _LoadBlock name rg st = Throws st' ->
  same_structure st st' /\ cache_consistent f (_blockCache st').
Proof.
  intros Hf Hcons Hrun.
  destruct (@LoadBlock_raises _ _ _ _ _ Hf Hrun) as [_ [Hs [Hc _]]].
  split; trivial. intros fd r v H. rewrite Hc in H. now apply Hcons.
Qed.

(** Every reachable state has the structure [Open] built, the same file
    open, and a cache consistent with that file. *)
Lemma Reachable_invariant (fs : FileSystem) (filePath : string)
    (st : ParquetLayerData) :
  Reachable fs filePath st ->
  exists f pc st0,
    fs filePath = Some f
    /\ Opened f pc st0
    /\ same_structure st0 st
    /\ cache_consistent f (_blockCache st).
Proof.
  intros Hreach.
  assert (forall s s' name rg,
            (exists f pc st0,
               fs filePath = Some f /\ Opened f pc st0
               /\ same_structure st0 s /\ cache_consistent f (_blockCache s)) ->
            _LoadBlock name rg s = Throws s' ->
            exists f pc st0,
              fs filePath = Some f /\ Opened f pc st0
              /\ same_structure st0 s' /\ cache_consistent f (_blockCache s'))
    as Hraise.
  { intros s s' name rg [f [pc [st0 [Hfs [Hopened [Hs Hc]]]]]] Hrun.
    assert (open_file s = Some f) as Hf.
    { destruct Hs as [_ [_ [_ [_ Hs]]]]. rewrite Hs. apply Hopened. }
    destruct (@raise_preserves _ _ _ _ _ Hf Hc Hrun) as [Hs' Hc'].
    exists f, pc, st0. split; [exact Hfs|]. split; [exact Hopened|].
    split; [eapply same_structure_trans; eassumption | exact Hc']. }
  induction Hreach as [st Hopen|st st' path field v _ IH Hrun
                      |st st' path field value r _ IH Hrun
                      |st st' path field value r _ IH Hrun
                      |st st' m _ IH Hrun
                      |st st' path field _ IH Hrun
                      |st st' path field value _ IH Hrun
                      |st st' path field value _ IH Hrun].
  8:{ destruct (@Has_abstract_raises _ _ _ _ _ Hrun) as [name [rg [_ Hl]]].
      exact (Hraise _ _ _ _ IH Hl). }
  7:{ destruct (@Has_raises _ _ _ _ _ Hrun) as [name [rg [_ Hl]]].
      exact (Hraise _ _ _ _ IH Hl). }
  6:{ destruct (@Get_raises _ _ _ _ Hrun) as [name [rg [_ Hl]]].
      exact (Hraise _ _ _ _ IH Hl). }
  - apply Open_true_inv in Hopen. destruct Hopen as [f [pc [Hfs Hopened]]].
    exists f, pc, st. split; [exact Hfs|]. split; [exact Hopened|].
    split; [apply same_structure_refl|].
    destruct Hopened as [_ [_ [_ [_ [_ [Hcache _]]]]]]. rewrite Hcache.
    intros fd r v H. discriminate H.
  - destruct IH as [f [pc [st0 [Hfs [Hopened [Hs Hc]]]]]].
    assert (open_file st = Some f) as Hf.
    { destruct Hs as [_ [_ [_ [_ Hs]]]]. rewrite Hs. apply Hopened. }
    destruct (@Get_preserves st st' f path field v Hf Hc Hrun) as [Hs' Hc'].
    exists f, pc, st0. split; [exact Hfs|]. split; [exact Hopened|].
    split; [eapply same_structure_trans; eassumption | exact Hc'].
  - destruct IH as [f [pc [st0 [Hfs [Hopened [Hs Hc]]]]]].
    assert (open_file st = Some f) as Hf.
    { destruct Hs as [_ [_ [_ [_ Hs]]]]. rewrite Hs. apply Hopened. }
    destruct (@Has_preserves st st' f path field value r Hf Hc Hrun) as [Hs' Hc'].
    exists f, pc, st0. split; [exact Hfs|]. split; [exact Hopened|].
    split; [eapply same_structure_trans; eassumption | exact Hc'].
  - destruct IH as [f [pc [st0 [Hfs [Hopened [Hs Hc]]]]]].
    assert (open_file st = Some f) as Hf.
    { destruct Hs as [_ [_ [_ [_ Hs]]]]. rewrite Hs. apply Hopened. }
    destruct (@Has_abstract_preserves st st' f path field value r Hf Hc Hrun)
      as [Hs' Hc'].
    exists f, pc, st0. split; [exact Hfs|]. split; [exact Hopened|].
    split; [eapply same_structure_trans; eassumption | exact Hc'].
  - rewrite call_is_noop in Hrun. injection Hrun as <-. exact IH.
Qed.

(** ** Reading a field value *)


Lemma Get_Default_unfold (st : ParquetLayerData) (fp : SdfPath) (loc : ParquetLocation) :
  IsPropertyPath fp = true ->
  map_find SdfPath_compare (GetPrimPath fp) (_pathIndex st) = Some loc ->
  has_property st (GetNameToken fp) = true ->
  Get fp SdfFieldKeys.Default st =
  (block <- load_and_fetch (GetNameToken fp) (rowGroup loc) ;;
   block_element block (rowOffset loc)) st.
Proof.
  intros Hp Hloc Hhas. unfold Get, bind at 1, get_state.
  change (TfToken_eqb SdfFieldKeys.Default SdfChildrenKeys.PrimChildren) with false.
  change (TfToken_eqb SdfFieldKeys.Default SdfChildrenKeys.PropertyChildren) with false.
  change (TfToken_eqb SdfFieldKeys.Default SdfFieldKeys.Specifier) with false.
  change (TfToken_eqb SdfFieldKeys.Default SdfFieldKeys.Default) with true.
  cbn [andb]. now rewrite Hp, Hloc, Hhas.
Qed.

Lemma Get_TypeName_unfold (st : ParquetLayerData) (fp : SdfPath) (loc : ParquetLocation) :
  IsPropertyPath fp = true ->
  map_find SdfPath_compare (GetPrimPath fp) (_pathIndex st) = Some loc ->
  has_property st (GetNameToken fp) = true ->
  Get fp SdfFieldKeys.TypeName st =
  (block <- load_and_fetch (GetNameToken fp) (rowGroup loc) ;;
   match block_type block with
   | Some n => ret (VtToken (GetAsToken n))
   | None => ret VtEmpty
   end) st.
Proof.
  intros Hp Hloc Hhas. unfold Get, bind at 1, get_state.
  change (TfToken_eqb SdfFieldKeys.TypeName SdfChildrenKeys.PrimChildren) with false.
  change (TfToken_eqb SdfFieldKeys.TypeName SdfChildrenKeys.PropertyChildren) with false.
  change (TfToken_eqb SdfFieldKeys.TypeName SdfFieldKeys.Specifier) with false.
  change (TfToken_eqb SdfFieldKeys.TypeName SdfFieldKeys.Default) with false.
  change (TfToken_eqb SdfFieldKeys.TypeName SdfFieldKeys.TypeName) with true.
  cbn [andb]. now rewrite Hp, Hloc, Hhas.
Qed.





(** ** Loading a block once *)

Lemma load_repeatedly_cached (n : nat) (st : ParquetLayerData) (field : TfToken)
    (rg : nat) (v : VtValue) :
  cache_lookup field rg (_blockCache st) = Some v ->
  load_repeatedly n field rg st = Returns tt st.
Proof.
  intros Hhit. induction n as [|n IH]; simpl; trivial.
  unfold bind. now rewrite (LoadBlock_hit st field rg Hhit).
Qed.

(** C4 (as amended).  For a pair (field, row group) that has no cache
    entry yet and whose column block decodes, the first [_LoadBlock] issues exactly one
    batch read of that column block and stores the decoded array; every
    later [_LoadBlock] of the pair returns without a read and without
    changing anything, so loading the pair twice or more reads once. *)
Theorem LoadBlock_decodes_once (st : ParquetLayerData) (f : ParquetFile)
    (field : TfToken) (rg colIdx : nat) (g : RowGroup) (chunk : ColumnChunk)
    (arr : VtValue) :
  open_file st = Some f ->
  cache_lookup field rg (_blockCache st) = None ->
  field_chunk f field rg = Some (colIdx, g, chunk) ->
  decode_chunk (num_rows g) chunk = Some arr ->
  exists st1,
    _LoadBlock field rg st = Returns tt st1
    /\ reads st1 = (colIdx, rg) :: reads st
    /\ cache_lookup field rg (_blockCache st1) = Some arr
    /\ (forall n, load_repeatedly n field rg st1 = Returns tt st1)
    /\ (forall n, load_repeatedly (S (S n)) field rg st = Returns tt st1).
Proof.
  intros Hf Hmiss Hfc Hdec.
  destruct (@LoadBlock_fresh st f field rg colIdx g chunk arr Hf Hmiss Hfc Hdec)
    as [st1 [Hrun [Hreads [_ Hlook]]]].
  assert (cache_lookup field rg (_blockCache st1) = Some arr) as Hhit.
  { rewrite Hlook, String.eqb_refl, Nat.eqb_refl. reflexivity. }
  exists st1. repeat split; trivial.
  - intros n. eapply load_repeatedly_cached. exact Hhit.
  - intros n. change (load_repeatedly (S (S n)) field rg st)
      with ((_LoadBlock field rg ;;; load_repeatedly (S n) field rg) st).
    unfold bind at 1. rewrite Hrun.
    eapply load_repeatedly_cached. exact Hhit.
Qed.

Lemma LoadBlock_decodes_once_witness :
  exists st1,
    _LoadBlock "temp" 0 rows_store = Returns tt st1
    /\ reads st1 = (1, 0) :: reads rows_store
    /\ cache_lookup "temp" 0 (_blockCache st1)
       = Some (VtDoubleArray [15%Z; 0%Z; 25%Z])
    /\ (forall n, load_repeatedly n "temp" 0 st1 = Returns tt st1)
    /\ (forall n, load_repeatedly (S (S n)) "temp" 0 rows_store = Returns tt st1).
Proof.
  apply (@LoadBlock_decodes_once rows_store rows_file "temp" 0 1
           {| num_rows := 3;
              columns := [ByteArrayChunk ["/A/B"; ""; "/A/C"];
                          DoubleChunk [15%Z; 0%Z; 25%Z]] |}
           (DoubleChunk [15%Z; 0%Z; 25%Z]) (VtDoubleArray [15%Z; 0%Z; 25%Z]));
    reflexivity.
Defined.

(** C4 as stated fails for a pair whose column block does not decode.
    On a chunk whose batch read raises, each of two loads issues a read
    and raises, and no entry is stored; on a column of the unsupported
    type INT96 the two loads return without any read and without an
    entry. *)
Lemma loads_twice_reads_twice_or_never :
  Open bad_values_fs "bad.parquet" ParquetLayerData_new
  = Returns true bad_values_store
  /\ cache_lookup "temp" 0 (_blockCache bad_values_store) = None
  /\ (exists st1 st2,
        _LoadBlock "temp" 0 bad_values_store = Throws st1
        /\ _LoadBlock "temp" 0 st1 = Throws st2
        /\ reads st1 = (1, 0) :: reads bad_values_store
        /\ reads st2 = (1, 0) :: (1, 0) :: reads bad_values_store
        /\ cache_lookup "temp" 0 (_blockCache st2) = None)
  /\ ~ loads_twice_reads_once "temp" 0 bad_values_store
  /\ Open unsupported_fs "ts.parquet" ParquetLayerData_new
     = Returns true unsupported_store
  /\ cache_lookup "ts" 0 (_blockCache unsupported_store) = None
  /\ (exists st1 st2,
        _LoadBlock "ts" 0 unsupported_store = Returns tt st1
        /\ _LoadBlock "ts" 0 st1 = Returns tt st2
        /\ reads st2 = reads unsupported_store
        /\ cache_lookup "ts" 0 (_blockCache st2) = None)
  /\ ~ loads_twice_reads_once "ts" 0 unsupported_store.
Proof.
  split; [reflexivity|]. split; [reflexivity|]. split.
  { exists (store_of (_LoadBlock "temp" 0 bad_values_store)),
           (store_of (_LoadBlock "temp" 0
                        (store_of (_LoadBlock "temp" 0 bad_values_store)))).
    repeat split; vm_compute; reflexivity. }
  split.
  { intros [st1 [st2 [H _]]]. vm_compute in H. discriminate H. }
  split; [reflexivity|]. split; [reflexivity|]. split.
  { exists (store_of (_LoadBlock "ts" 0 unsupported_store)),
           (store_of (_LoadBlock "ts" 0
                        (store_of (_LoadBlock "ts" 0 unsupported_store)))).
    repeat split; vm_compute; reflexivity. }
  intros [st1 [st2 [H1 [_ [Hc _]]]]].
  vm_compute in H1. injection H1 as <-. apply Hc. vm_compute. reflexivity.
Qed.

(** C9, on the code.  For the column [ts] of the unsupported type INT96:
    both [Get] calls return the empty value and [Has] with the Default
    selector returns false, but [Has] with the TypeName selector returns
    true without writing a value; the subscript that follows
    [_LoadBlock] leaves an empty entry for the pair in the cache. *)
Theorem Has_TypeName_true_on_unsupported_column :
  Open unsupported_fs "ts.parquet" ParquetLayerData_new
  = Returns true unsupported_store
  /\ field_chunk unsupported_file "ts" 0
     = Some (2, {| num_rows := 1;
                   columns := [ByteArrayChunk ["/A"]; DoubleChunk [15%Z];
                               Int96Chunk [7%Z]] |}, Int96Chunk [7%Z])
  /\ supported_type (chunk_type (Int96Chunk [7%Z])) = false
  /\ (exists st', Get (SdfPath_of_string "/A.ts") SdfFieldKeys.Default unsupported_store
                  = Returns VtEmpty st')
  /\ (exists st', Get (SdfPath_of_string "/A.ts") SdfFieldKeys.TypeName unsupported_store
                  = Returns VtEmpty st')
  /\ (exists st', Has (SdfPath_of_string "/A.ts") SdfFieldKeys.Default true
                    unsupported_store
                  = Returns (false, None) st')
  /\ (exists st', Has (SdfPath_of_string "/A.ts") SdfFieldKeys.TypeName true
                    unsupported_store
                  = Returns (true, None) st'
                  /\ cache_lookup "ts" 0 (_blockCache st') = Some VtEmpty
                  /\ reads st' = reads unsupported_store).
Proof.
  split; [reflexivity|]. split; [reflexivity|]. split; [reflexivity|].
  split.
  { exists (store_of (Get (SdfPath_of_string "/A.ts") SdfFieldKeys.Default
                        unsupported_store)).
    vm_compute. reflexivity. }
  split.
  { exists (store_of (Get (SdfPath_of_string "/A.ts") SdfFieldKeys.TypeName
                        unsupported_store)).
    vm_compute. reflexivity. }
  split.
  { exists (store_of (Has (SdfPath_of_string "/A.ts") SdfFieldKeys.Default true
                        unsupported_store)).
    vm_compute. reflexivity. }
  exists (store_of (Has (SdfPath_of_string "/A.ts") SdfFieldKeys.TypeName true
                      unsupported_store)).
  split; [|split]; vm_compute; reflexivity.
Qed.

(** The same holds at every field path over a column of an unsupported
    physical type, in every state of an opened store. *)
Lemma queries_on_unsupported_type (fs : FileSystem) (filePath : string)
    (st : ParquetLayerData) (f : ParquetFile) (fp : SdfPath)
    (loc : ParquetLocation) (colIdx : nat) (g : RowGroup) (chunk : ColumnChunk)
    (value : bool) :
  Reachable fs filePath st ->
  fs filePath = Some f ->
  IsPropertyPath fp = true ->
  map_find SdfPath_compare (GetPrimPath fp) (_pathIndex st) = Some loc ->
  InFieldCatalog st (GetNameToken fp) ->
  field_chunk f (GetNameToken fp) (rowGroup loc) = Some (colIdx, g, chunk) ->
  supported_type (chunk_type chunk) = false ->
  (exists st', Get fp SdfFieldKeys.Default st = Returns VtEmpty st')
  /\ (exists st', Get fp SdfFieldKeys.TypeName st = Returns VtEmpty st')
  /\ (exists st', Has fp SdfFieldKeys.Default value st = Returns (false, None) st')
  /\ (exists st', Has fp SdfFieldKeys.TypeName value st = Returns (true, None) st').
Proof.
  intros Hreach Hfs Hp Hloc Hcat Hfc Hunsup.
  destruct (Reachable_invariant Hreach) as [f' [pc [st0 [Hfs' [Hopened [Hs Hc]]]]]].
  assert (f' = f) as -> by congruence.
  assert (open_file st = Some f) as Hf.
  { destruct Hs as [_ [_ [_ [_ Hs]]]]. rewrite Hs. apply Hopened. }
  apply has_property_In in Hcat.
  assert (decode_chunk (num_rows g) chunk = None) as Hdec.
  { destruct chunk as [v|v|v|v|v|v|v|v|t]; simpl in *; trivial; discriminate. }
  assert (exists s1, load_and_fetch (GetNameToken fp) (rowGroup loc) st
                     = Returns VtEmpty s1) as [s1 Hrun].
  { assert (exists s0, _LoadBlock (GetNameToken fp) (rowGroup loc) st = Returns tt s0)
      as [s0 Hload].
    { destruct (cache_lookup (GetNameToken fp) (rowGroup loc) (_blockCache st))
        as [v|] eqn:Hlook.
      - exists st. eapply LoadBlock_hit; eassumption.
      - destruct (open_file_reader st Hf) as [log Hrd].
        rewrite (LoadBlock_miss st (GetNameToken fp) (rowGroup loc) Hrd Hlook).
        pose proof Hfc as Hfc'. apply field_chunk_Some in Hfc'.
        destruct Hfc' as [Hg [Hcol Hch]].
        rewrite Hg, Hcol, Hch, Hdec, Hunsup. eauto. }
    pose proof (@load_and_fetch_after st s0 _ _ Hload) as Hrun.
    destruct (@load_and_fetch_returns st _ f _ _ _ Hf Hc Hrun) as [Hb _].
    rewrite (@expected_block_decoded f _ _ colIdx g chunk Hfc), Hdec in Hb.
    rewrite Hb in Hrun. eauto. }
  assert (Get fp SdfFieldKeys.Default st = Returns VtEmpty s1) as HgetD.
  { rewrite (Get_Default_unfold st fp Hp Hloc Hcat). unfold bind. now rewrite Hrun. }
  assert (Get fp SdfFieldKeys.TypeName st = Returns VtEmpty s1) as HgetT.
  { rewrite (Get_TypeName_unfold st fp Hp Hloc Hcat). unfold bind. now rewrite Hrun. }
  split; [eauto|]. split; [eauto|]. split.
  - exists s1. unfold Has, bind at 1, get_state. rewrite Hp, Hloc, Hcat.
    change (TfToken_eqb SdfFieldKeys.Default SdfFieldKeys.Default) with true.
    cbv iota. unfold bind. rewrite HgetD. reflexivity.
  - exists s1. unfold Has, bind at 1, get_state. rewrite Hp, Hloc, Hcat.
    change (TfToken_eqb SdfFieldKeys.TypeName SdfFieldKeys.Default) with false.
    change (TfToken_eqb SdfFieldKeys.TypeName SdfFieldKeys.TypeName) with true.
    cbv iota. unfold bind. rewrite Hrun. reflexivity.
Qed.

(* ================================================================== *)
(** * Further properties of the code *)

(** ** Index entries and the rows they come from *)

Lemma In_number_rows (s : string) (loc : ParquetLocation) (rg : nat)
    (values : list string) :
  forall i,
    In (s, loc) (number_rows rg i values) ->
    rowGroup loc = rg /\ i <= rowOffset loc
    /\ nth_error values (rowOffset loc - i) = Some s.
Proof.
  induction values as [|x values IH]; intros i; simpl; [tauto|].
  intros [H|H].
  - injection H as <- <-. simpl. rewrite Nat.sub_diag. auto.
  - apply IH in H. destruct H as [Hrg [Hle Hnth]].
    split; trivial. split; [lia|].
    replace (rowOffset loc - i) with (S (rowOffset loc - S i)) by lia.
    exact Hnth.
Qed.

Lemma In_path_rows (s : string) (loc : ParquetLocation) (pc : nat)
    (groups : list RowGroup) :
  forall rg0,
    In (s, loc) (path_rows pc rg0 groups) ->
    rg0 <= rowGroup loc
    /\ exists g vals,
         nth_error groups (rowGroup loc - rg0) = Some g
         /\ nth_error (columns g) pc = Some (ByteArrayChunk vals)
         /\ nth_error (firstn (num_rows g) vals) (rowOffset loc) = Some s.
Proof.
  induction groups as [|g groups IH]; intros rg0; simpl; [tauto|].
  rewrite in_app_iff. intros [H|H].
  - unfold read_path_chunk in H.
    destruct (nth_error (columns g) pc) as [chunk|] eqn:Hc; [|destruct H].
    destruct chunk as [v|v|v|v|v|v|vals|v|t]; try destruct t; try destruct H.
    apply In_number_rows in H. destruct H as [Hrg [_ Hnth]].
    rewrite Nat.sub_0_r in Hnth. subst rg0. split; [lia|].
    exists g, vals. rewrite Nat.sub_diag. auto.
  - apply IH in H. destruct H as [Hle [g' [vals [Hg H]]]].
    split; [lia|]. exists g', vals. split; trivial.
    replace (rowGroup loc - rg0) with (S (rowGroup loc - S rg0)) by lia.
    exact Hg.
Qed.

Lemma last_location_In (p : SdfPath) (loc : ParquetLocation)
    (rows : list (string * ParquetLocation)) :
  last_location p rows = Some loc ->
  exists s, In (s, loc) rows
            /\ IsAbsolutePath (SdfPath_of_string s) = true
            /\ SdfPath_of_string s = p.
Proof.
  induction rows as [|[s l] rows IH]; simpl; [discriminate|].
  destruct (last_location p rows) as [l'|].
  - intros H. destruct (IH H) as [s' [Hin H']]. exists s'. auto.
  - destruct (IsAbsolutePath (SdfPath_of_string s)) eqn:Ea; [|discriminate].
    destruct (SdfPath_eqb (SdfPath_of_string s) p) eqn:Ee; [|discriminate].
    intros H. injection H as <-. apply SdfPath_eqb_eq in Ee.
    exists s. auto.
Qed.

Lemma Opened_index_entry (f : ParquetFile) (pc : nat) (st : ParquetLayerData)
    (p : SdfPath) (loc : ParquetLocation) :
  Opened f pc st ->
  map_find SdfPath_compare p (_pathIndex st) = Some loc ->
  exists g vals s,
    nth_error (row_groups f) (rowGroup loc) = Some g
    /\ nth_error (columns g) pc = Some (ByteArrayChunk vals)
    /\ rowOffset loc < num_rows g
    /\ nth_error vals (rowOffset loc) = Some s
    /\ SdfPath_of_string s = p
    /\ IsAbsolutePath p = true.
Proof.
  intros [_ [Hscan [Hidx _]]] Hfind.
  rewrite Hidx, index_groups_find in Hfind by assumption. simpl in Hfind.
  destruct (last_location p (path_rows pc 0 (row_groups f))) as [l|] eqn:Hl;
    [|discriminate].
  injection Hfind as ->.
  destruct (last_location_In _ _ Hl) as [s [Hin [Habs Hp]]].
  apply In_path_rows in Hin. destruct Hin as [_ [g [vals [Hg [Hc Hnth]]]]].
  rewrite Nat.sub_0_r in Hg. rewrite nth_error_firstn in Hnth.
  destruct (Nat.ltb (rowOffset loc) (num_rows g)) eqn:Hlt; [|discriminate].
  apply Nat.ltb_lt in Hlt.
  exists g, vals, s. subst p. auto 7.
Qed.

(** X1.  After a successful open, every entry of the path index points
    at a row that exists: its row group is a row group of the file, its
    row offset is below the number of rows of that group, and the path
    column holds at that row a string that denotes the entry's path, which
    is absolute. *)
Theorem index_entry_locates_its_row (fs : FileSystem) (filePath : string)
    (st : ParquetLayerData) (p : SdfPath) (loc : ParquetLocation) :
  Open fs filePath ParquetLayerData_new = Returns true st ->
  map_find SdfPath_compare p (_pathIndex st) = Some loc ->
  exists f pc g vals s,
    fs filePath = Some f
    /\ path_column f = Some pc
    /\ nth_error (row_groups f) (rowGroup loc) = Some g
    /\ nth_error (columns g) pc = Some (ByteArrayChunk vals)
    /\ rowOffset loc < num_rows g
    /\ nth_error vals (rowOffset loc) = Some s
    /\ SdfPath_of_string s = p
    /\ IsAbsolutePath p = true.
Proof.
  intros Hopen Hfind. apply Open_true_inv in Hopen.
  destruct Hopen as [f [pc [Hfs Hopened]]].
  destruct (@Opened_index_entry f pc st p loc Hopened Hfind)
    as [g [vals [s H]]].
  exists f, pc, g, vals, s. split; trivial. split; [apply Hopened|exact H].
Qed.

Lemma index_entry_locates_its_row_witness :
  Open rows_fs "rows.parquet" ParquetLayerData_new = Returns true rows_store
  /\ map_find SdfPath_compare (SdfPath_of_string "/A/B") (_pathIndex rows_store)
     = Some {| rowGroup := 1; rowOffset := 1 |}
  /\ exists f pc g vals s,
       rows_fs "rows.parquet" = Some f
       /\ path_column f = Some pc
       /\ nth_error (row_groups f) 1 = Some g
       /\ nth_error (columns g) pc = Some (ByteArrayChunk vals)
       /\ 1 < num_rows g
       /\ nth_error vals 1 = Some s
       /\ SdfPath_of_string s = SdfPath_of_string "/A/B"
       /\ IsAbsolutePath (SdfPath_of_string "/A/B") = true.
Proof.
  split; [reflexivity|]. split; [reflexivity|].
  apply (@index_entry_locates_its_row rows_fs "rows.parquet" rows_store
           (SdfPath_of_string "/A/B") {| rowGroup := 1; rowOffset := 1 |});
    reflexivity.
Defined.

(** ** The path column and the Field Catalog *)

Lemma scan_columns_last_path (names : list string) :
  forall (i : nat) (pc0 : option nat) (props : list TfToken) (c : nat),
    fst (scan_columns names i pc0 props) = Some c ->
    (pc0 = Some c /\ ~ In "path" names)
    \/ (i <= c /\ nth_error names (c - i) = Some "path"
        /\ forall j, c - i < j -> nth_error names j <> Some "path").
Proof.
  induction names as [|name names IH]; intros i pc0 props c; simpl.
  - intros ->. left. auto.
  - destruct (String.eqb name "path") eqn:E.
    + apply String.eqb_eq in E. subst name. intros H.
      apply IH in H. destruct H as [[H Hno]|[Hle [Hnth Hlast]]].
      * injection H as <-. right. rewrite Nat.sub_diag. split; [lia|].
        split; trivial. intros [|j] Hj; [lia|]. simpl.
        intros Hn. apply Hno. eapply nth_error_In. exact Hn.
      * right. split; [lia|].
        replace (c - i) with (S (c - S i)) by lia. split; trivial.
        intros [|j] Hj; [lia|]. simpl. apply Hlast. lia.
    + apply String.eqb_neq in E. intros H.
      apply IH in H. destruct H as [[H Hno]|[Hle [Hnth Hlast]]].
      * left. split; trivial. intros [H'|H']; auto.
      * right. split; [lia|].
        replace (c - i) with (S (c - S i)) by lia. split; trivial.
        intros [|j] Hj; [lia|]. simpl. apply Hlast. lia.
Qed.

Lemma index_row_group_reads (pc rg : nat) (st st' : ParquetLayerData) :
  index_row_group pc rg st = Returns tt st' ->
  reads st' = (pc, rg) :: reads st.
Proof.
  destruct st as [idx all cm props cache [[f log]|]];
    unfold index_row_group, reader_RowGroup, RowGroup_Column, static_pointer_cast,
      ReadBatch, log_read, the_reader, bind, get_state, modify, ret, throw, undefined,
      reads; simpl;
    [|discriminate].
  destruct (nth_error (row_groups f) rg) as [g|]; [|discriminate].
  destruct (nth_error (columns g) pc) as [chunk|]; [|discriminate].
  destruct chunk as [v|v|v|v|v|v|v|v|t]; try destruct t; simpl; try discriminate.
  intros H. injection H as <-. reflexivity.
Qed.

Lemma index_loop_reads (pc : nat) (rgs : list nat) :
  forall st st',
    for_each rgs (index_row_group pc) st = Returns tt st' ->
    reads st' = rev (map (pair pc) rgs) ++ reads st.
Proof.
  induction rgs as [|rg rgs IH]; intros st st'; simpl.
  - unfold ret. intros H. now injection H as <-.
  - unfold bind.
    destruct (index_row_group pc rg st) as [[] s1|s1| |] eqn:Hstep; try discriminate.
    intros H. apply IH in H. rewrite H, (index_row_group_reads _ _ _ Hstep).
    now rewrite <- app_assoc.
Qed.

Lemma Open_reads (fs : FileSystem) (filePath : string) (st : ParquetLayerData) :
  Open fs filePath ParquetLayerData_new = Returns true st ->
  exists f pc,
    fs filePath = Some f
    /\ path_column f = Some pc
    /\ reads st = rev (map (pair pc) (seq 0 (List.length (row_groups f)))).
Proof.
  intros Hopen.
  destruct (fs filePath) as [f|] eqn:Hfs.
  2:{ pose proof (Open_outcome fs filePath) as H. rewrite Hfs in H. congruence. }
  exists f. rewrite (Open_unfold _ _ Hfs) in Hopen. cbv zeta in Hopen.
  destruct (path_column f) as [pc|]; [|discriminate].
  exists pc. split; trivial. split; trivial.
  destruct (for_each _ _ _) as [[] st2|s| |] eqn:Hloop; try discriminate.
  apply index_loop_reads in Hloop.
  destruct (build_hierarchy (_pathIndex st2) [] []) as [[a c]|]; [|discriminate].
  injection Hopen as <-. unfold reads in *. simpl in *.
  now rewrite app_nil_r in Hloop.
Qed.

(** X2.  After a successful open, the column taken as the path column is
    the last column of the schema named [path]; the property-name list
    holds the names of all other columns, in schema order and with
    repetitions kept; the block cache is empty, and only the path column
    has been read, once per row group. *)
Theorem Open_sets_path_column_and_catalog (fs : FileSystem) (filePath : string)
    (st : ParquetLayerData) :
  Open fs filePath ParquetLayerData_new = Returns true st ->
  exists f pc,
    fs filePath = Some f
    /\ path_column f = Some pc
    /\ nth_error (schema f) pc = Some "path"
    /\ (forall j, pc < j -> nth_error (schema f) j <> Some "path")
    /\ _propertyNames st = filter (fun n => negb (String.eqb n "path")) (schema f)
    /\ _blockCache st = []
    /\ reads st = rev (map (pair pc) (seq 0 (List.length (row_groups f)))).
Proof.
  intros Hopen.
  destruct (Open_reads _ _ Hopen) as [f [pc [Hfs [Hpc Hreads]]]].
  apply Open_true_inv in Hopen.
  destruct Hopen as [f' [pc' [Hfs' [Hpc' [_ [_ [_ [Hprops [Hcache _]]]]]]]]].
  assert (f' = f) as -> by congruence.
  exists f, pc. split; trivial. split; trivial.
  pose proof Hpc as Hlast. unfold path_column in Hlast.
  apply scan_columns_last_path in Hlast.
  destruct Hlast as [[H _]|[_ [Hnth Hlast]]]; [discriminate|].
  rewrite Nat.sub_0_r in Hnth, Hlast.
  split; trivial. split; trivial.
  split; [|auto].
  rewrite Hprops. unfold field_catalog. now rewrite scan_columns_props.
Qed.

Lemma Open_sets_path_column_and_catalog_witness :
  Open unsupported_fs "ts.parquet" ParquetLayerData_new
  = Returns true unsupported_store
  /\ exists f pc,
       unsupported_fs "ts.parquet" = Some f
       /\ path_column f = Some pc
       /\ nth_error (schema f) pc = Some "path"
       /\ (forall j, pc < j -> nth_error (schema f) j <> Some "path")
       /\ _propertyNames unsupported_store
          = filter (fun n => negb (String.eqb n "path")) (schema f)
       /\ _blockCache unsupported_store = []
       /\ reads unsupported_store
          = rev (map (pair pc) (seq 0 (List.length (row_groups f)))).
Proof.
  split; [reflexivity|].
  apply (@Open_sets_path_column_and_catalog unsupported_fs "ts.parquet"
           unsupported_store).
  reflexivity.
Defined.

(** ** The Children Map and All-Nodes *)

Lemma In_keep_first (n : TfToken) (names : list TfToken) :
  In n (keep_first names) <-> In n names.
Proof.
  induction names as [|m names IH]; simpl; [tauto|].
  rewrite filter_In, IH. split.
  - intros [H|[H _]]; auto.
  - intros [H|H]; auto.
    destruct (TfToken_eqb n m) eqn:E.
    + apply TfToken_eqb_eq in E. auto.
    + auto.
Qed.

Lemma NoDup_keep_first (names : list TfToken) : NoDup (keep_first names).
Proof.
  induction names as [|m names IH]; simpl; constructor.
  - rewrite filter_In. intros [_ H].
    assert (TfToken_eqb m m = true) as E by now apply TfToken_eqb_eq.
    rewrite E in H. discriminate H.
  - now apply NoDup_filter.
Qed.

Lemma In_names_under (parent : SdfPath) (name : TfToken)
    (regs : list (SdfPath * TfToken)) :
  In name (names_under parent regs) <-> In (parent, name) regs.
Proof.
  unfold names_under. rewrite in_map_iff. split.
  - intros [[p n] [Hn Hin]]. simpl in Hn. subst n.
    apply filter_In in Hin. destruct Hin as [Hin E]. simpl in E.
    apply SdfPath_eqb_eq in E. now subst p.
  - intros Hin. exists (parent, name). split; trivial.
    apply filter_In. split; trivial. apply SdfPath_eqb_refl.
Qed.

Lemma absolute_count_0 (p : SdfPath) :
  IsAbsolutePath p = true -> GetPathElementCount p = 0 -> p = AbsoluteRootPath.
Proof.
  destruct p as [|a prims [prop|]]; simpl; try discriminate.
  intros -> H. destruct prims; [reflexivity|discriminate].
Qed.

(** The pairs met on the walk from an absolute path are those of the path
    itself and of its strict ancestors, the root excepted. *)
Lemma In_registrations (n : nat) :
  forall (cur parent : SdfPath) (name : TfToken),
    IsAbsolutePath cur = true ->
    GetPathElementCount cur <= n ->
    (In (parent, name) (registrations n cur) <->
     exists c, c <> AbsoluteRootPath
               /\ (c = cur \/ StrictAncestor c cur)
               /\ GetParentPath c = parent /\ GetNameToken c = name).
Proof.
  induction n as [|n IH]; intros cur parent name Habs Hcount.
  - assert (cur = AbsoluteRootPath) as ->.
    { apply absolute_count_0; trivial. lia. }
    simpl. split; [tauto|].
    intros [c [Hne [[->|Hanc] _]]]; [congruence|].
    now apply StrictAncestor_root in Hanc.
  - simpl. destruct (SdfPath_eqb cur AbsoluteRootPath) eqn:E.
    + apply SdfPath_eqb_eq in E. subst cur. split; [intros []|].
      intros [c [Hne [[->|Hanc] _]]]; [congruence|].
      now apply StrictAncestor_root in Hanc.
    + apply SdfPath_eqb_neq in E.
      destruct (absolute_parent Habs E) as [Habs' Hcount'].
      simpl. rewrite IH by (trivial; lia). split.
      * intros [H|[c [Hne [Hc H]]]].
        -- injection H as <- <-. exists cur. auto.
        -- exists c. split; trivial. split; trivial. right.
           apply StrictAncestor_inv; trivial.
      * intros [c [Hne [[->|Hanc] [<- <-]]]]; [now left|].
        right. exists c. split; trivial. split; auto.
        apply StrictAncestor_inv in Hanc; trivial.
Qed.

Lemma Opened_keys_absolute (f : ParquetFile) (pc : nat) (st : ParquetLayerData)
    (k : SdfPath) :
  Opened f pc st -> Indexed st k -> IsAbsolutePath k = true.
Proof.
  intros [_ [_ [Hidx _]]] Hk.
  apply (map_count_keys _ SdfPath_compare_eq_iff) in Hk.
  rewrite Hidx in Hk.
  destruct (@index_groups_keys pc (row_groups f) 0 []) as [Habs _];
    [constructor|constructor|].
  rewrite Forall_forall in Habs. now apply Habs.
Qed.

Lemma Opened_children_of (f : ParquetFile) (pc : nat) (st : ParquetLayerData)
    (parent : SdfPath) :
  Opened f pc st ->
  children_of st parent = first_discovery_order (map_keys (_pathIndex st)) parent.
Proof.
  intros Hopened. unfold children_of. rewrite (Opened_children Hopened).
  now destruct (first_discovery_order _ _).
Qed.

(** A name is listed under [parent] exactly when some member of All-Nodes
    other than the root has that parent and that name. *)
Lemma Opened_child_iff (f : ParquetFile) (pc : nat) (st : ParquetLayerData)
    (parent : SdfPath) (name : TfToken) :
  Opened f pc st ->
  (In name (children_of st parent) <->
   exists c, InAllNodes st c /\ c <> AbsoluteRootPath
             /\ GetParentPath c = parent /\ GetNameToken c = name).
Proof.
  intros Hopened. rewrite (Opened_children_of parent Hopened).
  unfold first_discovery_order, discovery_sequence.
  rewrite In_keep_first, In_names_under, in_flat_map. split.
  - intros [k [Hk Hin]].
    apply (map_count_keys _ SdfPath_compare_eq_iff) in Hk.
    apply In_registrations in Hin;
      [|now apply (Opened_keys_absolute Hopened)|lia].
    destruct Hin as [c [Hne [Hc H]]]. exists c. split; [|auto].
    apply (Opened_allPaths Hopened). exists k. split; trivial.
    destruct Hc as [->|Hc]; auto.
  - intros [c [Hc [Hne H]]]. apply (Opened_allPaths Hopened) in Hc.
    destruct Hc as [k [Hk Hc]]. exists k. split.
    + now apply (map_count_keys _ SdfPath_compare_eq_iff).
    + apply In_registrations;
        [now apply (Opened_keys_absolute Hopened)|lia|].
      exists c. split; trivial. split; [|exact H].
      destruct Hc as [->|[Hc _]]; auto.
Qed.

Lemma Opened_children_key (f : ParquetFile) (pc : nat) (st : ParquetLayerData)
    (parent : SdfPath) :
  Opened f pc st ->
  map_count SdfPath_compare parent (_childrenMap st) = true ->
  children_of st parent <> []
  /\ (parent = AbsoluteRootPath \/ InAllNodes st parent).
Proof.
  intros Hopened Hcount.
  assert (children_of st parent <> []) as Hne.
  { unfold map_count in Hcount. unfold children_of.
    rewrite (Opened_children Hopened) in *.
    destruct (first_discovery_order _ _); [discriminate Hcount|discriminate]. }
  split; trivial.
  destruct (children_of st parent) as [|name rest] eqn:Hch; [congruence|].
  assert (In name (children_of st parent)) as Hin by (rewrite Hch; now left).
  apply (Opened_child_iff parent name Hopened) in Hin.
  destruct Hin as [c [Hc [Hcne [Hpar _]]]].
  destruct (SdfPath_eq_dec parent AbsoluteRootPath) as [|Hpne]; [now left|right].
  apply (Opened_allPaths Hopened) in Hc. apply (Opened_allPaths Hopened).
  destruct Hc as [k [Hk Hc]]. exists k. split; trivial. right. split; trivial.
  subst parent. destruct Hc as [->|[Hc _]].
  - now constructor.
  - eapply StrictAncestor_trans; [|exact Hc]. now constructor.
Qed.

(** X3.  After a successful open the Children Map agrees with All-Nodes:
    a name is listed among the children of a path exactly when a member
    of All-Nodes other than the root has that path as its parent and that
    name as its own; no name is listed twice; and a path with an entry in
    the map has at least one child and is the root or a member of
    All-Nodes. *)
Theorem children_are_the_nodes_below (fs : FileSystem) (filePath : string)
    (st : ParquetLayerData) (parent : SdfPath) :
  Open fs filePath ParquetLayerData_new = Returns true st ->
  (forall name,
     In name (children_of st parent) <->
     exists c, InAllNodes st c /\ c <> AbsoluteRootPath
               /\ GetParentPath c = parent /\ GetNameToken c = name)
  /\ NoDup (children_of st parent)
  /\ (map_count SdfPath_compare parent (_childrenMap st) = true ->
      children_of st parent <> []
      /\ (parent = AbsoluteRootPath \/ InAllNodes st parent)).
Proof.
  intros Hopen. apply Open_true_inv in Hopen.
  destruct Hopen as [f [pc [_ Hopened]]].
  split; [intros name; now apply (Opened_child_iff parent name Hopened)|].
  split.
  - rewrite (Opened_children_of parent Hopened). apply NoDup_keep_first.
  - now apply (Opened_children_key parent Hopened).
Qed.

Lemma children_are_the_nodes_below_witness :
  Open rows_fs "rows.parquet" ParquetLayerData_new = Returns true rows_store
  /\ (forall name,
        In name (children_of rows_store (SdfPath_of_string "/A")) <->
        exists c, InAllNodes rows_store c /\ c <> AbsoluteRootPath
                  /\ GetParentPath c = SdfPath_of_string "/A"
                  /\ GetNameToken c = name)
  /\ NoDup (children_of rows_store (SdfPath_of_string "/A"))
  /\ (map_count SdfPath_compare (SdfPath_of_string "/A") (_childrenMap rows_store)
      = true ->
      children_of rows_store (SdfPath_of_string "/A") <> []
      /\ (SdfPath_of_string "/A" = AbsoluteRootPath
          \/ InAllNodes rows_store (SdfPath_of_string "/A"))).
Proof.
  split; [reflexivity|].
  apply (@children_are_the_nodes_below rows_fs "rows.parquet" rows_store
           (SdfPath_of_string "/A")).
  reflexivity.
Defined.

Lemma StrictAncestor_absolute (q k : SdfPath) :
  StrictAncestor q k -> IsAbsolutePath k = true -> IsAbsolutePath q = true.
Proof.
  induction 1 as [p Hne|a p Hne _ IH]; intros Habs.
  - now apply absolute_parent.
  - apply IH. now apply absolute_parent.
Qed.



(** X4.  After a successful open All-Nodes holds nothing but the indexed
    paths and their strict ancestors: every member is an absolute path,
    and is either indexed itself or a path other than the root that is a
    strict ancestor of an indexed path. *)
Theorem AllNodes_holds_only_indexed_paths_and_ancestors (fs : FileSystem)
    (filePath : string) (st : ParquetLayerData) (q : SdfPath) :
  Open fs filePath ParquetLayerData_new = Returns true st ->
  InAllNodes st q ->
  IsAbsolutePath q = true
  /\ (Indexed st q
      \/ (q <> AbsoluteRootPath
          /\ exists k, Indexed st k /\ StrictAncestor q k)).
Proof.
  intros Hopen Hq. apply Open_true_inv in Hopen.
  destruct Hopen as [f [pc [_ Hopened]]].
  apply (Opened_allPaths Hopened) in Hq.
  destruct Hq as [k [Hk [->|[Hanc Hne]]]].
  - split; [now apply (Opened_keys_absolute Hopened)|now left].
  - split.
    + apply (StrictAncestor_absolute Hanc). now apply (Opened_keys_absolute Hopened).
    + right. split; trivial. eauto.
Qed.

Lemma AllNodes_holds_only_indexed_paths_and_ancestors_witness :
  Open rows_fs "rows.parquet" ParquetLayerData_new = Returns true rows_store
  /\ InAllNodes rows_store (SdfPath_of_string "/A")
  /\ IsAbsolutePath (SdfPath_of_string "/A") = true
  /\ (Indexed rows_store (SdfPath_of_string "/A")
      \/ (SdfPath_of_string "/A" <> AbsoluteRootPath
          /\ exists k, Indexed rows_store k
                       /\ StrictAncestor (SdfPath_of_string "/A") k)).
Proof.
  split; [reflexivity|]. split; [reflexivity|].
  apply (@AllNodes_holds_only_indexed_paths_and_ancestors rows_fs "rows.parquet"
           rows_store (SdfPath_of_string "/A"));
    reflexivity.
Defined.

(** ** Termination of the hierarchy walk *)

Lemma non_absolute_parent (p : SdfPath) :
  IsAbsolutePath p = false -> IsAbsolutePath (GetParentPath p) = false.
Proof.
  destruct p as [|[|] [|name prims] [prop|]]; simpl; trivial.
  now destruct (String.eqb name SdfPathTokens.parentPathElement).
Qed.

Lemma walk_up_non_absolute (fuel : nat) :
  forall (p : SdfPath) (allPaths : PathSet) (cm : PathMap (list TfToken)),
    IsAbsolutePath p = false -> walk_up fuel p allPaths cm = None.
Proof.
  induction fuel as [|fuel IH]; intros p allPaths cm Hp;
    assert (SdfPath_eqb p AbsoluteRootPath = false) as E
      by (apply SdfPath_eqb_neq; intros ->; discriminate Hp);
    simpl; rewrite E; trivial.
  apply IH. now apply non_absolute_parent.
Qed.

(** X5.  The walk from a path towards the root ends exactly when the path
    is absolute, and then within as many steps as the path has elements;
    from any other path the root is never reached, however long the walk
    goes on.  The hierarchy is therefore built to the end exactly when
    every key of the index is absolute. *)
Theorem hierarchy_walk_ends_iff_absolute (p : SdfPath) (allPaths : PathSet)
    (cm : PathMap (list TfToken)) (entries : list (SdfPath * ParquetLocation)) :
  ((exists fuel r, walk_up fuel p allPaths cm = Some r) <-> IsAbsolutePath p = true)
  /\ ((exists r, walk_up (GetPathElementCount p) p allPaths cm = Some r) <->
      IsAbsolutePath p = true)
  /\ ((exists r, build_hierarchy entries allPaths cm = Some r) <->
      Forall (fun k => IsAbsolutePath k = true) (map_keys entries)).
Proof.
  assert (forall fuel r, walk_up fuel p allPaths cm = Some r ->
                         IsAbsolutePath p = true) as Hwalk.
  { intros fuel r H. destruct (IsAbsolutePath p) eqn:Hp; trivial.
    rewrite walk_up_non_absolute in H by assumption. discriminate H. }
  split; [|split].
  - split.
    + intros [fuel [r H]]. eauto.
    + intros Hp. exists (GetPathElementCount p).
      now apply walk_up_returns.
  - split.
    + intros [r H]. eauto.
    + intros Hp. now apply walk_up_returns.
  - split; [|apply build_hierarchy_returns].
    clear Hwalk. revert allPaths cm.
    induction entries as [|[path loc] entries IH]; intros allPaths cm [r H];
      simpl in *; constructor.
    + destruct (IsAbsolutePath path) eqn:Hp; trivial.
      rewrite walk_up_non_absolute in H by assumption. discriminate H.
    + destruct (walk_up _ _ _ _) as [[a c]|]; [|discriminate H].
      apply (IH a c). eauto.
Qed.

(** ** Every outcome of [Open] *)

Lemma scan_undefined_iff (pc : nat) (groups : list RowGroup) :
  scan_outcome pc groups = ScanUndefined <->
  exists pre g rest chunk,
    groups = pre ++ g :: rest
    /\ Forall (fun g' => exists vals,
                 nth_error (columns g') pc = Some (ByteArrayChunk vals)) pre
    /\ nth_error (columns g) pc = Some chunk
    /\ ParquetType_eqb (chunk_type chunk) BYTE_ARRAY = false.
Proof.
  split.
  - induction groups as [|g groups IH]; simpl; [discriminate|].
    unfold read_path_chunk.
    destruct (nth_error (columns g) pc) as [chunk|] eqn:Hc; [|discriminate].
    destruct chunk as [v|v|v|v|v|v|vals|v|t]; try destruct t; try discriminate;
      try (intros _; exists [], g, groups; eexists; split; [reflexivity|];
           split; [constructor|]; split; [exact Hc|reflexivity]).
    intros H. destruct (IH H) as [pre [g' [rest [chunk [-> [Hpre Hg']]]]]].
    exists (g :: pre), g', rest, chunk. split; [reflexivity|].
    split; [|exact Hg']. constructor; eauto.
  - intros [pre [g [rest [chunk [-> [Hpre [Hc Hty]]]]]]].
    induction Hpre as [|g' pre [vals Hg'] _ IH]; simpl.
    + unfold read_path_chunk. rewrite Hc.
      destruct chunk as [v|v|v|v|v|v|vals|v|t]; try destruct t; trivial;
        discriminate Hty.
    + unfold read_path_chunk at 1. rewrite Hg'. exact IH.
Qed.

(** X6.  [Open] always comes back: it returns a flag, or its behaviour is
    undefined; it raises no exception and the hierarchy walk always ends.
    The flag is [true] exactly when the file opens, has a path column and
    the scan of that column completes.  The behaviour is undefined
    exactly when the file opens, has a path column, and the first row
    group whose chunk of that column is not a byte-array chunk that
    decodes has there a chunk of another physical type, whether or not
    that chunk decodes: its reader is cast to the byte-array reader
    before the batch read is issued. *)
Theorem Open_returns_or_is_undefined (fs : FileSystem) (filePath : string) :
  ((exists b st,
      Open fs filePath ParquetLayerData_new = Returns b st
      /\ (b = true <-> scan_ends_with fs filePath ScanCompletes)
      /\ ~ scan_ends_with fs filePath ScanUndefined)
   \/ (Open fs filePath ParquetLayerData_new = Undefined
       /\ scan_ends_with fs filePath ScanUndefined))
  /\ (scan_ends_with fs filePath ScanUndefined <->
      exists f pc pre g rest chunk,
        fs filePath = Some f
        /\ path_column f = Some pc
        /\ row_groups f = pre ++ g :: rest
        /\ Forall (fun g' => exists vals,
                     nth_error (columns g') pc = Some (ByteArrayChunk vals)) pre
        /\ nth_error (columns g) pc = Some chunk
        /\ ParquetType_eqb (chunk_type chunk) BYTE_ARRAY = false).
Proof.
  split.
  2:{ unfold scan_ends_with. split.
      - intros [f [pc [Hfs [Hpc Hscan]]]]. apply scan_undefined_iff in Hscan.
        destruct Hscan as [pre [g [rest [chunk H]]]].
        exists f, pc, pre, g, rest, chunk. tauto.
      - intros [f [pc [pre [g [rest [chunk [Hfs [Hpc H]]]]]]]].
        exists f, pc. split; trivial. split; trivial.
        apply scan_undefined_iff. exists pre, g, rest, chunk. exact H. }
  unfold scan_ends_with.
  pose proof (Open_outcome fs filePath) as H.
  destruct (fs filePath) as [f|] eqn:Hfs.
  2:{ left. exists false, ParquetLayerData_new. split; trivial. split.
      - split; [discriminate|]. intros [f [pc [Hf _]]]. discriminate Hf.
      - intros [f [pc [Hf _]]]. discriminate Hf. }
  destruct (path_column f) as [pc|] eqn:Hpc.
  2:{ destruct H as [st H]. left. exists false, st. split; trivial. split.
      - split; [discriminate|]. intros [f' [pc [Hf [Hp _]]]]. congruence.
      - intros [f' [pc [Hf [Hp _]]]]. congruence. }
  destruct (scan_outcome pc (row_groups f)) eqn:Hscan.
  - destruct H as [st [H _]]. left. exists true, st. split; trivial. split.
    + split; trivial. intros _. exists f, pc. auto.
    + intros [f' [pc' [Hf [Hp Hs]]]]. congruence.
  - destruct H as [st H]. left. exists false, st. split; trivial. split.
    + split; [discriminate|]. intros [f' [pc' [Hf [Hp Hs]]]]. congruence.
    + intros [f' [pc' [Hf [Hp Hs]]]]. congruence.
  - right. split; trivial. exists f, pc. auto.
Qed.

(** ** [Has] and [Get] on the same path and field *)

(** Decides the comparisons between the field keys of the schema. *)
Ltac eval_keys :=
  repeat match goal with
         | |- context [TfToken_eqb ?a ?b] =>
             let r := eval vm_compute in (TfToken_eqb a b) in
             lazymatch r with
             | true => change (TfToken_eqb a b) with true
             | false => change (TfToken_eqb a b) with false
             end
         end;
  cbn [andb orb].

Ltac key_case field key E :=
  destruct (TfToken_eqb field key) eqn:E;
  [apply TfToken_eqb_eq in E; subst field|].

(** X7.  What [Has] writes is what [Get] returns: when [Has], asked for
    the value, answers [true] and writes [v], then [Get] on the same path
    and field, from the same state, returns [v] and leaves the same state
    behind.  The type name is the one exception: there [Has] writes the
    value type name itself, [Get] returns its token. *)
Theorem Has_writes_what_Get_returns (st st' : ParquetLayerData) (path : SdfPath)
    (field : TfToken) (v : VtValue) :
  Has path field true st = Returns (true, Some v) st' ->
  (field <> SdfFieldKeys.TypeName -> Get path field st = Returns v st')
  /\ (field = SdfFieldKeys.TypeName ->
      exists n, v = VtTypeName n
                /\ Get path field st = Returns (VtToken (GetAsToken n)) st').
Proof.
  unfold Has. unfold bind at 1. unfold get_state.
  destruct (IsPropertyPath path) eqn:Hp.
  - destruct (map_find SdfPath_compare (GetPrimPath path) (_pathIndex st))
      as [loc|] eqn:Hloc; [|discriminate].
    destruct (has_property st (GetNameToken path)) eqn:Hprop; [|discriminate].
    key_case field SdfFieldKeys.Default ED.
    { unfold bind, ret.
      destruct (Get path SdfFieldKeys.Default st) as [val s| | |] eqn:HG;
        try discriminate.
      destruct val; simpl; intros H; inversion H; subst; split;
        try (intros _; reflexivity); intros E; discriminate E. }
    key_case field SdfFieldKeys.TypeName ET.
    { rewrite (Get_TypeName_unfold st path Hp Hloc Hprop).
      unfold bind, ret.
      destruct (load_and_fetch _ _ st) as [block s| | |]; try discriminate.
      destruct (block_type block) as [n|]; [|discriminate].
      intros H. inversion H; subst. split; [congruence|]. eauto. }
    key_case field SdfFieldKeys.Variability EV.
    { unfold ret. intros H. inversion H; subst. split; [intros _|discriminate].
      unfold Get, bind, get_state. eval_keys. now rewrite Hp, Hloc, Hprop. }
    key_case field SdfFieldKeys.Custom EC.
    { unfold ret. intros H. inversion H; subst. split; [intros _|discriminate].
      unfold Get, bind, get_state. eval_keys. now rewrite Hp, Hloc, Hprop. }
    discriminate.
  - key_case field SdfChildrenKeys.PrimChildren EP.
    { cbv beta iota delta [andb].
      destruct (map_count SdfPath_compare path (_childrenMap st)
                || SdfPath_eqb path AbsoluteRootPath).
      - unfold bind, ret.
        destruct (Get path SdfChildrenKeys.PrimChildren st) as [val s| | |];
          try discriminate.
        intros H. inversion H; subst. split; [trivial|discriminate].
      - eval_keys. discriminate. }
    cbv beta iota delta [andb].
    key_case field SdfChildrenKeys.PropertyChildren EC.
    { destruct (map_count SdfPath_compare path (_pathIndex st)) eqn:Hc.
      - unfold ret. intros H. inversion H; subst. split; [intros _|discriminate].
        unfold Get, bind, get_state. eval_keys. now rewrite Hc.
      - eval_keys. discriminate. }
    cbv beta iota delta [andb].
    key_case field SdfFieldKeys.Specifier ES; [|discriminate].
    destruct (set_count SdfPath_compare path (_allPaths st)) eqn:Hc; [|discriminate].
    unfold ret. intros H. inversion H; subst. split; [intros _|discriminate].
    unfold Get, bind, get_state. eval_keys. now rewrite Hc.
Qed.

Lemma Has_writes_what_Get_returns_witness :
  Has (SdfPath_of_string "/A/B.temp") SdfFieldKeys.Default true rows_store
  = Returns (true, Some (VtDouble 45%Z))
      (store_of (Get (SdfPath_of_string "/A/B.temp") SdfFieldKeys.Default rows_store))
  /\ (SdfFieldKeys.Default <> SdfFieldKeys.TypeName ->
      Get (SdfPath_of_string "/A/B.temp") SdfFieldKeys.Default rows_store
      = Returns (VtDouble 45%Z)
          (store_of (Get (SdfPath_of_string "/A/B.temp") SdfFieldKeys.Default
                       rows_store)))
  /\ (SdfFieldKeys.Default = SdfFieldKeys.TypeName ->
      exists n,
        VtDouble 45%Z = VtTypeName n
        /\ Get (SdfPath_of_string "/A/B.temp") SdfFieldKeys.Default rows_store
           = Returns (VtToken (GetAsToken n))
               (store_of (Get (SdfPath_of_string "/A/B.temp") SdfFieldKeys.Default
                            rows_store))).
Proof.
  split; [vm_compute; reflexivity|].
  apply (@Has_writes_what_Get_returns rows_store
           (store_of (Get (SdfPath_of_string "/A/B.temp") SdfFieldKeys.Default
                        rows_store))
           (SdfPath_of_string "/A/B.temp") SdfFieldKeys.Default (VtDouble 45%Z)).
  vm_compute. reflexivity.
Defined.

(** X8.  Where [Has] answers [false], [Get] on the same path and field
    has nothing to give: for a prim path, and for a property path asked
    for one of the four attribute fields, [Has] writes no value and leaves
    the object as it is, and [Get] returns the empty value, or the empty
    array of names when the field is the prim children. *)
Theorem Has_false_means_Get_empty (st st' : ParquetLayerData) (path : SdfPath)
    (field : TfToken) (value : bool) (w : option VtValue) :
  IsPropertyPath path = false
  \/ In field [SdfFieldKeys.Default; SdfFieldKeys.TypeName;
               SdfFieldKeys.Variability; SdfFieldKeys.Custom] ->
  Has path field value st = Returns (false, w) st' ->
  w = None
  /\ Get path field st =
     Returns (if TfToken_eqb field SdfChildrenKeys.PrimChildren
              then VtTokenArray [] else VtEmpty) st'.
Proof.
  intros Hcase. unfold Has. unfold bind at 1. unfold get_state.
  destruct (IsPropertyPath path) eqn:Hp.
  - destruct Hcase as [Hcase|Hfield]; [discriminate Hcase|].
    assert (TfToken_eqb field SdfChildrenKeys.PrimChildren = false
            /\ TfToken_eqb field SdfChildrenKeys.PropertyChildren = false
            /\ TfToken_eqb field SdfFieldKeys.Specifier = false) as [E1 [E2 E3]].
    { simpl in Hfield. destruct Hfield as [<-|[<-|[<-|[<-|[]]]]]; now vm_compute. }
    assert (forall s, Get path field s =
                      match map_find SdfPath_compare (GetPrimPath path) (_pathIndex s) with
                      | Some loc =>
                          if has_property s (GetNameToken path) then
                            if TfToken_eqb field SdfFieldKeys.Default then
                              (block <- load_and_fetch (GetNameToken path) (rowGroup loc) ;;
                               block_element block (rowOffset loc)) s
                            else if TfToken_eqb field SdfFieldKeys.TypeName then
                              (block <- load_and_fetch (GetNameToken path) (rowGroup loc) ;;
                               match block_type block with
                               | Some n => ret (VtToken (GetAsToken n))
                               | None => ret VtEmpty
                               end) s
                            else if TfToken_eqb field SdfFieldKeys.Variability then
                              Returns (VtVariability SdfVariabilityVarying) s
                            else if TfToken_eqb field SdfFieldKeys.Custom then
                              Returns (VtBool false) s
                            else Returns VtEmpty s
                          else Returns VtEmpty s
                      | None => Returns VtEmpty s
                      end) as HGet.
    { intros s. unfold Get. unfold bind at 1. unfold get_state.
      rewrite E1, E2, E3, Hp. cbv beta iota delta [andb].
      destruct (map_find _ _ _); trivial.
      destruct (has_property _ _); trivial.
      repeat (destruct (TfToken_eqb field _); trivial). }
    rewrite HGet, E1.
    destruct (map_find SdfPath_compare (GetPrimPath path) (_pathIndex st))
      as [loc|] eqn:Hloc.
    2:{ unfold ret. intros H. inversion H. now subst. }
    destruct (has_property st (GetNameToken path)) eqn:Hprop.
    2:{ unfold ret. intros H. inversion H. now subst. }
    destruct (TfToken_eqb field SdfFieldKeys.Default) eqn:ED.
    { apply TfToken_eqb_eq in ED. subst field. unfold bind at 1.
      rewrite HGet, Hloc, Hprop.
      change (TfToken_eqb SdfFieldKeys.Default SdfFieldKeys.Default) with true.
      cbv iota.
      destruct ((block <- load_and_fetch (GetNameToken path) (rowGroup loc) ;;
                 block_element block (rowOffset loc)) st) as [val s| | |];
        try discriminate.
      unfold ret.
      destruct val; simpl; intros H; inversion H; subst; auto. }
    destruct (TfToken_eqb field SdfFieldKeys.TypeName) eqn:ET.
    { unfold bind, ret.
      destruct (load_and_fetch _ _ st) as [block s| | |]; try discriminate.
      destruct (block_type block); discriminate. }
    destruct (TfToken_eqb field SdfFieldKeys.Variability); [discriminate|].
    destruct (TfToken_eqb field SdfFieldKeys.Custom); [discriminate|].
    unfold ret. intros H. inversion H. now subst.
  - assert (forall r : VtValue,
              Returns (false, @None VtValue) st = Returns (false, w) st' ->
              Returns r st = Returns r st' /\ w = None) as Hret.
    { intros r H. inversion H. now subst. }
    key_case field SdfChildrenKeys.PrimChildren EP.
    { cbv beta iota delta [andb].
      destruct (map_count SdfPath_compare path (_childrenMap st)
                || SdfPath_eqb path AbsoluteRootPath) eqn:Hc.
      - destruct value; unfold bind, ret; [|discriminate].
        destruct (Get path SdfChildrenKeys.PrimChildren st); discriminate.
      - eval_keys. unfold ret. intros H.
        destruct (Hret (VtTokenArray []) H) as [Hs ->]. split; trivial.
        unfold Get, bind, get_state. eval_keys.
        apply orb_false_iff in Hc. destruct Hc as [Hc _].
        unfold map_count in Hc.
        destruct (map_find SdfPath_compare path (_childrenMap st));
          [discriminate Hc|exact Hs]. }
    cbv beta iota delta [andb].
    key_case field SdfChildrenKeys.PropertyChildren EC.
    { destruct (map_count SdfPath_compare path (_pathIndex st)) eqn:Hc.
      - unfold ret. discriminate.
      - eval_keys. unfold ret. intros H.
        destruct (Hret VtEmpty H) as [Hs ->]. split; trivial.
        unfold Get, bind, get_state. eval_keys. now rewrite Hc, Hp. }
    cbv beta iota delta [andb].
    key_case field SdfFieldKeys.Specifier ES.
    { destruct (set_count SdfPath_compare path (_allPaths st)) eqn:Hc.
      - unfold ret. discriminate.
      - eval_keys. unfold ret. intros H.
        destruct (Hret VtEmpty H) as [Hs ->]. split; trivial.
        unfold Get, bind, get_state. eval_keys. now rewrite Hc, Hp. }
    unfold ret. intros H.
    destruct (Hret VtEmpty H) as [Hs ->]. split; trivial.
    unfold Get, bind, get_state. rewrite EP, EC, ES, Hp. exact Hs.
Qed.

Lemma Has_false_means_Get_empty_witness :
  (IsPropertyPath (SdfPath_of_string "/Nope") = false
   \/ In SdfFieldKeys.Specifier
        [SdfFieldKeys.Default; SdfFieldKeys.TypeName;
         SdfFieldKeys.Variability; SdfFieldKeys.Custom])
  /\ Has (SdfPath_of_string "/Nope") SdfFieldKeys.Specifier true rows_store
     = Returns (false, None) rows_store
  /\ @None VtValue = None
  /\ Get (SdfPath_of_string "/Nope") SdfFieldKeys.Specifier rows_store
     = Returns (if TfToken_eqb SdfFieldKeys.Specifier SdfChildrenKeys.PrimChildren
                then VtTokenArray [] else VtEmpty) rows_store.
Proof.
  split; [left; reflexivity|]. split; [reflexivity|].
  apply (@Has_false_means_Get_empty rows_store rows_store (SdfPath_of_string "/Nope")
           SdfFieldKeys.Specifier true None).
  - left. reflexivity.
  - reflexivity.
Defined.

(** ** [List] and [Has] *)

Lemma bind_get_state (S A : Type) (k : S -> M S A) (s : S) :
  bind get_state k s = k s s.
Proof. reflexivity. Qed.

Lemma In_if_singleton (b : bool) (x y : TfToken) :
  In x (if b then [y] else []) <-> b = true /\ x = y.
Proof.
  destruct b; simpl.
  - split; [intros [H|[]]; auto|intros [_ H]; auto].
  - split; [intros []|intros [H _]; discriminate H].
Qed.

Lemma In_List_prim (st : ParquetLayerData) (path : SdfPath) (field : TfToken) :
  IsPropertyPath path = false ->
  (In field (List_ st path) <->
   (field = SdfChildrenKeys.PrimChildren
    /\ map_count SdfPath_compare path (_childrenMap st)
       || SdfPath_eqb path AbsoluteRootPath = true)
   \/ (field = SdfFieldKeys.Specifier
       /\ set_count SdfPath_compare path (_allPaths st) = true)
   \/ (field = SdfChildrenKeys.PropertyChildren
       /\ map_count SdfPath_compare path (_pathIndex st) = true
       /\ _propertyNames st <> [])).
Proof.
  intros Hp. unfold List_. rewrite Hp, !in_app_iff, !In_if_singleton.
  rewrite andb_true_iff, negb_true_iff.
  assert (match _propertyNames st with [] => true | _ :: _ => false end = false
          <-> _propertyNames st <> []) as ->.
  { destruct (_propertyNames st); split; congruence. }
  intuition congruence.
Qed.

(** X9.  [List] and [Has] name the same fields of a prim path, but for one
    case.  Every field [Has] accepts on a path is listed for it, except
    the property children of a data prim when the file has no column
    besides the path column; and every field listed for a path that is
    not a property path is accepted by [Has], which leaves the object as
    it is. *)
Theorem List_and_Has_agree (st : ParquetLayerData) (path : SdfPath)
    (field : TfToken) (value : bool) :
  (forall w st',
     Has path field value st = Returns (true, w) st' ->
     In field (List_ st path)
     \/ (field = SdfChildrenKeys.PropertyChildren
         /\ Indexed st path /\ _propertyNames st = []))
  /\ (IsPropertyPath path = false ->
      In field (List_ st path) ->
      exists w, Has path field value st = Returns (true, w) st).
Proof.
  destruct (IsPropertyPath path) eqn:Hp.
  - split; [|discriminate]. intros w st'.
    unfold Has, List_. rewrite bind_get_state, Hp.
    destruct (map_find SdfPath_compare (GetPrimPath path) (_pathIndex st));
      [|discriminate].
    destruct (has_property st (GetNameToken path)); [|discriminate].
    key_case field SdfFieldKeys.Default ED; [left; simpl; tauto|].
    key_case field SdfFieldKeys.TypeName ET; [left; simpl; tauto|].
    key_case field SdfFieldKeys.Variability EV; [left; simpl; tauto|].
    key_case field SdfFieldKeys.Custom EC; [left; simpl; tauto|].
    discriminate.
  - pose proof (@In_List_prim st path field Hp) as HL.
    unfold Has. rewrite bind_get_state, Hp. unfold Indexed.
    key_case field SdfChildrenKeys.PrimChildren EP.
    { cbn [andb].
      destruct (map_count SdfPath_compare path (_childrenMap st)
                || SdfPath_eqb path AbsoluteRootPath) eqn:Hc.
      - split; [intros w st' _; left; apply HL; auto|]. intros _ _.
        destruct value; [|unfold ret; eexists; reflexivity].
        unfold Get. unfold bind, ret, get_state. eval_keys.
        destruct (map_find SdfPath_compare path (_childrenMap st)); eauto.
      - eval_keys. split; [discriminate|]. intros _ H. apply HL in H.
        exfalso. intuition discriminate. }
    cbn [andb].
    key_case field SdfChildrenKeys.PropertyChildren EC.
    { destruct (map_count SdfPath_compare path (_pathIndex st)) eqn:Hc.
      - split.
        + intros w st' _. destruct (_propertyNames st) eqn:Hn.
          * right. auto.
          * left. apply HL. right. right. split; trivial. split; trivial.
            discriminate.
        + intros _ _. unfold ret. eexists. reflexivity.
      - eval_keys. split; [discriminate|]. intros _ H. apply HL in H.
        exfalso. intuition discriminate. }
    cbn [andb].
    key_case field SdfFieldKeys.Specifier ES.
    { destruct (set_count SdfPath_compare path (_allPaths st)) eqn:Hc.
      - split; [intros w st' _; left; apply HL; auto|].
        intros _ _. unfold ret. eexists. reflexivity.
      - split; [discriminate|]. intros _ H. apply HL in H.
        exfalso. intuition discriminate. }
    split; [discriminate|]. intros _ H. apply HL in H. exfalso.
    destruct H as [[-> _]|[[-> _]|[-> _]]]; discriminate.
Qed.

(** ** Queries on paths that name no spec *)

Lemma Reachable_structure (fs : FileSystem) (filePath : string)
    (st : ParquetLayerData) :
  Reachable fs filePath st ->
  (forall p, Indexed st p -> InAllNodes st p)
  /\ (forall p, map_count SdfPath_compare p (_childrenMap st) = true ->
                p = AbsoluteRootPath \/ InAllNodes st p).
Proof.
  intros Hreach.
  destruct (Reachable_invariant Hreach)
    as [f [pc [st0 [_ [Hopened [[Hi [Ha [Hc _]]] _]]]]]].
  unfold Indexed, InAllNodes. rewrite Hi, Ha, Hc. split.
  - intros p Hp. apply (Opened_allPaths Hopened). exists p. auto.
  - intros p Hp. now apply (Opened_children_key p Hopened).
Qed.

(** X10.  In every state of an opened store, [Has] finds fields only on
    paths that [HasSpec] accepts: on every other path it answers [false]
    for every field, writes nothing and leaves the object as it is. *)
Theorem Has_finds_fields_only_on_specs (fs : FileSystem) (filePath : string)
    (st : ParquetLayerData) (path : SdfPath) (field : TfToken) (value : bool) :
  Reachable fs filePath st ->
  HasSpec st path = false ->
  Has path field value st = Returns (false, None) st.
Proof.
  intros Hreach. destruct (Reachable_structure Hreach) as [Hidx Hcm].
  unfold HasSpec, Has. rewrite bind_get_state.
  destruct (SdfPath_eqb path AbsoluteRootPath) eqn:Hroot; [discriminate|].
  destruct (IsPropertyPath path).
  - unfold map_count.
    destruct (map_find SdfPath_compare (GetPrimPath path) (_pathIndex st));
      trivial.
    now intros ->.
  - intros Hall.
    assert (map_count SdfPath_compare path (_childrenMap st) = false) as ->.
    { destruct (map_count SdfPath_compare path (_childrenMap st)) eqn:Hc; trivial.
      apply Hcm in Hc. destruct Hc as [->|Hc].
      - discriminate Hroot.
      - unfold InAllNodes in Hc. congruence. }
    assert (map_count SdfPath_compare path (_pathIndex st) = false) as ->.
    { destruct (map_count SdfPath_compare path (_pathIndex st)) eqn:Hc; trivial.
      apply Hidx in Hc. unfold InAllNodes in Hc. congruence. }
    rewrite Hall, !andb_false_r. reflexivity.
Qed.

Lemma Has_finds_fields_only_on_specs_witness :
  Reachable rows_fs "rows.parquet" rows_store
  /\ HasSpec rows_store (SdfPath_of_string "/A/B.pressure") = false
  /\ Has (SdfPath_of_string "/A/B.pressure") SdfFieldKeys.Default true rows_store
     = Returns (false, None) rows_store.
Proof.
  assert (Reachable rows_fs "rows.parquet" rows_store) as Hreach
    by (apply reach_Open; reflexivity).
  split; [exact Hreach|]. split; [reflexivity|].
  apply (@Has_finds_fields_only_on_specs rows_fs "rows.parquet" rows_store
           (SdfPath_of_string "/A/B.pressure") SdfFieldKeys.Default true Hreach).
  reflexivity.
Defined.

(** X11.  In every state of an opened store, a path that is neither the
    root, nor a member of All-Nodes, nor a valid field path has nothing
    to give: [Get] returns the empty value for every field but the prim
    children, for which it returns an empty array of names, and leaves
    the object as it is.  [List] returns no field for such a prim path,
    but still lists the four attribute fields for such a property path. *)
Theorem Get_on_unknown_path (fs : FileSystem) (filePath : string)
    (st : ParquetLayerData) (path : SdfPath) :
  Reachable fs filePath st ->
  ~ has_node_rule st path ->
  (forall field,
     Get path field st =
     Returns (if TfToken_eqb field SdfChildrenKeys.PrimChildren
              then VtTokenArray [] else VtEmpty) st)
  /\ List_ st path =
     (if IsPropertyPath path
      then [SdfFieldKeys.Default; SdfFieldKeys.TypeName;
            SdfFieldKeys.Variability; SdfFieldKeys.Custom]
      else []).
Proof.
  intros Hreach Hno. destruct (Reachable_structure Hreach) as [Hidx Hcm].
  unfold has_node_rule in Hno.
  assert (SdfPath_eqb path AbsoluteRootPath = false) as Hroot.
  { apply SdfPath_eqb_neq. tauto. }
  assert (set_count SdfPath_compare path (_allPaths st) = false) as Hall.
  { destruct (set_count SdfPath_compare path (_allPaths st)) eqn:Hc; trivial.
    exfalso. apply Hno. right. left. exact Hc. }
  assert (map_count SdfPath_compare path (_childrenMap st) = false) as Hchildren.
  { destruct (map_count SdfPath_compare path (_childrenMap st)) eqn:Hc; trivial.
    apply Hcm in Hc. tauto. }
  assert (map_count SdfPath_compare path (_pathIndex st) = false) as Hindex.
  { destruct (map_count SdfPath_compare path (_pathIndex st)) eqn:Hc; trivial.
    apply Hidx in Hc. tauto. }
  split.
  - intros field. unfold Get. rewrite bind_get_state, Hindex, Hall, !andb_false_r.
    destruct (TfToken_eqb field SdfChildrenKeys.PrimChildren).
    { unfold map_count in Hchildren.
      destruct (map_find SdfPath_compare path (_childrenMap st));
        [discriminate Hchildren|reflexivity]. }
    destruct (IsPropertyPath path) eqn:Hp; trivial.
    destruct (map_find SdfPath_compare (GetPrimPath path) (_pathIndex st))
      as [loc|] eqn:Hloc; trivial.
    destruct (has_property st (GetNameToken path)) eqn:Hprop; trivial.
    exfalso. apply Hno. right. right. split; trivial. split.
    + unfold Indexed, map_count. now rewrite Hloc.
    + now apply has_property_In.
  - unfold List_. rewrite Hchildren, Hroot, Hall, Hindex.
    now destruct (IsPropertyPath path).
Qed.

Lemma Get_on_unknown_path_witness :
  Reachable rows_fs "rows.parquet" rows_store
  /\ ~ has_node_rule rows_store (SdfPath_of_string "/A/B.pressure")
  /\ (forall field,
        Get (SdfPath_of_string "/A/B.pressure") field rows_store =
        Returns (if TfToken_eqb field SdfChildrenKeys.PrimChildren
                 then VtTokenArray [] else VtEmpty) rows_store)
  /\ List_ rows_store (SdfPath_of_string "/A/B.pressure") =
     (if IsPropertyPath (SdfPath_of_string "/A/B.pressure")
      then [SdfFieldKeys.Default; SdfFieldKeys.TypeName;
            SdfFieldKeys.Variability; SdfFieldKeys.Custom]
      else []).
Proof.
  assert (Reachable rows_fs "rows.parquet" rows_store) as Hreach
    by (apply reach_Open; reflexivity).
  assert (~ has_node_rule rows_store (SdfPath_of_string "/A/B.pressure")) as Hno.
  { intros [H|[H|[_ [_ H]]]].
    - discriminate H.
    - discriminate H.
    - unfold InFieldCatalog in H. simpl in H. intuition discriminate. }
  split; [exact Hreach|]. split; [exact Hno|].
  exact (@Get_on_unknown_path rows_fs "rows.parquet" rows_store
           (SdfPath_of_string "/A/B.pressure") Hreach Hno).
Defined.

(** ** Path columns that hold prim path text only *)

Lemma split_on_aux_chars (sep : ascii) (P : ascii -> Prop) (s : string) :
  forall acc,
    Forall P (list_ascii_of_string s) ->
    Forall P acc ->
    Forall (fun piece => Forall P (list_ascii_of_string piece))
      (split_on_aux sep s acc).
Proof.
  induction s as [|c rest IH]; intros acc Hs Hacc; simpl.
  - constructor; [|constructor].
    rewrite list_ascii_of_string_of_list_ascii. apply Forall_rev. exact Hacc.
  - simpl in Hs. apply Forall_cons_iff in Hs. destruct Hs as [Hc Hrest].
    destruct (Ascii.eqb c sep).
    + constructor.
      * rewrite list_ascii_of_string_of_list_ascii. apply Forall_rev. exact Hacc.
      * apply IH; [exact Hrest|constructor].
    + apply IH; [exact Hrest|]. constructor; trivial.
Qed.

Lemma split_property_aux_without_dot (s : string) :
  forall acc,
    Forall (fun c => Ascii.eqb c "." = false) (list_ascii_of_string s) ->
    snd (split_property_aux s acc) = None.
Proof.
  induction s as [|c rest IH]; intros acc Hs; simpl; trivial.
  simpl in Hs. apply Forall_cons_iff in Hs. destruct Hs as [Hc Hrest].
  rewrite Hc. now apply IH.
Qed.

Lemma parse_elements_without_dot (isAbs : bool) (body : string) :
  Forall (fun c => Ascii.eqb c "." = false) (list_ascii_of_string body) ->
  IsPropertyPath (parse_elements isAbs body) = false.
Proof.
  intros Hbody. unfold parse_elements.
  pose proof (@split_on_aux_chars "/" _ body [] Hbody (Forall_nil _)) as Hpieces.
  fold (split_on "/" body) in Hpieces. apply Forall_rev in Hpieces.
  destruct (rev (split_on "/" body)) as [|last before]; trivial.
  apply Forall_cons_iff in Hpieces. destruct Hpieces as [Hlast _].
  assert (snd (if String.eqb last SdfPathTokens.parentPathElement
               then (last, None) else split_property last) = None) as Hprop.
  { destruct (String.eqb last SdfPathTokens.parentPathElement); trivial.
    now apply split_property_aux_without_dot. }
  destruct (if String.eqb last SdfPathTokens.parentPathElement
            then (last, None) else split_property last) as [lastPrim prop].
  simpl in Hprop. subst prop.
  now destruct (_ && _).
Qed.

Lemma prim_path_text_without_dot (s : string) :
  prim_path_text s = true ->
  Forall (fun c => Ascii.eqb c "." = false) (list_ascii_of_string s).
Proof.
  unfold prim_path_text. rewrite forallb_forall, Forall_forall.
  intros H c Hc. specialize (H c Hc).
  destruct (Ascii.eqb c ".") eqn:E; trivial.
  apply Ascii.eqb_eq in E. subst c. discriminate H.
Qed.

Lemma prim_path_text_parses_to_prim (s : string) :
  prim_path_text s = true ->
  IsPropertyPath (SdfPath_of_string s) = false.
Proof.
  intros Htext. apply prim_path_text_without_dot in Htext.
  unfold SdfPath_of_string. destruct s as [|c rest]; trivial.
  pose proof Htext as Hall.
  simpl in Htext. apply Forall_cons_iff in Htext. destruct Htext as [Hc Hrest].
  destruct (Ascii.eqb c "/").
  - destruct rest as [|c' rest']; trivial.
    now apply parse_elements_without_dot.
  - rewrite Hc.
    destruct (String.eqb (String c rest) ".") eqn:E; trivial.
    now apply parse_elements_without_dot.
Qed.

Lemma prim_rows_index_prims (fs : FileSystem) (filePath : string) (f : ParquetFile)
    (pc : nat) (st : ParquetLayerData) (k : SdfPath) :
  fs filePath = Some f ->
  Opened f pc st ->
  Forall (fun s => prim_path_text s = true) (path_strings fs filePath) ->
  Indexed st k ->
  IsPropertyPath k = false.
Proof.
  intros Hfs [Hpc [Hscan [Hidx _]]] Htext Hk.
  unfold path_strings in Htext. rewrite Hfs, Hpc in Htext.
  rewrite Forall_forall in Htext.
  unfold Indexed, map_count in Hk.
  destruct (map_find SdfPath_compare k (_pathIndex st)) as [loc|] eqn:Hfind;
    [|discriminate Hk].
  rewrite Hidx, index_groups_find in Hfind by assumption. simpl in Hfind.
  destruct (last_location k (path_rows pc 0 (row_groups f))) as [l|] eqn:Hl;
    [|discriminate].
  destruct (last_location_In _ _ Hl) as [s [Hin [_ <-]]].
  apply prim_path_text_parses_to_prim. apply Htext.
  apply in_map_iff. exists (s, l). auto.
Qed.

(** ** The traversal *)

Section VisitOrder.
Variable S : Type.
Variable VisitSpec : ParquetLayerData -> SdfPath -> S -> bool * S.

Lemma visit_until_declined_app (st : ParquetLayerData) (l1 l2 : list SdfPath) :
  forall s,
    visit_until_declined VisitSpec st (l1 ++ l2) s =
    let '(go, s1) := visit_until_declined VisitSpec st l1 s in
    if go then visit_until_declined VisitSpec st l2 s1 else (false, s1).
Proof.
  induction l1 as [|p l1 IH]; intros s; simpl; trivial.
  destruct (VisitSpec st p s) as [[|] s']; trivial.
Qed.

Lemma visit_properties_order (st : ParquetLayerData) (path : SdfPath)
    (props : list TfToken) :
  forall s,
    visit_properties VisitSpec st path props s =
    visit_until_declined VisitSpec st (map (AppendProperty path) props) s.
Proof.
  induction props as [|prop props IH]; intros s; simpl; trivial.
  destruct (VisitSpec st (AppendProperty path prop) s) as [[|] s']; trivial.
Qed.

Lemma visit_paths_order (st : ParquetLayerData) (paths : list SdfPath) :
  forall s,
    visit_paths VisitSpec st paths s =
    visit_until_declined VisitSpec st (flat_map (visit_order_of st) paths) s.
Proof.
  induction paths as [|path paths IH]; intros s; simpl; trivial.
  destruct (VisitSpec st path s) as [[|] s1]; trivial.
  rewrite visit_until_declined_app.
  destruct (map_count SdfPath_compare path (_pathIndex st)).
  - rewrite visit_properties_order.
    destruct (visit_until_declined VisitSpec st _ s1) as [[|] s2]; trivial.
  - simpl. apply IH.
Qed.

(** X12.  A traversal calls the visitor on the root, then on the members
    of All-Nodes in the iteration order of the set, each data prim
    followed at once by its property paths in Field Catalog order, and
    stops after the first call in which the visitor declines. *)
Theorem VisitSpecs_follows_visit_order (st : ParquetLayerData) (s : S) :
  _VisitSpecs VisitSpec st s =
  snd (visit_until_declined VisitSpec st (visit_order st) s).
Proof.
  unfold _VisitSpecs, visit_order. simpl.
  destruct (VisitSpec st AbsoluteRootPath s) as [[|] s1]; trivial.
  now rewrite visit_paths_order.
Qed.
End VisitOrder.







Lemma NoDup_map_in (A B : Type) (f : A -> B) (l : list A) :
  (forall x y, In x l -> In y l -> f x = f y -> x = y) ->
  NoDup l -> NoDup (map f l).
Proof.
  intros Hinj. induction 1 as [|a l Hnin Hnd IH]; simpl; constructor.
  - intros Hin. apply in_map_iff in Hin. destruct Hin as [x [E Hx]].
    apply Hnin. rewrite <- (Hinj x a); simpl; auto.
  - apply IH. intros x y Hx Hy. apply Hinj; simpl; auto.
Qed.






(** ** [Has] on a stored value *)

Lemma Reachable_open_file (fs : FileSystem) (filePath : string)
    (st : ParquetLayerData) (f : ParquetFile) :
  Reachable fs filePath st ->
  fs filePath = Some f ->
  open_file st = Some f /\ cache_consistent f (_blockCache st).
Proof.
  intros Hreach Hfs.
  destruct (Reachable_invariant Hreach) as [f' [pc [st0 [Hfs' [Hopened [Hs Hc]]]]]].
  assert (f' = f) as -> by congruence.
  split; trivial.
  destruct Hs as [_ [_ [_ [_ Hs]]]]. rewrite Hs. apply Hopened.
Qed.



(** ** Rows beyond the values a batch read delivers *)

Lemma filled_array_beyond (T : Type) (zero : T) (n : nat) (read : list T) (i : nat) :
  i < n -> nth_error read i = None ->
  nth_error (filled_array zero n read) i = Some zero.
Proof.
  intros Hi Hnone. apply nth_error_None in Hnone. unfold filled_array.
  rewrite nth_error_app2 by assumption.
  apply nth_error_repeat. lia.
Qed.

Lemma Reachable_row_offset (fs : FileSystem) (filePath : string)
    (st : ParquetLayerData) (f : ParquetFile) (p : SdfPath) (loc : ParquetLocation)
    (g : RowGroup) :
  Reachable fs filePath st ->
  fs filePath = Some f ->
  map_find SdfPath_compare p (_pathIndex st) = Some loc ->
  nth_error (row_groups f) (rowGroup loc) = Some g ->
  rowOffset loc < num_rows g.
Proof.
  intros Hreach Hfs Hloc Hg.
  destruct (Reachable_invariant Hreach) as [f' [pc [st0 [Hfs' [Hopened [Hs _]]]]]].
  assert (f' = f) as -> by congruence.
  destruct Hs as [Hi _]. rewrite Hi in Hloc.
  destruct (@Opened_index_entry f pc st0 p loc Hopened Hloc)
    as [g' [vals [s [Hg' [_ [Hlt _]]]]]].
  congruence.
Qed.

(** X15.  A row for which the batch read of a column delivered no value
    (the chunk holds fewer values than the row group has rows).  For a
    numeric or boolean column the array was sized by the rows of the row
    group and value-initialised, so the default value reads as zero, or
    [false]; for a string column the array was sized by the values read,
    so the element access is out of range and the behaviour of [Get] is
    undefined. *)
Theorem Get_Default_beyond_the_values_read (fs : FileSystem) (filePath : string)
    (st : ParquetLayerData) (f : ParquetFile) (fp : SdfPath)
    (loc : ParquetLocation) (colIdx : nat) (g : RowGroup) (chunk : ColumnChunk)
    (T : SdfValueTypeName) (arr : VtValue) :
  Reachable fs filePath st ->
  fs filePath = Some f ->
  IsPropertyPath fp = true ->
  map_find SdfPath_compare (GetPrimPath fp) (_pathIndex st) = Some loc ->
  InFieldCatalog st (GetNameToken fp) ->
  field_chunk f (GetNameToken fp) (rowGroup loc) = Some (colIdx, g, chunk) ->
  type_name_of (chunk_type chunk) = Some T ->
  decode_chunk (num_rows g) chunk = Some arr ->
  chunk_value (num_rows g) chunk (rowOffset loc) = None ->
  match zero_value T with
  | Some zero => exists st', Get fp SdfFieldKeys.Default st = Returns zero st'
  | None => Get fp SdfFieldKeys.Default st = Undefined
  end.
Proof.
  intros Hreach Hfs Hp Hloc Hcat Hfc HT Hdec Hv.
  destruct (Reachable_open_file Hreach Hfs) as [Hf Hcons].
  apply has_property_In in Hcat.
  assert (rowOffset loc < num_rows g) as Hlt.
  { pose proof Hfc as Hg. apply field_chunk_Some in Hg. destruct Hg as [Hg _].
    exact (@Reachable_row_offset _ _ _ _ _ _ _ Hreach Hfs Hloc Hg). }
  destruct (@load_and_fetch_decoded st f (GetNameToken fp) (rowGroup loc) colIdx g
              chunk arr Hf Hcons Hfc Hdec) as [s1 [Hrun _]].
  rewrite (Get_Default_unfold st fp Hp Hloc Hcat). unfold bind. rewrite Hrun.
  destruct chunk as [vals|vals|vals|vals|vals|vals|vals|vals|t]; simpl in *;
    try discriminate;
    injection HT as <-; injection Hdec as <-;
    destruct (nth_error (firstn (num_rows g) vals) (rowOffset loc)) eqn:Hx;
    try discriminate Hv; simpl; unfold element;
    try rewrite (filled_array_beyond _ _ Hlt Hx); eauto.
  now rewrite Hx.
Qed.

Lemma Get_Default_beyond_the_values_read_witness :
  Reachable short_fs "short.parquet" short_store
  /\ (exists st', Get (SdfPath_of_string "/B.temp") SdfFieldKeys.Default short_store
                  = Returns (VtDouble 0%Z) st')
  /\ Get (SdfPath_of_string "/B.label") SdfFieldKeys.Default short_store = Undefined.
Proof.
  assert (Reachable short_fs "short.parquet" short_store) as Hreach
    by (apply reach_Open; reflexivity).
  split; [exact Hreach|]. split.
  - apply (@Get_Default_beyond_the_values_read short_fs "short.parquet" short_store
             short_file (SdfPath_of_string "/B.temp")
             {| rowGroup := 0; rowOffset := 1 |} 1
             {| num_rows := 2;
                columns := [ByteArrayChunk ["/A"; "/B"];
                            DoubleChunk [15%Z];
                            ByteArrayChunk ["first"]] |}
             (DoubleChunk [15%Z]) TypeDouble (VtDoubleArray [15%Z; 0%Z]) Hreach);
      try reflexivity.
    left. reflexivity.
  - apply (@Get_Default_beyond_the_values_read short_fs "short.parquet" short_store
             short_file (SdfPath_of_string "/B.label")
             {| rowGroup := 0; rowOffset := 1 |} 2
             {| num_rows := 2;
                columns := [ByteArrayChunk ["/A"; "/B"];
                            DoubleChunk [15%Z];
                            ByteArrayChunk ["first"]] |}
             (ByteArrayChunk ["first"]) TypeString (VtStringArray ["first"]) Hreach);
      try reflexivity.
    right. left. reflexivity.
Defined.

(** ** The answers do not depend on the state of the cache *)

Lemma Opened_same_structure (f : ParquetFile) (pc : nat) (s1 s2 : ParquetLayerData) :
  Opened f pc s1 -> Opened f pc s2 -> same_structure s1 s2.
Proof.
  intros [_ [_ [Hi1 [Hb1 [Hp1 [_ Hf1]]]]]] [_ [_ [Hi2 [Hb2 [Hp2 [_ Hf2]]]]]].
  assert (_pathIndex s2 = _pathIndex s1) as Hi by congruence.
  rewrite Hi in Hb2. rewrite Hb1 in Hb2. injection Hb2 as Ha Hc.
  repeat split; congruence.
Qed.

Lemma Reachable_same_structure (fs : FileSystem) (filePath : string)
    (s1 s2 : ParquetLayerData) :
  Reachable fs filePath s1 -> Reachable fs filePath s2 -> same_structure s1 s2.
Proof.
  intros H1 H2.
  destruct (Reachable_invariant H1) as [f1 [pc1 [a1 [Hfs1 [Ho1 [Hs1 _]]]]]].
  destruct (Reachable_invariant H2) as [f2 [pc2 [a2 [Hfs2 [Ho2 [Hs2 _]]]]]].
  assert (f2 = f1) as -> by congruence.
  assert (pc2 = pc1) as ->.
  { destruct Ho1 as [Hp1 _], Ho2 as [Hp2 _]. congruence. }
  pose proof (Opened_same_structure Ho1 Ho2) as Hs.
  destruct Hs1 as [? [? [? [? ?]]]], Hs2 as [? [? [? [? ?]]]],
    Hs as [? [? [? [? ?]]]].
  repeat split; congruence.
Qed.

Lemma block_element_value (block : VtValue) (i : nat) (s1 s1' s2 s2' : ParquetLayerData)
    (v1 v2 : VtValue) :
  block_element block i s1 = Returns v1 s1' ->
  block_element block i s2 = Returns v2 s2' ->
  v1 = v2.
Proof.
  destruct block; simpl; unfold element, ret;
    try (destruct (nth_error a i)); unfold undefined; congruence.
Qed.

Lemma load_and_fetch_value (fs : FileSystem) (filePath : string)
    (s1 s1' s2 s2' : ParquetLayerData) (field : TfToken) (rg : nat) (b1 b2 : VtValue) :
  Reachable fs filePath s1 -> Reachable fs filePath s2 ->
  load_and_fetch field rg s1 = Returns b1 s1' ->
  load_and_fetch field rg s2 = Returns b2 s2' ->
  b1 = b2.
Proof.
  intros H1 H2 E1 E2.
  destruct (Reachable_invariant H1) as [f [pc [a [Hfs _]]]].
  destruct (Reachable_open_file H1 Hfs) as [Hf1 Hc1].
  destruct (Reachable_open_file H2 Hfs) as [Hf2 Hc2].
  destruct (@load_and_fetch_returns _ _ _ _ _ _ Hf1 Hc1 E1) as [-> _].
  destruct (@load_and_fetch_returns _ _ _ _ _ _ Hf2 Hc2 E2) as [-> _].
  reflexivity.
Qed.

(** X16.  The cache is transparent: in any two states of the same opened
    store, whatever was queried before, [Get] on the same path and field
    returns the same value, and [Has] gives the same answer and writes
    the same value. *)
Theorem answers_do_not_depend_on_the_cache (fs : FileSystem) (filePath : string)
    (s1 s2 : ParquetLayerData) (path : SdfPath) (field : TfToken) :
  Reachable fs filePath s1 ->
  Reachable fs filePath s2 ->
  (forall v1 v2 s1' s2',
     Get path field s1 = Returns v1 s1' ->
     Get path field s2 = Returns v2 s2' ->
     v1 = v2)
  /\ (forall value r1 r2 s1' s2',
        Has path field value s1 = Returns r1 s1' ->
        Has path field value s2 = Returns r2 s2' ->
        r1 = r2).
Proof.
  intros H1 H2.
  destruct (Reachable_same_structure H1 H2) as [Hi [Ha [Hc [Hn _]]]].
  assert (forall name, has_property s2 name = has_property s1 name) as Hprop.
  { intros name. unfold has_property. now rewrite Hn. }
  assert (forall v1 v2 s1' s2',
            Get path field s1 = Returns v1 s1' ->
            Get path field s2 = Returns v2 s2' ->
            v1 = v2) as HGet.
  { intros v1 v2 s1' s2'. unfold Get. rewrite !bind_get_state.
    rewrite Hi, Ha, Hc, Hn, Hprop.
    destruct (TfToken_eqb field SdfChildrenKeys.PrimChildren).
    { destruct (map_find SdfPath_compare path (_childrenMap s1));
        unfold ret; congruence. }
    destruct (_ && _); [unfold ret; congruence|].
    destruct (_ && _); [unfold ret; congruence|].
    destruct (IsPropertyPath path); [|unfold ret; congruence].
    destruct (map_find SdfPath_compare (GetPrimPath path) (_pathIndex s1))
      as [loc|]; [|unfold ret; congruence].
    destruct (has_property s1 (GetNameToken path)); [|unfold ret; congruence].
    destruct (TfToken_eqb field SdfFieldKeys.Default).
    { unfold bind.
      destruct (load_and_fetch _ _ s1) as [b1 t1| | |] eqn:E1; try discriminate.
      destruct (load_and_fetch _ _ s2) as [b2 t2| | |] eqn:E2; try discriminate.
      rewrite (@load_and_fetch_value _ _ _ _ _ _ _ _ _ _ H1 H2 E1 E2).
      apply block_element_value. }
    destruct (TfToken_eqb field SdfFieldKeys.TypeName).
    { unfold bind.
      destruct (load_and_fetch _ _ s1) as [b1 t1| | |] eqn:E1; try discriminate.
      destruct (load_and_fetch _ _ s2) as [b2 t2| | |] eqn:E2; try discriminate.
      rewrite (@load_and_fetch_value _ _ _ _ _ _ _ _ _ _ H1 H2 E1 E2).
      destruct (block_type b2); unfold ret; congruence. }
    repeat (destruct (TfToken_eqb field _); [unfold ret; congruence|]).
    unfold ret; congruence. }
  split; [exact HGet|].
  intros value r1 r2 s1' s2'. unfold Has. rewrite !bind_get_state.
  rewrite Hi, Ha, Hc, Hn, Hprop.
  destruct (IsPropertyPath path).
  - destruct (map_find SdfPath_compare (GetPrimPath path) (_pathIndex s1))
      as [loc|]; [|unfold ret; congruence].
    destruct (has_property s1 (GetNameToken path)); [|unfold ret; congruence].
    destruct (TfToken_eqb field SdfFieldKeys.Default).
    { unfold bind.
      destruct (Get path field s1) as [v1 t1| | |] eqn:E1; try discriminate.
      destruct (Get path field s2) as [v2 t2| | |] eqn:E2; try discriminate.
      rewrite (HGet _ _ _ _ eq_refl eq_refl). unfold ret. congruence. }
    destruct (TfToken_eqb field SdfFieldKeys.TypeName).
    { unfold bind.
      destruct (load_and_fetch _ _ s1) as [b1 t1| | |] eqn:E1; try discriminate.
      destruct (load_and_fetch _ _ s2) as [b2 t2| | |] eqn:E2; try discriminate.
      rewrite (@load_and_fetch_value _ _ _ _ _ _ _ _ _ _ H1 H2 E1 E2).
      destruct (block_type b2); unfold ret; congruence. }
    repeat (destruct (TfToken_eqb field _); [unfold ret; congruence|]).
    unfold ret; congruence.
  - destruct (_ && _).
    { destruct value; [|unfold ret; congruence]. unfold bind.
      destruct (Get path field s1) as [v1 t1| | |] eqn:E1; try discriminate.
      destruct (Get path field s2) as [v2 t2| | |] eqn:E2; try discriminate.
      rewrite (HGet _ _ _ _ eq_refl eq_refl). unfold ret. congruence. }
    destruct (_ && _); [unfold ret; congruence|].
    destruct (_ && _); unfold ret; congruence.
Qed.

Lemma answers_do_not_depend_on_the_cache_witness :
  Reachable rows_fs "rows.parquet" rows_store
  /\ Reachable rows_fs "rows.parquet"
       (store_of (Get (SdfPath_of_string "/A/C.temp") SdfFieldKeys.Default rows_store))
  /\ (forall v1 v2 s1' s2',
        Get (SdfPath_of_string "/A/B.temp") SdfFieldKeys.Default rows_store
        = Returns v1 s1' ->
        Get (SdfPath_of_string "/A/B.temp") SdfFieldKeys.Default
          (store_of (Get (SdfPath_of_string "/A/C.temp") SdfFieldKeys.Default
                       rows_store))
        = Returns v2 s2' ->
        v1 = v2)
  /\ (forall value r1 r2 s1' s2',
        Has (SdfPath_of_string "/A/B.temp") SdfFieldKeys.Default value rows_store
        = Returns r1 s1' ->
        Has (SdfPath_of_string "/A/B.temp") SdfFieldKeys.Default value
          (store_of (Get (SdfPath_of_string "/A/C.temp") SdfFieldKeys.Default
                       rows_store))
        = Returns r2 s2' ->
        r1 = r2).
Proof.
  assert (Reachable rows_fs "rows.parquet" rows_store) as H1
    by (apply reach_Open; reflexivity).
  assert (Reachable rows_fs "rows.parquet"
            (store_of (Get (SdfPath_of_string "/A/C.temp") SdfFieldKeys.Default
                         rows_store))) as H2.
  { apply (@reach_Get rows_fs "rows.parquet" rows_store _
             (SdfPath_of_string "/A/C.temp") SdfFieldKeys.Default (VtDouble 25%Z) H1).
    vm_compute. reflexivity. }
  split; [exact H1|]. split; [exact H2|].
  exact (@answers_do_not_depend_on_the_cache rows_fs "rows.parquet" rows_store _
           (SdfPath_of_string "/A/B.temp") SdfFieldKeys.Default H1 H2).
Defined.

(** ** A column chunk that decodes is read at most once *)

Lemma Get_step (st st' : ParquetLayerData) (path : SdfPath) (field : TfToken)
    (v : VtValue) :
  Get path field st = Returns v st' ->
  st' = st
  \/ exists name rg b,
       has_property st name = true
       /\ load_and_fetch name rg st = Returns b st'.
Proof.
  unfold Get. rewrite bind_get_state.
  assert (forall x, ret x st = Returns v st' -> st' = st) as Hret.
  { unfold ret. intros x H. now injection H as _ <-. }
  destruct (TfToken_eqb field SdfChildrenKeys.PrimChildren).
  { destruct (map_find SdfPath_compare path (_childrenMap st)); left; eauto. }
  destruct (_ && _); [left; eauto|].
  destruct (_ && _); [left; eauto|].
  destruct (IsPropertyPath path); [|left; eauto].
  destruct (map_find SdfPath_compare (GetPrimPath path) (_pathIndex st)) as [loc|];
    [|left; eauto].
  destruct (has_property st (GetNameToken path)) eqn:Hprop; [|left; eauto].
  destruct (TfToken_eqb field SdfFieldKeys.Default).
  { unfold bind. intros H. right.
    destruct (load_and_fetch (GetNameToken path) (rowGroup loc) st)
      as [b s1|s1| |] eqn:Hl; try discriminate H.
    apply block_element_state in H. subst st'. eauto. }
  destruct (TfToken_eqb field SdfFieldKeys.TypeName).
  { unfold bind. intros H. right.
    destruct (load_and_fetch (GetNameToken path) (rowGroup loc) st)
      as [b s1|s1| |] eqn:Hl; try discriminate H.
    destruct (block_type b); unfold ret in H; injection H as _ <-; eauto. }
  destruct (TfToken_eqb field SdfFieldKeys.Variability); [left; eauto|].
  destruct (TfToken_eqb field SdfFieldKeys.Custom); left; eauto.
Qed.

Lemma Has_step (st st' : ParquetLayerData) (path : SdfPath) (field : TfToken)
    (value : bool) (r : bool * option VtValue) :
  Has path field value st = Returns r st' ->
  st' = st
  \/ exists name rg b,
       has_property st name = true
       /\ load_and_fetch name rg st = Returns b st'.
Proof.
  unfold Has. rewrite bind_get_state.
  assert (forall x, ret x st = Returns r st' -> st' = st) as Hret.
  { unfold ret. intros x H. now injection H as _ <-. }
  assert (forall k : VtValue -> bool * option VtValue,
            (val <- Get path field ;; ret (k val)) st = Returns r st' ->
            st' = st
            \/ exists name rg b,
                 has_property st name = true
                 /\ load_and_fetch name rg st = Returns b st') as HGet.
  { intros k. unfold bind. intros H.
    destruct (Get path field st) as [val s1|s1| |] eqn:Hg; try discriminate H.
    unfold ret in H. injection H as _ <-. eapply Get_step. exact Hg. }
  destruct (IsPropertyPath path).
  - destruct (map_find SdfPath_compare (GetPrimPath path) (_pathIndex st)) as [loc|];
      [|left; eauto].
    destruct (has_property st (GetNameToken path)) eqn:Hprop; [|left; eauto].
    destruct (TfToken_eqb field SdfFieldKeys.Default).
    { apply (HGet (fun val => (negb (VtValue_IsEmpty val),
                               if negb (VtValue_IsEmpty val)
                               then (if value then Some val else None)
                               else None))). }
    destruct (TfToken_eqb field SdfFieldKeys.TypeName).
    { unfold bind. intros H. right.
      destruct (load_and_fetch (GetNameToken path) (rowGroup loc) st)
        as [b s1|s1| |] eqn:Hl; try discriminate H.
      destruct (block_type b); unfold ret in H; injection H as _ <-; eauto. }
    destruct (TfToken_eqb field SdfFieldKeys.Variability); [left; eauto|].
    destruct (TfToken_eqb field SdfFieldKeys.Custom); left; eauto.
  - destruct (_ && _).
    { destruct value; [|left; eauto].
      apply (HGet (fun v => (true, Some v))). }
    destruct (_ && _); [left; eauto|].
    destruct (_ && _); left; eauto.
Qed.

Lemma Has_abstract_step (st st' : ParquetLayerData) (path : SdfPath) (field : TfToken)
    (value : bool) (r : bool * option VtValue) :
  Has_abstract path field value st = Returns r st' ->
  st' = st
  \/ exists name rg b,
       has_property st name = true
       /\ load_and_fetch name rg st = Returns b st'.
Proof.
  unfold Has_abstract, bind. intros H.
  destruct (Has path field true st) as [[b w] s1|s1| |] eqn:Hh; try discriminate H.
  destruct b; unfold ret in H; injection H as _ <-; eapply Has_step; exact Hh.
Qed.

Lemma find_column_nth (names : list string) (field : string) :
  forall i c,
    find_column names i field = Some c ->
    i <= c /\ nth_error names (c - i) = Some field.
Proof.
  induction names as [|name names IH]; intros i c; simpl; [discriminate|].
  destruct (String.eqb name field) eqn:E.
  - apply String.eqb_eq in E. subst name. intros H. injection H as <-.
    rewrite Nat.sub_diag. auto.
  - intros H. apply IH in H. destruct H as [Hle Hnth]. split; [lia|].
    replace (c - i) with (S (c - S i)) by lia. exact Hnth.
Qed.

Lemma reads_account_mono (f : ParquetFile) (pc : nat) (st st' : ParquetLayerData)
    (later : list (nat * nat)) :
  reads_account f pc st later ->
  reads st' = reads st ->
  (forall field rg,
     cache_lookup field rg (_blockCache st) <> None ->
     cache_lookup field rg (_blockCache st') <> None) ->
  reads_account f pc st' later.
Proof.
  intros [Hr [Hnd Hin]] Hreads Hmono. split; [congruence|]. split; trivial.
  intros c rg Hc. destruct (Hin c rg Hc) as [field [Hne [Hcol Hlook]]].
  exists field. split; trivial. split; trivial.
  destruct Hlook as [Hlook|Hlook]; auto.
Qed.

Lemma LoadBlock_account (f : ParquetFile) (pc : nat) (st st' : ParquetLayerData)
    (later : list (nat * nat)) (field : TfToken) (rg : nat) :
  open_file st = Some f ->
  field <> "path" ->
  reads_account f pc st later ->
  _LoadBlock field rg st = Returns tt st' ->
  exists later', reads_account f pc st' later'.
Proof.
  intros Hf Hfield Hacc.
  destruct (cache_lookup field rg (_blockCache st)) as [v|] eqn:Hlook.
  { rewrite (LoadBlock_hit _ _ _ Hlook). intros H. injection H as <-. eauto. }
  destruct (open_file_reader st Hf) as [log Hrd].
  rewrite (LoadBlock_miss st field rg Hrd Hlook). cbv zeta.
  assert (reads st = log) as Hlog by (unfold reads; now rewrite Hrd).
  assert (reads_account f pc
            (with_blockCache (snd (cache_count field rg (_blockCache st))) st) later)
    as Hacc1.
  { eapply reads_account_mono; [exact Hacc|reflexivity|].
    intros fd r. simpl. now rewrite cache_count_snd. }
  destruct (nth_error (row_groups f) rg) as [g|] eqn:Hg; [|discriminate].
  destruct (find_column (schema f) 0 field) as [colIdx|] eqn:Hcol.
  2:{ intros H. injection H as <-. eauto. }
  destruct (nth_error (columns g) colIdx) as [chunk|] eqn:Hch; [|discriminate].
  destruct (decode_chunk (num_rows g) chunk) as [v|] eqn:Hdec.
  2:{ destruct (supported_type (chunk_type chunk)); [discriminate|].
      intros H. injection H as <-. eauto. }
  assert (failing_chunk f (colIdx, rg) = false) as Hok.
  { unfold failing_chunk. simpl. rewrite Hg, Hch.
    destruct chunk; trivial. discriminate Hdec. }
  intros H. injection H as <-. exists ((colIdx, rg) :: later).
  destruct Hacc as [Hr [Hnd Hin]]. split; [|split].
  - unfold reads. simpl. rewrite <- Hlog, Hr. reflexivity.
  - simpl. rewrite Hok. simpl. constructor; trivial.
    intros Hc. apply filter_In in Hc. destruct Hc as [Hc _].
    destruct (Hin _ _ Hc) as [field' [_ [Hcol' [Hbad|Hlook']]]]; [congruence|].
    apply find_column_nth in Hcol, Hcol'.
    assert (field' = field) as -> by (destruct Hcol, Hcol'; congruence).
    congruence.
  - intros c r [Hc|Hc].
    + injection Hc as <- <-. exists field. split; trivial. split; trivial.
      right. simpl. rewrite cache_lookup_assign, String.eqb_refl, Nat.eqb_refl.
      discriminate.
    + destruct (Hin _ _ Hc) as [field' [Hne [Hcol' Hlook']]].
      exists field'. split; trivial. split; trivial.
      destruct Hlook' as [Hbad|Hlook']; [now left|right].
      simpl. rewrite cache_lookup_assign.
      destruct (_ && _); [discriminate|]. now rewrite cache_count_snd.
Qed.

Lemma LoadBlock_raises_account (f : ParquetFile) (pc : nat)
    (st st' : ParquetLayerData) (later : list (nat * nat)) (field : TfToken)
    (rg : nat) :
  open_file st = Some f ->
  field <> "path" ->
  reads_account f pc st later ->
  _LoadBlock field rg st = Throws st' ->
  exists later', reads_account f pc st' later'.
Proof.
  intros Hf Hfield Hacc Hrun.
  destruct (@LoadBlock_raises _ _ _ _ _ Hf Hrun) as [_ [_ [Hc Hreads]]].
  assert (forall fd r,
            cache_lookup fd r (_blockCache st) <> None ->
            cache_lookup fd r (_blockCache st') <> None) as Hmono.
  { intros fd r. now rewrite Hc. }
  destruct Hreads as [Hreads|[colIdx [g [t [Hfc [Hsup Hreads]]]]]].
  - exists later. eapply reads_account_mono; eassumption.
  - exists ((colIdx, rg) :: later).
    apply field_chunk_Some in Hfc. destruct Hfc as [Hg [Hcol Hch]].
    assert (failing_chunk f (colIdx, rg) = true) as Hbad.
    { unfold failing_chunk. simpl. now rewrite Hg, Hch. }
    destruct Hacc as [Hr [Hnd Hin]]. split; [|split].
    + rewrite Hreads, Hr. reflexivity.
    + simpl. rewrite Hbad. exact Hnd.
    + intros c r [Hin'|Hin'].
      * injection Hin' as <- <-. exists field. auto.
      * destruct (Hin _ _ Hin') as [field' [Hne [Hcol' Hlook']]].
        exists field'. split; trivial. split; trivial.
        destruct Hlook' as [H|H]; auto.
Qed.

Lemma load_and_fetch_account (f : ParquetFile) (pc : nat) (st st' : ParquetLayerData)
    (later : list (nat * nat)) (field : TfToken) (rg : nat) (b : VtValue) :
  open_file st = Some f ->
  field <> "path" ->
  reads_account f pc st later ->
  load_and_fetch field rg st = Returns b st' ->
  exists later', reads_account f pc st' later'.
Proof.
  intros Hf Hfield Hacc Hrun.
  destruct (_LoadBlock field rg st) as [[] s1|s1| |] eqn:Hload;
    try (unfold load_and_fetch, bind in Hrun; rewrite Hload in Hrun;
         discriminate Hrun).
  rewrite (@load_and_fetch_after _ _ _ _ Hload) in Hrun. injection Hrun as _ <-.
  destruct (@LoadBlock_account _ _ _ _ _ _ _ Hf Hfield Hacc Hload)
    as [later' Hacc'].
  exists later'. eapply reads_account_mono; [exact Hacc'|reflexivity|].
  intros fd r. simpl. rewrite cache_subscript_snd.
  destruct (cache_lookup fd r (_blockCache s1)); [discriminate|congruence].
Qed.

Lemma catalog_without_path (f : ParquetFile) : ~ In "path" (field_catalog f).
Proof.
  unfold field_catalog. rewrite scan_columns_props. simpl.
  rewrite filter_In. intros [_ H]. discriminate H.
Qed.

Lemma Reachable_property_name (fs : FileSystem) (filePath : string)
    (st : ParquetLayerData) (name : TfToken) :
  Reachable fs filePath st ->
  has_property st name = true ->
  name <> "path".
Proof.
  intros Hs Hprop ->. apply has_property_In in Hprop.
  destruct (Reachable_invariant Hs)
    as [f [pc [st0 [Hfs [Hopened [[_ [_ [_ [Hn _]]]] _]]]]]].
  destruct Hopened as [_ [_ [_ [_ [Hcat _]]]]].
  unfold InFieldCatalog in Hprop. rewrite Hn, Hcat in Hprop.
  now apply catalog_without_path in Hprop.
Qed.

Lemma Reachable_reads (fs : FileSystem) (filePath : string) (st : ParquetLayerData) :
  Reachable fs filePath st ->
  exists f pc later,
    fs filePath = Some f /\ path_column f = Some pc
    /\ reads_account f pc st later.
Proof.
  intros Hreach.
  assert (forall s s',
            Reachable fs filePath s ->
            (exists f pc later,
               fs filePath = Some f /\ path_column f = Some pc
               /\ reads_account f pc s later) ->
            s' = s
            \/ (exists name rg b,
                  has_property s name = true
                  /\ load_and_fetch name rg s = Returns b s') ->
            exists f pc later,
              fs filePath = Some f /\ path_column f = Some pc
              /\ reads_account f pc s' later) as Hstep.
  { intros s s' Hs IH [->|[name [rg [b [Hprop Hrun]]]]]; trivial.
    destruct IH as [f [pc [later [Hfs [Hpc Hacc]]]]].
    destruct (Reachable_open_file Hs Hfs) as [Hf _].
    pose proof (Reachable_property_name Hs Hprop) as Hname.
    destruct (@load_and_fetch_account _ _ _ _ _ _ _ _ Hf Hname Hacc Hrun)
      as [later' Hacc'].
    exists f, pc, later'. auto. }
  assert (forall s s',
            Reachable fs filePath s ->
            (exists f pc later,
               fs filePath = Some f /\ path_column f = Some pc
               /\ reads_account f pc s later) ->
            (exists name rg,
               has_property s name = true /\ _LoadBlock name rg s = Throws s') ->
            exists f pc later,
              fs filePath = Some f /\ path_column f = Some pc
              /\ reads_account f pc s' later) as Hraise.
  { intros s s' Hs IH [name [rg [Hprop Hrun]]].
    destruct IH as [f [pc [later [Hfs [Hpc Hacc]]]]].
    destruct (Reachable_open_file Hs Hfs) as [Hf _].
    pose proof (Reachable_property_name Hs Hprop) as Hname.
    destruct (@LoadBlock_raises_account _ _ _ _ _ _ _ Hf Hname Hacc Hrun)
      as [later' Hacc'].
    exists f, pc, later'. auto. }
  induction Hreach as [st Hopen|st st' path field v Hs IH Hrun
                      |st st' path field value r Hs IH Hrun
                      |st st' path field value r Hs IH Hrun
                      |st st' m Hs IH Hrun
                      |st st' path field Hs IH Hrun
                      |st st' path field value Hs IH Hrun
                      |st st' path field value Hs IH Hrun].
  - destruct (Open_reads _ _ Hopen) as [f [pc [Hfs [Hpc Hreads]]]].
    exists f, pc, []. split; trivial. split; trivial.
    split; [exact Hreads|]. split; [constructor|]. intros c rg [].
  - apply (Hstep st st' Hs IH). eapply Get_step. exact Hrun.
  - apply (Hstep st st' Hs IH). eapply Has_step. exact Hrun.
  - apply (Hstep st st' Hs IH). eapply Has_abstract_step. exact Hrun.
  - rewrite call_is_noop in Hrun. injection Hrun as <-. exact IH.
  - apply (Hraise st st' Hs IH). eapply Get_raises. exact Hrun.
  - apply (Hraise st st' Hs IH). eapply Has_raises. exact Hrun.
  - apply (Hraise st st' Hs IH). eapply Has_abstract_raises. exact Hrun.
Qed.

(** X17.  Over the whole life of an opened store, calls that raise
    included, no column chunk that decodes is read twice.  The read log
    of every state reached by any calls of the queries and mutators ends
    with the reads of the path column made by [Open], one per row group;
    every read made after [Open] is of another column; and the log has
    no repeated entry among the chunks that decode.  Only a chunk that
    fails to decode can occur in it more than once. *)
Theorem no_chunk_that_decodes_is_read_twice (fs : FileSystem) (filePath : string)
    (st : ParquetLayerData) :
  Reachable fs filePath st ->
  exists f pc later,
    fs filePath = Some f /\ path_column f = Some pc
    /\ reads st = later ++ open_reads f pc
    /\ (forall c rg, In (c, rg) later -> c <> pc)
    /\ NoDup (filter (fun r => negb (failing_chunk f r)) (reads st))
    /\ ((forall r, In r (reads st) -> failing_chunk f r = false) ->
        NoDup (reads st)).
Proof.
  intros Hreach.
  destruct (Reachable_reads Hreach) as [f [pc [later [Hfs [Hpc [Hr [Hnd Hin]]]]]]].
  assert (forall c rg, In (c, rg) later -> c <> pc) as Hother.
  { intros c rg Hc ->. destruct (Hin _ _ Hc) as [field [Hne [Hcol _]]].
    apply find_column_nth in Hcol. destruct Hcol as [_ Hcol].
    rewrite Nat.sub_0_r in Hcol.
    pose proof Hpc as Hlast. unfold path_column in Hlast.
    apply scan_columns_last_path in Hlast.
    destruct Hlast as [[H _]|[_ [Hnth _]]]; [discriminate|].
    rewrite Nat.sub_0_r in Hnth. congruence. }
  assert (NoDup (filter (fun r => negb (failing_chunk f r)) (reads st))) as Hnodup.
  { rewrite Hr, filter_app. apply NoDup_app; trivial.
    - apply NoDup_filter. unfold open_reads. apply NoDup_rev. apply NoDup_map_in.
      + intros x y _ _ E. now injection E.
      + apply seq_NoDup.
    - intros [c rg] Hc Hc'. apply filter_In in Hc, Hc'.
      destruct Hc as [Hc _], Hc' as [Hc' _]. unfold open_reads in Hc'.
      apply in_rev, in_map_iff in Hc'. destruct Hc' as [x [E _]].
      injection E as <- _. now apply (Hother _ _ Hc). }
  exists f, pc, later. split; trivial. split; trivial. split; trivial.
  split; trivial. split; trivial.
  intros Hgood.
  assert (filter (fun r => negb (failing_chunk f r)) (reads st) = reads st) as E.
  { apply forallb_filter_id. apply forallb_forall. intros r Hin'.
    now rewrite (Hgood r Hin'). }
  now rewrite E in Hnodup.
Qed.

Lemma no_chunk_that_decodes_is_read_twice_witness :
  Reachable bad_values_fs "bad.parquet"
    (store_of (Get (SdfPath_of_string "/A.temp") SdfFieldKeys.Default
                 (store_of (Get (SdfPath_of_string "/A.temp") SdfFieldKeys.Default
                              bad_values_store))))
  /\ reads (store_of (Get (SdfPath_of_string "/A.temp") SdfFieldKeys.Default
                        (store_of (Get (SdfPath_of_string "/A.temp")
                                     SdfFieldKeys.Default bad_values_store))))
     = [(1, 0); (1, 0); (0, 0)]
  /\ exists f pc later,
       bad_values_fs "bad.parquet" = Some f /\ path_column f = Some pc
       /\ reads (store_of (Get (SdfPath_of_string "/A.temp") SdfFieldKeys.Default
                             (store_of (Get (SdfPath_of_string "/A.temp")
                                          SdfFieldKeys.Default bad_values_store))))
          = later ++ open_reads f pc
       /\ (forall c rg, In (c, rg) later -> c <> pc)
       /\ NoDup (filter (fun r => negb (failing_chunk f r))
                   (reads (store_of (Get (SdfPath_of_string "/A.temp")
                                       SdfFieldKeys.Default
                                       (store_of (Get (SdfPath_of_string "/A.temp")
                                                    SdfFieldKeys.Default
                                                    bad_values_store))))))
       /\ ((forall r,
              In r (reads (store_of (Get (SdfPath_of_string "/A.temp")
                                       SdfFieldKeys.Default
                                       (store_of (Get (SdfPath_of_string "/A.temp")
                                                    SdfFieldKeys.Default
                                                    bad_values_store))))) ->
              failing_chunk f r = false) ->
           NoDup (reads (store_of (Get (SdfPath_of_string "/A.temp")
                                     SdfFieldKeys.Default
                                     (store_of (Get (SdfPath_of_string "/A.temp")
                                                  SdfFieldKeys.Default
                                                  bad_values_store)))))).
Proof.
  assert (Reachable bad_values_fs "bad.parquet"
            (store_of (Get (SdfPath_of_string "/A.temp") SdfFieldKeys.Default
                         (store_of (Get (SdfPath_of_string "/A.temp")
                                      SdfFieldKeys.Default bad_values_store)))))
    as Hreach.
  { apply (@reach_Get_raises bad_values_fs "bad.parquet"
             (store_of (Get (SdfPath_of_string "/A.temp") SdfFieldKeys.Default
                          bad_values_store)) _
             (SdfPath_of_string "/A.temp") SdfFieldKeys.Default).
    - apply (@reach_Get_raises bad_values_fs "bad.parquet" bad_values_store _
               (SdfPath_of_string "/A.temp") SdfFieldKeys.Default).
      + apply reach_Open. reflexivity.
      + vm_compute. reflexivity.
    - vm_compute. reflexivity. }
  split; [exact Hreach|]. split; [reflexivity|].
  exact (@no_chunk_that_decodes_is_read_twice bad_values_fs "bad.parquet" _ Hreach).
Defined.

(** ** [ParquetFileFormat::Read] *)

(** X18.  [Read] succeeds exactly when the file opens, has a path column
    and the scan of that column completes.  The layer it leaves then
    holds the store [Open] built from the file and can be neither saved
    nor edited, whatever its permissions were.  [Read] raises no
    exception. *)
Theorem Read_installs_the_opened_store (fs : FileSystem) (resolvedPath : string)
    (layer : SdfLayer) :
  ((exists layer', Read fs resolvedPath layer = Returns true layer') <->
   scan_ends_with fs resolvedPath ScanCompletes)
  /\ (forall layer',
        Read fs resolvedPath layer = Returns true layer' ->
        permissionToSave layer' = false
        /\ permissionToEdit layer' = false
        /\ exists data,
             layer_data layer' = Some data
             /\ Open fs resolvedPath ParquetLayerData_new = Returns true data
             /\ Reachable fs resolvedPath data)
  /\ (forall layer', Read fs resolvedPath layer <> Throws layer').
Proof.
  unfold Read, scan_ends_with.
  pose proof (Open_outcome fs resolvedPath) as H.
  split; [|split].
  - destruct (fs resolvedPath) as [f|] eqn:Hfs.
    2:{ rewrite H. split; [intros [l E]; discriminate E|].
        intros [f [pc [E _]]]. discriminate E. }
    destruct (path_column f) as [pc|] eqn:Hpc.
    2:{ destruct H as [st ->]. split; [intros [l E]; discriminate E|].
        intros [f' [pc [E [E' _]]]]. congruence. }
    destruct (scan_outcome pc (row_groups f)) eqn:Hscan.
    + destruct H as [st [-> _]]. split; [|eauto].
      intros _. exists f, pc. auto.
    + destruct H as [st ->]. split; [intros [l E]; discriminate E|].
      intros [f' [pc' [E [E' E'']]]]. congruence.
    + rewrite H. split; [intros [l E]; discriminate E|].
      intros [f' [pc' [E [E' E'']]]]. congruence.
  - intros layer'.
    destruct (Open fs resolvedPath ParquetLayerData_new) as [[|] data|s| |] eqn:Hopen;
      try discriminate.
    intros E. injection E as <-. simpl. split; trivial. split; trivial.
    exists data. split; trivial. split; trivial. now apply reach_Open.
  - intros layer'.
    destruct (Open fs resolvedPath ParquetLayerData_new) as [[|] data|s| |] eqn:Hopen;
      try discriminate.
    exfalso. destruct (fs resolvedPath) as [f|]; [|discriminate H].
    destruct (path_column f) as [pc|].
    + destruct (scan_outcome pc (row_groups f)).
      * destruct H as [st [H _]]. discriminate H.
      * destruct H as [st H]. discriminate H.
      * discriminate H.
    + destruct H as [st H]. discriminate H.
Qed.

(** ** A column chunk that fails to decode *)

Lemma queries_on_failing_chunk (st : ParquetLayerData) (f : ParquetFile)
    (fp : SdfPath) (loc : ParquetLocation) (colIdx : nat) (g : RowGroup)
    (t : ParquetType) :
  open_file st = Some f ->
  IsPropertyPath fp = true ->
  map_find SdfPath_compare (GetPrimPath fp) (_pathIndex st) = Some loc ->
  InFieldCatalog st (GetNameToken fp) ->
  field_chunk f (GetNameToken fp) (rowGroup loc) = Some (colIdx, g, CorruptChunk t) ->
  supported_type t = true ->
  cache_lookup (GetNameToken fp) (rowGroup loc) (_blockCache st) = None ->
  exists s1,
    Get fp SdfFieldKeys.Default st = Throws s1
    /\ Get fp SdfFieldKeys.TypeName st = Throws s1
    /\ (forall value, Has fp SdfFieldKeys.Default value st = Throws s1)
    /\ (forall value, Has fp SdfFieldKeys.TypeName value st = Throws s1)
    /\ reads s1 = (colIdx, rowGroup loc) :: reads st
    /\ open_file s1 = Some f
    /\ _pathIndex s1 = _pathIndex st
    /\ _propertyNames s1 = _propertyNames st
    /\ cache_lookup (GetNameToken fp) (rowGroup loc) (_blockCache s1) = None.
Proof.
  intros Hf Hp Hloc Hcat Hfc Hsup Hlook.
  apply has_property_In in Hcat.
  destruct (open_file_reader st Hf) as [log Hrd].
  pose proof (LoadBlock_miss st (GetNameToken fp) (rowGroup loc) Hrd Hlook) as Hload.
  cbv zeta in Hload.
  pose proof Hfc as Hfc'. apply field_chunk_Some in Hfc'.
  destruct Hfc' as [Hg [Hcol Hch]].
  rewrite Hg, Hcol, Hch in Hload. simpl in Hload. rewrite Hsup in Hload.
  set (s1 := with_reader
               (Some {| reader_file := f;
                        batch_reads := (colIdx, rowGroup loc) :: log |})
               (with_blockCache
                  (snd (cache_count (GetNameToken fp) (rowGroup loc) (_blockCache st)))
                  st)) in *.
  assert (load_and_fetch (GetNameToken fp) (rowGroup loc) st = Throws s1) as Hrun.
  { unfold load_and_fetch, bind. now rewrite Hload. }
  assert (Get fp SdfFieldKeys.Default st = Throws s1) as HgetD.
  { rewrite (Get_Default_unfold st fp Hp Hloc Hcat). unfold bind. now rewrite Hrun. }
  exists s1. split; [exact HgetD|]. split.
  { rewrite (Get_TypeName_unfold st fp Hp Hloc Hcat). unfold bind. now rewrite Hrun. }
  split.
  { intros value. unfold Has. rewrite bind_get_state, Hp, Hloc, Hcat. eval_keys.
    unfold bind. now rewrite HgetD. }
  split.
  { intros value. unfold Has. rewrite bind_get_state, Hp, Hloc, Hcat. eval_keys.
    unfold bind. now rewrite Hrun. }
  split.
  { unfold reads. simpl. now rewrite Hrd. }
  split; [reflexivity|]. split; [reflexivity|]. split; [reflexivity|].
  simpl. now rewrite cache_count_snd.
Qed.

(** X19.  A column chunk that fails to decode is not handled by the
    queries: [Get] and [Has], asked for the default value or the type
    name of a field path over such a chunk, raise the reader's exception
    after the batch read was issued.  Nothing is cached for the pair, so
    the next query issues the same read and raises again. *)
Theorem failing_chunk_raises_and_is_read_again (st : ParquetLayerData)
    (f : ParquetFile) (fp : SdfPath) (loc : ParquetLocation) (colIdx : nat)
    (g : RowGroup) (t : ParquetType) :
  open_file st = Some f ->
  IsPropertyPath fp = true ->
  map_find SdfPath_compare (GetPrimPath fp) (_pathIndex st) = Some loc ->
  InFieldCatalog st (GetNameToken fp) ->
  field_chunk f (GetNameToken fp) (rowGroup loc) = Some (colIdx, g, CorruptChunk t) ->
  supported_type t = true ->
  cache_lookup (GetNameToken fp) (rowGroup loc) (_blockCache st) = None ->
  exists s1 s2,
    Get fp SdfFieldKeys.Default st = Throws s1
    /\ Get fp SdfFieldKeys.TypeName st = Throws s1
    /\ (forall value, Has fp SdfFieldKeys.Default value st = Throws s1)
    /\ (forall value, Has fp SdfFieldKeys.TypeName value st = Throws s1)
    /\ reads s1 = (colIdx, rowGroup loc) :: reads st
    /\ Get fp SdfFieldKeys.Default s1 = Throws s2
    /\ reads s2 = (colIdx, rowGroup loc) :: (colIdx, rowGroup loc) :: reads st.
Proof.
  intros Hf Hp Hloc Hcat Hfc Hsup Hlook.
  destruct (queries_on_failing_chunk st fp Hf Hp Hloc Hcat Hfc Hsup Hlook)
    as [s1 [HgD [HgT [HhD [HhT [Hr [Hf1 [Hi1 [Hn1 Hl1]]]]]]]]].
  assert (map_find SdfPath_compare (GetPrimPath fp) (_pathIndex s1) = Some loc)
    as Hloc1 by now rewrite Hi1.
  assert (InFieldCatalog s1 (GetNameToken fp)) as Hcat1.
  { unfold InFieldCatalog. now rewrite Hn1. }
  destruct (queries_on_failing_chunk s1 fp Hf1 Hp Hloc1 Hcat1 Hfc Hsup Hl1)
    as [s2 [HgD2 [_ [_ [_ [Hr2 _]]]]]].
  exists s1, s2. rewrite Hr in Hr2. auto 10.
Qed.

Lemma failing_chunk_raises_and_is_read_again_witness :
  exists s1 s2,
    Get (SdfPath_of_string "/A.temp") SdfFieldKeys.Default bad_values_store
    = Throws s1
    /\ Get (SdfPath_of_string "/A.temp") SdfFieldKeys.TypeName bad_values_store
       = Throws s1
    /\ (forall value,
          Has (SdfPath_of_string "/A.temp") SdfFieldKeys.Default value bad_values_store
          = Throws s1)
    /\ (forall value,
          Has (SdfPath_of_string "/A.temp") SdfFieldKeys.TypeName value bad_values_store
          = Throws s1)
    /\ reads s1 = (1, 0) :: reads bad_values_store
    /\ Get (SdfPath_of_string "/A.temp") SdfFieldKeys.Default s1 = Throws s2
    /\ reads s2 = (1, 0) :: (1, 0) :: reads bad_values_store.
Proof.
  apply (@failing_chunk_raises_and_is_read_again bad_values_store bad_values_file
           (SdfPath_of_string "/A.temp") {| rowGroup := 0; rowOffset := 0 |} 1
           {| num_rows := 1;
              columns := [ByteArrayChunk ["/A"]; CorruptChunk DOUBLE] |} DOUBLE);
    try reflexivity.
  left. reflexivity.
Defined.

(** ** [Open] on a store that was opened before *)

Lemma Open_unfold_any (fs : FileSystem) (filePath : string) (f : ParquetFile)
    (st : ParquetLayerData) :
  fs filePath = Some f ->
  Open fs filePath st =
  let st1 := with_propertyNames (field_catalog f)
               (with_reader (Some {| reader_file := f; batch_reads := [] |}) st) in
  match path_column f with
  | None => Returns false st1
  | Some pc =>
      match for_each (seq 0 (List.length (row_groups f))) (index_row_group pc) st1 with
      | Returns _ st2 =>
          match build_hierarchy (_pathIndex st2) [] [] with
          | Some (a, c) => Returns true (with_hierarchy a c st2)
          | None => Diverges
          end
      | Throws s => Returns false s
      | Undefined => Undefined
      | Diverges => Diverges
      end
  end.
Proof.
  intros Hfs.
  unfold Open, _BuildPathHierarchy, try_catch, OpenFile. rewrite Hfs.
  unfold bind, ret, modify, get_state, put_state, diverge, path_column, field_catalog.
  cbn [reader_file].
  destruct (scan_columns (schema f) 0 None []) as [[pc|] props]; simpl; trivial.
  destruct (for_each _ _ _) as [[] st2|s| |]; trivial.
  destruct (build_hierarchy (_pathIndex st2) [] []) as [[a c]|]; trivial.
Qed.

(** X20.  [Open] resets the property names and the hierarchy, but neither
    the path index nor the block cache.  Called on a store that was
    opened before, it leaves every path of the earlier index that the new
    file does not name again indexed at its old location, and it leaves
    the blocks cached from the earlier file in the cache. *)
Theorem Open_keeps_the_index_and_the_cache (fs : FileSystem) (filePath : string)
    (st st' : ParquetLayerData) :
  Open fs filePath st = Returns true st' ->
  exists f pc,
    fs filePath = Some f /\ path_column f = Some pc
    /\ (forall p,
          map_find SdfPath_compare p (_pathIndex st') =
          match last_location p (path_rows pc 0 (row_groups f)) with
          | Some l => Some l
          | None => map_find SdfPath_compare p (_pathIndex st)
          end)
    /\ _blockCache st' = _blockCache st
    /\ _propertyNames st' = field_catalog f
    /\ build_hierarchy (_pathIndex st') [] [] = Some (_allPaths st', _childrenMap st').
Proof.
  intros Hopen.
  destruct (fs filePath) as [f|] eqn:Hfs.
  2:{ unfold Open, try_catch, OpenFile, bind in Hopen. rewrite Hfs in Hopen.
      discriminate Hopen. }
  rewrite (Open_unfold_any _ _ st Hfs) in Hopen. cbv zeta in Hopen.
  destruct (path_column f) as [pc|] eqn:Hpc; [|discriminate Hopen].
  exists f, pc. split; trivial. split; trivial.
  set (st1 := with_propertyNames (field_catalog f)
                (with_reader (Some {| reader_file := f; batch_reads := [] |}) st))
    in *.
  pose proof (@index_loop f pc (row_groups f) [] st1 eq_refl eq_refl) as Hloop.
  simpl in Hloop.
  destruct (scan_outcome pc (row_groups f)) eqn:Hscan.
  - destruct Hloop as [st2 [Hrun [Hidx [Hprops [Hcache Hf]]]]].
    rewrite Hrun in Hopen.
    destruct (build_hierarchy (_pathIndex st2) [] []) as [[a c]|] eqn:Hbuild;
      [|discriminate Hopen].
    injection Hopen as <-. simpl.
    split; [|split; [exact Hcache|split; [exact Hprops|exact Hbuild]]].
    intros p. rewrite Hidx. now apply index_groups_find.
  - destruct Hloop as [s Hrun]. rewrite Hrun in Hopen. discriminate Hopen.
  - rewrite Hloop in Hopen. discriminate Hopen.
Qed.

Lemma Open_keeps_the_index_and_the_cache_witness :
  Open order_fs "order.parquet" unsupported_store
  = Returns true (store_of (Open order_fs "order.parquet" unsupported_store))
  /\ exists f pc,
       order_fs "order.parquet" = Some f /\ path_column f = Some pc
       /\ (forall p,
             map_find SdfPath_compare p
               (_pathIndex (store_of (Open order_fs "order.parquet" unsupported_store))) =
             match last_location p (path_rows pc 0 (row_groups f)) with
             | Some l => Some l
             | None => map_find SdfPath_compare p (_pathIndex unsupported_store)
             end)
       /\ _blockCache (store_of (Open order_fs "order.parquet" unsupported_store))
          = _blockCache unsupported_store
       /\ _propertyNames (store_of (Open order_fs "order.parquet" unsupported_store))
          = field_catalog f
       /\ build_hierarchy
            (_pathIndex (store_of (Open order_fs "order.parquet" unsupported_store))) [] []
          = Some (_allPaths (store_of (Open order_fs "order.parquet" unsupported_store)),
                  _childrenMap (store_of (Open order_fs "order.parquet" unsupported_store))).
Proof.
  split; [vm_compute; reflexivity|].
  apply (@Open_keeps_the_index_and_the_cache order_fs "order.parquet" unsupported_store
           (store_of (Open order_fs "order.parquet" unsupported_store))).
  vm_compute. reflexivity.
Defined.

(** ** The order of the children *)

Lemma list_compare_common_prefix (p a b : list string) :
  list_compare String.compare (p ++ a) (p ++ b) = list_compare String.compare a b.
Proof.
  induction p as [|x p IH]; simpl; trivial.
  assert (String.compare x x = Eq) as -> by now apply String_compare_eq_iff.
  exact IH.
Qed.

Lemma ancestor_or_self_suffix (c k : SdfPath) :
  StrictAncestor c k ->
  IsAbsolutePath k = true -> IsPropertyPath k = false ->
  exists pre cp kp,
    k = MkPath true kp None /\ c = MkPath true cp None /\ kp = pre ++ cp.
Proof.
  induction 1 as [p Hne|a p Hne Hanc IH]; intros Habs Hprop;
    destruct p as [|[|] [|x rest] [prop|]]; try discriminate;
    try (exfalso; now apply Hne).
  - exists [x], rest, (x :: rest). auto.
  - destruct (IH eq_refl eq_refl) as [pre [cp [kp [Hk [Hc Hkp]]]]].
    simpl in Hk. injection Hk as <-.
    exists (x :: pre), cp, (x :: rest). subst rest. auto.
Qed.

Lemma registration_shape (parent : SdfPath) (name : TfToken) (k : SdfPath) :
  IsAbsolutePath k = true -> IsPropertyPath k = false ->
  In (parent, name) (registrations (GetPathElementCount k) k) ->
  exists pre pp,
    k = MkPath true (pre ++ name :: pp) None /\ parent = MkPath true pp None.
Proof.
  intros Habs Hprop Hin.
  apply In_registrations in Hin; [|assumption|lia].
  destruct Hin as [c [Hne [Hc [Hpar Hname]]]].
  assert (exists pre cp kp,
             k = MkPath true kp None /\ c = MkPath true cp None /\ kp = pre ++ cp)
    as [pre [cp [kp [Hk [Hcp Hkp]]]]].
  { destruct Hc as [->|Hc].
    - destruct k as [|[|] kp [prop|]]; try discriminate.
      exists [], kp, kp. auto.
    - now apply ancestor_or_self_suffix. }
  subst c kp. destruct cp as [|x pp]; [exfalso; now apply Hne|].
  simpl in Hpar, Hname. subst parent name. exists pre, pp. auto.
Qed.

(** Of two indexed prim paths below the same parent, the one that comes
    first in path order lies below a child whose name does not come
    later. *)
Lemma registration_order (parent : SdfPath) (x y : TfToken) (k1 k2 : SdfPath) :
  IsAbsolutePath k1 = true -> IsPropertyPath k1 = false ->
  IsAbsolutePath k2 = true -> IsPropertyPath k2 = false ->
  SdfPath_compare k1 k2 <> Gt ->
  In (parent, x) (registrations (GetPathElementCount k1) k1) ->
  In (parent, y) (registrations (GetPathElementCount k2) k2) ->
  String.compare x y <> Gt.
Proof.
  intros Ha1 Hp1 Ha2 Hp2 Hcmp H1 H2.
  destruct (@registration_shape _ _ _ Ha1 Hp1 H1) as [pre1 [pp [-> ->]]].
  destruct (@registration_shape _ _ _ Ha2 Hp2 H2) as [pre2 [pp' [-> Hpar]]].
  injection Hpar as <-. simpl in Hcmp.
  rewrite !rev_app_distr in Hcmp. simpl in Hcmp.
  rewrite <- !app_assoc in Hcmp. rewrite list_compare_common_prefix in Hcmp.
  simpl in Hcmp.
  destruct (String.compare x y); try discriminate. intros _.
  apply Hcmp. reflexivity.
Qed.

Lemma all_pairs_sorted (A : Type) (R : A -> A -> Prop) (l : list A) :
  (forall x y, In x l -> In y l -> R x y) -> StronglySorted R l.
Proof.
  induction l as [|a l IH]; intros H; constructor.
  - apply IH. intros x y Hx Hy. apply H; simpl; auto.
  - apply Forall_forall. intros y Hy. apply H; simpl; auto.
Qed.

Lemma StronglySorted_app (A : Type) (R : A -> A -> Prop) (l1 l2 : list A) :
  StronglySorted R l1 -> StronglySorted R l2 ->
  (forall x y, In x l1 -> In y l2 -> R x y) ->
  StronglySorted R (l1 ++ l2).
Proof.
  induction 1 as [|a l1 Hs IH Hall]; intros H2 Hcross; simpl; trivial.
  constructor.
  - apply IH; trivial. intros x y Hx Hy. apply Hcross; simpl; auto.
  - apply Forall_app. split; trivial.
    apply Forall_forall. intros y Hy. apply Hcross; simpl; auto.
Qed.

Lemma StronglySorted_filter (A : Type) (R : A -> A -> Prop) (f : A -> bool)
    (l : list A) :
  StronglySorted R l -> StronglySorted R (filter f l).
Proof.
  induction 1 as [|a l Hs IH Hall]; simpl; [constructor|].
  destruct (f a); trivial. constructor; trivial.
  rewrite Forall_forall in *. intros x Hx. apply filter_In in Hx. now apply Hall.
Qed.

Lemma keep_first_ascending (names : list TfToken) :
  StronglySorted (fun a b => String.compare a b <> Gt) names ->
  StronglySorted (fun a b => String.compare a b = Lt) (keep_first names).
Proof.
  induction 1 as [|n names Hs IH Hall]; simpl; constructor.
  - now apply StronglySorted_filter.
  - rewrite Forall_forall in *. intros m Hm. apply filter_In in Hm.
    destruct Hm as [Hm Hne]. rewrite In_keep_first in Hm. apply Hall in Hm.
    destruct (String.compare n m) eqn:E; trivial; [|congruence].
    apply String_compare_eq_iff in E. subst m.
    assert (TfToken_eqb n n = true) as E by now apply TfToken_eqb_eq.
    rewrite E in Hne. discriminate Hne.
Qed.

Lemma names_under_app (parent : SdfPath) (r1 r2 : list (SdfPath * TfToken)) :
  names_under parent (r1 ++ r2) = names_under parent r1 ++ names_under parent r2.
Proof. unfold names_under. now rewrite filter_app, map_app. Qed.

Lemma discovered_names_ascending (parent : SdfPath) (keys : list SdfPath) :
  StronglySorted (fun a b => SdfPath_compare a b = Lt) keys ->
  Forall (fun k => IsAbsolutePath k = true /\ IsPropertyPath k = false) keys ->
  StronglySorted (fun a b => String.compare a b <> Gt)
    (names_under parent (discovery_sequence keys)).
Proof.
  unfold discovery_sequence.
  induction 1 as [|k keys Hs IH Hall]; intros Hkeys; simpl; [constructor|].
  apply Forall_cons_iff in Hkeys. destruct Hkeys as [[Ha Hp] Hkeys].
  rewrite names_under_app. apply StronglySorted_app.
  - apply all_pairs_sorted. intros x y Hx Hy.
    apply In_names_under in Hx, Hy.
    apply (@registration_order parent x y k k Ha Hp Ha Hp); trivial.
    assert (SdfPath_compare k k = Eq) as -> by now apply SdfPath_compare_eq_iff.
    discriminate.
  - now apply IH.
  - intros x y Hx Hy. apply In_names_under in Hx, Hy.
    apply in_flat_map in Hy. destruct Hy as [k' [Hk' Hy]].
    rewrite Forall_forall in Hall, Hkeys.
    destruct (Hkeys k' Hk') as [Ha' Hp'].
    apply (@registration_order parent x y k k' Ha Hp Ha' Hp'); trivial.
    rewrite (Hall k' Hk'). discriminate.
Qed.

(** X21.  When every string of the path column is prim path text
    (letters, digits, underscores and [/] only), the children of every
    path are listed in strictly ascending name order: the index is walked
    in path order, so the order in which the child names are first met is
    the order of the names. *)
Theorem children_in_ascending_name_order (fs : FileSystem) (filePath : string)
    (st : ParquetLayerData) (parent : SdfPath) :
  Open fs filePath ParquetLayerData_new = Returns true st ->
  Forall (fun s => prim_path_text s = true) (path_strings fs filePath) ->
  StronglySorted (fun a b => String.compare a b = Lt) (children_of st parent).
Proof.
  intros Hopen Htext. apply Open_true_inv in Hopen.
  destruct Hopen as [f [pc [Hfs Hopened]]].
  assert (forall k, Indexed st k -> IsPropertyPath k = false) as Hprim.
  { intros k Hk.
    exact (@prim_rows_index_prims fs filePath f pc st k Hfs Hopened Htext Hk). }
  rewrite (Opened_children_of parent Hopened). unfold first_discovery_order.
  apply keep_first_ascending. apply discovered_names_ascending.
  - destruct Hopened as [_ [_ [Hidx _]]]. rewrite Hidx.
    apply index_groups_keys; constructor.
  - apply Forall_forall. intros k Hk.
    apply (map_count_keys _ SdfPath_compare_eq_iff) in Hk.
    split; [now apply (Opened_keys_absolute Hopened)|now apply Hprim].
Qed.

Lemma children_in_ascending_name_order_witness :
  Open order_fs "order.parquet" ParquetLayerData_new = Returns true order_store
  /\ Forall (fun s => prim_path_text s = true)
       (path_strings order_fs "order.parquet")
  /\ StronglySorted (fun a b => String.compare a b = Lt)
       (children_of order_store (SdfPath_of_string "/A")).
Proof.
  assert (Forall (fun s => prim_path_text s = true)
            (path_strings order_fs "order.parquet")) as Htext.
  { vm_compute. repeat constructor. }
  split; [reflexivity|]. split; [exact Htext|].
  apply (@children_in_ascending_name_order order_fs "order.parquet" order_store
           (SdfPath_of_string "/A")); [reflexivity|exact Htext].
Defined.

(** ** A column of an unsupported physical type *)

(** X22.  A column of an unsupported physical type is never read.  In
    every state of an opened store, [Get] asked for the default value of
    a field path over such a column returns the empty value without
    issuing a batch read, and leaves an empty value in the cache for the
    pair; the overload of [Has] that stores into an abstract value,
    asked for the type name, answers [true] and stores the empty value. *)
Theorem unsupported_column_is_never_read (fs : FileSystem) (filePath : string)
    (st : ParquetLayerData) (f : ParquetFile) (fp : SdfPath)
    (loc : ParquetLocation) (colIdx : nat) (g : RowGroup) (chunk : ColumnChunk) :
  Reachable fs filePath st ->
  fs filePath = Some f ->
  IsPropertyPath fp = true ->
  map_find SdfPath_compare (GetPrimPath fp) (_pathIndex st) = Some loc ->
  InFieldCatalog st (GetNameToken fp) ->
  field_chunk f (GetNameToken fp) (rowGroup loc) = Some (colIdx, g, chunk) ->
  supported_type (chunk_type chunk) = false ->
  exists st',
    Get fp SdfFieldKeys.Default st = Returns VtEmpty st'
    /\ Has_abstract fp SdfFieldKeys.TypeName true st = Returns (true, Some VtEmpty) st'
    /\ reads st' = reads st
    /\ cache_lookup (GetNameToken fp) (rowGroup loc) (_blockCache st') = Some VtEmpty.
Proof.
  intros Hreach Hfs Hp Hloc Hcat Hfc Hunsup.
  destruct (Reachable_open_file Hreach Hfs) as [Hf Hc].
  apply has_property_In in Hcat.
  assert (decode_chunk (num_rows g) chunk = None) as Hdec.
  { destruct chunk as [v|v|v|v|v|v|v|v|t]; simpl in *; trivial; discriminate. }
  assert (expected_block f (GetNameToken fp) (rowGroup loc) = VtEmpty) as Hexp.
  { now rewrite (@expected_block_decoded f _ _ colIdx g chunk Hfc), Hdec. }
  assert (exists s0,
             _LoadBlock (GetNameToken fp) (rowGroup loc) st = Returns tt s0
             /\ reads s0 = reads st
             /\ (cache_lookup (GetNameToken fp) (rowGroup loc) (_blockCache s0) = None
                 \/ cache_lookup (GetNameToken fp) (rowGroup loc) (_blockCache s0)
                    = Some VtEmpty))
    as [s0 [Hload [Hreads Hlook0]]].
  { destruct (cache_lookup (GetNameToken fp) (rowGroup loc) (_blockCache st))
      as [v|] eqn:Hlook.
    - exists st. split; [eapply LoadBlock_hit; eassumption|]. split; trivial.
      right. rewrite Hlook. f_equal. rewrite <- Hexp. now apply Hc.
    - destruct (open_file_reader st Hf) as [log Hrd].
      rewrite (LoadBlock_miss st (GetNameToken fp) (rowGroup loc) Hrd Hlook).
      pose proof Hfc as Hfc'. apply field_chunk_Some in Hfc'.
      destruct Hfc' as [Hg [Hcol Hch]].
      rewrite Hg, Hcol, Hch, Hdec, Hunsup. eexists. split; [reflexivity|].
      split; [reflexivity|]. left. simpl. now rewrite cache_count_snd. }
  pose proof (@load_and_fetch_after st s0 _ _ Hload) as Hrun.
  rewrite cache_subscript_fst in Hrun.
  assert (match cache_lookup (GetNameToken fp) (rowGroup loc) (_blockCache s0) with
          | Some v => v
          | None => VtEmpty
          end = VtEmpty) as Hblock.
  { destruct Hlook0 as [->| ->]; reflexivity. }
  rewrite Hblock in Hrun.
  eexists. split; [|split; [|split]].
  - rewrite (Get_Default_unfold st fp Hp Hloc Hcat). unfold bind. rewrite Hrun.
    reflexivity.
  - unfold Has_abstract, bind, Has. rewrite bind_get_state, Hp, Hloc, Hcat.
    eval_keys. unfold bind. rewrite Hrun. reflexivity.
  - exact Hreads.
  - simpl. rewrite cache_subscript_snd, String.eqb_refl, Nat.eqb_refl.
    destruct Hlook0 as [->| ->]; reflexivity.
Qed.

Lemma unsupported_column_is_never_read_witness :
  Reachable unsupported_fs "ts.parquet" unsupported_store
  /\ exists st',
       Get (SdfPath_of_string "/A.ts") SdfFieldKeys.Default unsupported_store
       = Returns VtEmpty st'
       /\ Has_abstract (SdfPath_of_string "/A.ts") SdfFieldKeys.TypeName true
            unsupported_store
          = Returns (true, Some VtEmpty) st'
       /\ reads st' = reads unsupported_store
       /\ cache_lookup "ts" 0 (_blockCache st') = Some VtEmpty.
Proof.
  assert (Reachable unsupported_fs "ts.parquet" unsupported_store) as Hreach
    by (apply reach_Open; reflexivity).
  split; [exact Hreach|].
  apply (@unsupported_column_is_never_read unsupported_fs "ts.parquet"
           unsupported_store unsupported_file (SdfPath_of_string "/A.ts")
           {| rowGroup := 0; rowOffset := 0 |} 2
           {| num_rows := 1;
              columns := [ByteArrayChunk ["/A"]; DoubleChunk [15%Z];
                          Int96Chunk [7%Z]] |}
           (Int96Chunk [7%Z]) Hreach);
    try reflexivity.
  right. left. reflexivity.
Defined.

(** ** What exists is fixed by [Open] *)

(** X23.  The queries and mutators never change what exists: in any two
    states of the same opened store, [HasSpec], [GetSpecType] and [List]
    give the same answers, the children of every path are the same, and
    a traversal visits the same paths in the same order. *)
Theorem existence_is_fixed_by_Open (fs : FileSystem) (filePath : string)
    (s1 s2 : ParquetLayerData) :
  Reachable fs filePath s1 ->
  Reachable fs filePath s2 ->
  (forall path, HasSpec s1 path = HasSpec s2 path)
  /\ (forall path, GetSpecType s1 path = GetSpecType s2 path)
  /\ (forall path, List_ s1 path = List_ s2 path)
  /\ (forall path, children_of s1 path = children_of s2 path)
  /\ visit_order s1 = visit_order s2.
Proof.
  intros H1 H2.
  destruct (Reachable_same_structure H1 H2) as [Hi [Ha [Hc [Hn _]]]].
  assert (forall name, has_property s2 name = has_property s1 name) as Hprop.
  { intros name. unfold has_property. now rewrite Hn. }
  repeat split.
  - intros path. unfold HasSpec. now rewrite Hi, Ha, Hprop.
  - intros path. unfold GetSpecType. now rewrite Hi, Ha, Hprop.
  - intros path. unfold List_. now rewrite Hi, Ha, Hc, Hn.
  - intros path. unfold children_of. now rewrite Hc.
  - unfold visit_order, visit_order_of. now rewrite Hi, Ha, Hn.
Qed.

Lemma existence_is_fixed_by_Open_witness :
  Reachable rows_fs "rows.parquet" rows_store
  /\ Reachable rows_fs "rows.parquet"
       (store_of (Get (SdfPath_of_string "/A/C.temp") SdfFieldKeys.Default rows_store))
  /\ (forall path,
        HasSpec rows_store path =
        HasSpec (store_of (Get (SdfPath_of_string "/A/C.temp") SdfFieldKeys.Default
                             rows_store)) path)
  /\ (forall path,
        GetSpecType rows_store path =
        GetSpecType (store_of (Get (SdfPath_of_string "/A/C.temp")
                                 SdfFieldKeys.Default rows_store)) path)
  /\ (forall path,
        List_ rows_store path =
        List_ (store_of (Get (SdfPath_of_string "/A/C.temp") SdfFieldKeys.Default
                           rows_store)) path)
  /\ (forall path,
        children_of rows_store path =
        children_of (store_of (Get (SdfPath_of_string "/A/C.temp")
                                 SdfFieldKeys.Default rows_store)) path)
  /\ visit_order rows_store =
     visit_order (store_of (Get (SdfPath_of_string "/A/C.temp") SdfFieldKeys.Default
                              rows_store)).
Proof.
  assert (Reachable rows_fs "rows.parquet" rows_store) as H1
    by (apply reach_Open; reflexivity).
  assert (Reachable rows_fs "rows.parquet"
            (store_of (Get (SdfPath_of_string "/A/C.temp") SdfFieldKeys.Default
                         rows_store))) as H2.
  { apply (@reach_Get rows_fs "rows.parquet" rows_store _
             (SdfPath_of_string "/A/C.temp") SdfFieldKeys.Default (VtDouble 25%Z) H1).
    vm_compute. reflexivity. }
  split; [exact H1|]. split; [exact H2|].
  exact (@existence_is_fixed_by_Open rows_fs "rows.parquet" rows_store _ H1 H2).
Defined.

(** ** The children listed are the child specs *)

Lemma parse_elements_result (isAbs : bool) (body : string) (a : bool)
    (prims : list TfToken) (prop : option TfToken) :
  parse_elements isAbs body = MkPath a prims prop ->
  a = isAbs
  /\ (isAbs = true -> Forall (fun x => IsValidIdentifier x = true) prims).
Proof.
  unfold parse_elements.
  destruct (rev (split_on "/" body)) as [|last before]; [discriminate|].
  destruct (if String.eqb last SdfPathTokens.parentPathElement
            then (last, None) else split_property last) as [lastPrim prop'].
  destruct (forallb _ _ && valid_property prop') eqn:E; [|discriminate].
  intros H. injection H as <- <- <-. split; trivial.
  intros ->. apply andb_true_iff in E. destruct E as [E _].
  rewrite forallb_forall in E. apply Forall_forall. intros x Hx.
  apply E. apply -> in_rev. exact Hx.
Qed.

Lemma parse_absolute_valid (s : string) (prims : list TfToken)
    (prop : option TfToken) :
  SdfPath_of_string s = MkPath true prims prop ->
  Forall (fun x => IsValidIdentifier x = true) prims.
Proof.
  unfold SdfPath_of_string. destruct s as [|c rest]; [discriminate|].
  destruct (Ascii.eqb c "/").
  - destruct rest as [|c' rest'].
    + intros H. injection H as <- _. constructor.
    + intros H. apply parse_elements_result in H. destruct H as [_ H]. now apply H.
  - destruct (String.eqb (String c rest) "."); [discriminate|].
    destruct (Ascii.eqb c ".").
    + destruct (split_property (String c rest)) as [[|] [p|]]; try discriminate.
      destruct (_ || _).
      * intros H. apply parse_elements_result in H. destruct H as [H _].
        discriminate H.
      * destruct (IsValidNamespacedIdentifier p); discriminate.
    + intros H. apply parse_elements_result in H. destruct H as [H _].
      discriminate H.
Qed.

Lemma dotdot_not_identifier : IsValidIdentifier SdfPathTokens.parentPathElement = false.
Proof. reflexivity. Qed.

Lemma Opened_node_names_valid (f : ParquetFile) (pc : nat) (st : ParquetLayerData)
    (prims : list TfToken) :
  Opened f pc st ->
  (forall k, Indexed st k -> IsPropertyPath k = false) ->
  InAllNodes st (MkPath true prims None) ->
  Forall (fun x => IsValidIdentifier x = true) prims.
Proof.
  intros Hopened Hprim Hc. apply (Opened_allPaths Hopened) in Hc.
  destruct Hc as [k [Hk Hc]].
  assert (exists kp, k = MkPath true kp None
                     /\ Forall (fun x => IsValidIdentifier x = true) kp)
    as [kp [-> Hvalid]].
  { pose proof Hk as Hfind. unfold Indexed, map_count in Hfind.
    destruct (map_find SdfPath_compare k (_pathIndex st)) as [loc|] eqn:Hloc;
      [|discriminate Hfind].
    destruct (@Opened_index_entry f pc st k loc Hopened Hloc)
      as [g [vals [s [_ [_ [_ [_ [Hparse Habs]]]]]]]].
    pose proof (Hprim k Hk) as Hp.
    destruct k as [|[|] kp [prop|]]; try discriminate.
    exists kp. split; trivial. exact (@parse_absolute_valid s kp None Hparse). }
  destruct Hc as [Hc|[Hanc _]].
  - now injection Hc as ->.
  - apply ancestor_or_self_suffix in Hanc; trivial.
    destruct Hanc as [pre [cp [kp' [Hk' [Hc ->]]]]].
    injection Hk' as ->. injection Hc as ->.
    apply Forall_app in Hvalid. tauto.
Qed.

(** X24.  When every string of the path column is prim path text
    (letters, digits, underscores and [/] only), the names listed as the
    children of a path are exactly the identifiers whose child path is a
    spec: [name] is among the prim children of [parent] exactly when it
    is a valid identifier and [HasSpec] accepts
    [parent.AppendChild(name)]. *)
Theorem children_are_the_child_specs (fs : FileSystem) (filePath : string)
    (st : ParquetLayerData) (parent : SdfPath) (name : TfToken) :
  Open fs filePath ParquetLayerData_new = Returns true st ->
  Forall (fun s => prim_path_text s = true) (path_strings fs filePath) ->
  (In name (children_of st parent) <->
   IsValidIdentifier name = true /\ HasSpec st (AppendChild parent name) = true).
Proof.
  intros Hopen Htext. apply Open_true_inv in Hopen.
  destruct Hopen as [f [pc [Hfs Hopened]]].
  assert (forall k, Indexed st k -> IsPropertyPath k = false) as Hprim.
  { intros k Hk.
    exact (@prim_rows_index_prims fs filePath f pc st k Hfs Hopened Htext Hk). }
  rewrite (Opened_child_iff parent name Hopened).
  assert (forall c, InAllNodes st c ->
                    exists prims, c = MkPath true prims None) as Hshape.
  { intros c Hc. apply (Opened_allPaths Hopened) in Hc.
    destruct Hc as [k [Hk Hc]].
    pose proof (Opened_keys_absolute Hopened Hk) as Habs.
    pose proof (Hprim k Hk) as Hp.
    destruct Hc as [->|[Hanc _]].
    - destruct k as [|[|] kp [prop|]]; try discriminate. eauto.
    - apply ancestor_or_self_suffix in Hanc; trivial.
      destruct Hanc as [pre [cp [kp [_ [-> _]]]]]. eauto. }
  split.
  - intros [c [Hc [Hne [Hpar Hname]]]].
    destruct (Hshape c Hc) as [[|x pp] ->]; [exfalso; now apply Hne|].
    pose proof (Opened_node_names_valid Hopened Hprim Hc) as Hvalid.
    apply Forall_cons_iff in Hvalid. destruct Hvalid as [Hx _].
    simpl in Hpar, Hname. subst parent name. split; trivial.
    unfold AppendChild.
    destruct (String.eqb x SdfPathTokens.parentPathElement) eqn:E.
    { apply String.eqb_eq in E. subst x. discriminate Hx. }
    rewrite Hx. unfold HasSpec.
    apply SdfPath_eqb_neq in Hne. rewrite Hne. exact Hc.
  - intros [Hvalid Hspec].
    assert (HasSpec st EmptyPath = false) as Hempty.
    { unfold HasSpec. simpl.
      destruct (set_count SdfPath_compare EmptyPath (_allPaths st)) eqn:Hc; trivial.
      destruct (Hshape _ Hc) as [prims Hc']. discriminate Hc'. }
    unfold AppendChild in Hspec.
    destruct parent as [|a pp [prop|]]; try congruence.
    destruct (String.eqb name SdfPathTokens.parentPathElement) eqn:E.
    { apply String.eqb_eq in E. subst name. discriminate Hvalid. }
    rewrite Hvalid in Hspec. unfold HasSpec in Hspec.
    destruct (SdfPath_eqb (MkPath a (name :: pp) None) AbsoluteRootPath) eqn:Hroot.
    { apply SdfPath_eqb_eq in Hroot. destruct a; discriminate Hroot. }
    simpl in Hspec. exists (MkPath a (name :: pp) None).
    split; [exact Hspec|].
    destruct (Hshape _ Hspec) as [prims Hc]. injection Hc as -> _.
    split; [discriminate|]. split; reflexivity.
Qed.

Lemma children_are_the_child_specs_witness :
  Open rows_fs "rows.parquet" ParquetLayerData_new = Returns true rows_store
  /\ Forall (fun s => prim_path_text s = true) (path_strings rows_fs "rows.parquet")
  /\ (In "B" (children_of rows_store (SdfPath_of_string "/A")) <->
      IsValidIdentifier "B" = true
      /\ HasSpec rows_store (AppendChild (SdfPath_of_string "/A") "B") = true).
Proof.
  assert (Forall (fun s => prim_path_text s = true)
            (path_strings rows_fs "rows.parquet")) as Htext.
  { vm_compute. repeat constructor. }
  split; [reflexivity|]. split; [exact Htext|].
  apply (@children_are_the_child_specs rows_fs "rows.parquet" rows_store
           (SdfPath_of_string "/A") "B"); [reflexivity|exact Htext].
Defined.
